(** * lina.utils: a shallow embedding of the numerical utility routines

    The Python module [lina/utils.py] is a flat library of array routines
    for deformable-mirror (DM) wavefront control.  This development embeds
    the routines whose behaviour the specification describes and proves
    (or refutes) the specification's statements about them.

    Conventions of the embedding:
    - a 1-D numpy array is a [list]; a 2-D array is a list of rows
      (row-major, as [flatten]/[ravel] read it);
    - sizes and indices are [nat] (every size and index the routines
      compute from well-formed arguments is non-negative);
    - float64 arithmetic is idealised as arithmetic on [R], so a division
      by zero or an empty mean is not a [nan] but whatever [R] gives,
      except where a definition says otherwise;
    - a Python exception is [None] in an [option] result;
    - the routines of the array backend that the module calls
      ([linalg.inv], [linalg.svd], [scipy.linalg.hadamard], fancy
      indexing, [linspace], [digitize], ...) are modelled by what their
      documentation says, each where it is first used. *)

From Stdlib Require Import Reals Lra Lia ZArith List String Sorted.
From stdpp Require Import base list strings gmap.
Import ListNotations.

(** ** Arrays as nested lists *)

Module Arr.
Section Arrays.
Context {A : Type}.

(** [is_matrix r c a]: [a] is a 2-D array of shape [(r, c)]. *)
Definition is_matrix (r c : nat) (a : list (list A)) : Prop :=
  length a = r ∧ Forall (λ row, length row = c) a.

(** [square n a]: [a] has shape [(n, n)]. *)
Definition square (n : nat) (a : list (list A)) : Prop := is_matrix n n a.

(** [a[i, j]], when in range. *)
Definition at2 (a : list (list A)) (i j : nat) : option A :=
  a !! i ≫= (λ row, row !! j).

(** [l[x1:x2]] for non-negative bounds: Python clips both to [len l]. *)
Definition slice (x1 x2 : nat) (l : list A) : list A :=
  take (x2 - x1) (drop x1 l).

(** [a.flatten()] / [a.ravel()]: rows one after the other. *)
Definition flatten (a : list (list A)) : list A := concat a.
End Arrays.

Section Blocks.
Context {A : Type}.

(** [a[x1:x2, x1:x2]] *)
Definition slice2 (x1 x2 : nat) (a : list (list A)) : list (list A) :=
  map (slice x1 x2) (slice x1 x2 a).

(** [np.zeros((r, c))] for an element type with zero [z]. *)
Definition zeros (z : A) (r c : nat) : list (list A) :=
  replicate r (replicate c z).

(** [out[x1:x2, x1:x2] = inp], the block and [inp] having the same shape
    (which is what numpy requires of a 2-D right-hand side that is not
    broadcast): rows [x1..x2) of [out] get their columns [x1..x2)
    replaced by the rows of [inp]. *)
Definition assign_block (x1 x2 : nat) (out inp : list (list A))
  : list (list A) :=
  take x1 out
  ++ zip_with (λ orow irow, take x1 orow ++ irow ++ drop x2 orow)
              (slice x1 x2 out) inp
  ++ drop x2 out.
End Blocks.
End Arr.

(** ** 4.1  pad_or_crop *)

Section PadOrCrop.
Context {A : Type} (zero : A).

Definition pad_or_crop (arr_in : list (list A)) (npix : nat)
  : list (list A) :=
  let n_arr_in := length arr_in in
  if n_arr_in =? npix then arr_in
  else if npix <? n_arr_in then
    let x1 := n_arr_in / 2 - npix / 2 in
    let x2 := x1 + npix in
    Arr.slice2 x1 x2 arr_in
  else
    let arr_out := Arr.zeros zero npix npix in
    let x1 := npix / 2 - n_arr_in / 2 in
    let x2 := x1 + n_arr_in in
    Arr.assign_block x1 x2 arr_out arr_in.

(** The centred window of size [m] inside [n]: offset [n//2 - m//2]. *)
Definition in_window (n m i : nat) : bool :=
  (n / 2 - m / 2 <=? i) && (i <? n / 2 - m / 2 + m).
End PadOrCrop.

(** ** 4.4  map_acts_to_dm *)

Module Np.
Section Indexing.
Context {A : Type}.

(** [np.where(m)[0]] on a flat 0/1 array: the positions of the non-zero
    entries, ascending. *)
Fixpoint where_from (i : nat) (m : list bool) : list nat :=
  match m with
  | [] => []
  | b :: m' => if b then i :: where_from (S i) m' else where_from (S i) m'
  end.

Definition where_ (m : list bool) : list nat := where_from 0 m.

(** Writing [vals] at [inds], one after the other (a later write to a
    repeated index wins, as in numpy). *)
Fixpoint scatter (flat : list A) (inds : list nat) (vals : list A)
  : list A :=
  match inds, vals with
  | i :: inds', v :: vals' => scatter (<[i:=v]> flat) inds' vals'
  | _, _ => flat
  end.

(** [flat[inds] = vals] for an integer index array [inds] and a 1-D
    right-hand side: an index past the end is an IndexError; a right-hand
    side as long as [inds] is written elementwise; a right-hand side of
    length 1 is broadcast to every index; any other length is the
    ValueError "shape mismatch: value array ... could not be broadcast". *)
Definition put (flat : list A) (inds : list nat) (vals : list A)
  : option (list A) :=
  if existsb (λ i, length flat <=? i) inds then None
  else if length vals =? length inds then Some (scatter flat inds vals)
  else match vals with
       | [v] => Some (scatter flat inds (replicate (length inds) v))
       | _ => None
       end.

(** [a[mask]] for a boolean [mask] of the shape of [a]: the selected
    entries, in row-major order. *)
Fixpoint select1 (vals : list A) (mask : list bool) : list A :=
  match vals, mask with
  | v :: vals', b :: mask' =>
      if b then v :: select1 vals' mask' else select1 vals' mask'
  | _, _ => []
  end.

Definition select (a : list (list A)) (mask : list (list bool)) : list A :=
  select1 (Arr.flatten a) (Arr.flatten mask).

(** The 2-D view of a flat buffer with rows of length [c]. *)
Fixpoint reshape2 (r c : nat) (flat : list A) : list (list A) :=
  match r with
  | 0 => []
  | S r' => take c flat :: reshape2 r' c (drop c flat)
  end.
End Indexing.

(** [mask.sum()]: the number of True entries. *)
Definition mask_sum (mask : list (list bool)) : nat :=
  sum_list (map (λ b : bool, if b then 1 else 0) (Arr.flatten mask)).

(** [mask.size] *)
Definition size {A} (a : list (list A)) : nat := length (Arr.flatten a).
End Np.

Section MapActs.
Context {A : Type} (zero : A).

(** [command.ravel()] is a view of [command]: the write through it is a
    write to the flattened buffer, read back in shape [(Nact, Nact)]. *)
Definition map_acts_to_dm (actuators : list A) (dm_mask : list (list bool))
  (Nact : nat) : option (list (list A)) :=
  let inds := Np.where_ (Arr.flatten dm_mask) in
  let command := Arr.zeros zero Nact Nact in
  flat ← Np.put (Arr.flatten command) inds actuators;
  Some (Np.reshape2 Nact Nact flat).
End MapActs.

(** ** 4.4  get_hadamard_modes *)

(** [scipy.linalg.hadamard(n)]: Sylvester's construction; [n] must be a
    power of two (ValueError otherwise).  Its [int(math.log(n, 2))] is
    the exact floor of the binary logarithm here. *)
Definition hadamard_step (H : list (list Z)) : list (list Z) :=
  zip_with app H H ++ zip_with app H (map (map Z.opp) H).

Fixpoint hadamard_pow (lg2 : nat) : list (list Z) :=
  match lg2 with
  | 0 => [[1%Z]]
  | S k => hadamard_step (hadamard_pow k)
  end.

Definition hadamard (n : nat) : option (list (list Z)) :=
  let lg2 := Nat.log2 n in
  if 2 ^ lg2 =? n then Some (hadamard_pow lg2) else None.

(** An entry of a Hadamard matrix: [+1] or [-1]. *)
Definition pm1 (x : Z) : Prop := x = 1%Z ∨ x = (-1)%Z.

(** [int(np.ceil(np.log2(Nacts)))] is [Nat.log2_up Nacts] for
    [Nacts >= 1]; for [Nacts = 0] the conversion of [-inf] raises. *)
Definition get_hadamard_modes (dm_mask : list (list bool))
  : option (list (list Z)) :=
  let Nacts := Np.mask_sum dm_mask in
  if Nacts =? 0 then None
  else
    let np2 := 2 ^ Nat.log2_up Nacts in
    hmodes ← hadamard np2;
    let inds := Np.where_ (Arr.flatten dm_mask) in
    mapM (λ hmode,
            let hmode := take Nacts hmode in
            let mode := replicate (length dm_mask ^ 2) 0%Z in
            Np.put mode inds hmode)
         hmodes.

(** ** numpy on real arrays *)

Module NpR.
Section RealArrays.
Local Open Scope R_scope.

(** Elementwise application of a unary / binary function (operands of
    the same shape). *)
Definition map2d {A B} (f : A → B) (a : list (list A)) : list (list B) :=
  map (map f) a.

Definition zip2d {A B C} (f : A → B → C)
  (a : list (list A)) (b : list (list B)) : list (list C) :=
  zip_with (zip_with f) a b.

(** [np.indices((r, c))]: the row-index grid and the column-index grid. *)
Definition indices (shape : nat * nat) : list (list R) * list (list R) :=
  (map (λ i, map (λ _, INR i) (seq 0 shape.2)) (seq 0 shape.1),
   map (λ _, map (λ j, INR j) (seq 0 shape.2)) (seq 0 shape.1)).

(** [np.meshgrid(xs, ys)]: [X[i][j] = xs[j]], [Y[i][j] = ys[i]]. *)
Definition meshgrid (xs ys : list R) : list (list R) * list (list R) :=
  (map (λ _, xs) ys, map (λ y, map (λ _, y) xs) ys).

(** [ceil x] as a natural number (0 for negative [x]). *)
Definition ceil_nat (x : R) : nat := Z.to_nat (1 - up (- x)).

(** [np.arange(start, stop)], step 1: [ceil(stop - start)] values
    [start + k]. *)
Definition arange (start stop : R) : list R :=
  map (λ k, start + INR k) (seq 0 (ceil_nat (stop - start))).

(** [np.linspace(start, stop, num)] (endpoint included): [num] values
    [k * step + start] with [step = (stop - start) / (num - 1)], the last
    one overwritten by [stop]; a single value [start] when [num = 1]. *)
Definition linspace (start stop : R) (num : nat) : list R :=
  match num with
  | 0%nat => []
  | 1%nat => [start]
  | _ =>
      let step := (stop - start) / INR (num - 1) in
      <[(num - 1)%nat := stop]>
        (map (λ k, INR k * step + start) (seq 0 num))
  end.

(** [np.round x]: to the nearest integer, halves to the even one. *)
Definition round (x : R) : R :=
  let f := Int_part x in
  let d := x - IZR f in
  if Rlt_dec d (1 / 2) then IZR f
  else if Rlt_dec (1 / 2) d then IZR f + 1
  else if Z.even f then IZR f else IZR f + 1.

(** [np.sinc x = sin(pi x) / (pi x)], and 1 at [x = 0]. *)
Definition sinc (x : R) : R :=
  if Req_dec_T x 0 then 1 else sin (PI * x) / (PI * x).
End RealArrays.
End NpR.

(** ** 4.4  fourier_mode *)

Section FourierMode.
Local Open Scope R_scope.

Definition fourier_mode (lambdaD_yx : R * R) (rms : R)
  (acts_per_D_yx : R * R) (Nact : nat) (phase : R) : list (list R) :=
  let '(idy, idx) := NpR.indices (Nact, Nact) in
  let idy := NpR.map2d (λ v, v - (34 - 1) / 2) idy in
  let idx := NpR.map2d (λ v, v - (34 - 1) / 2) idx in
  let prefactor := rms * sqrt 2 in
  let arg :=
    NpR.zip2d (λ y x, 2 * PI * (lambdaD_yx.1 / acts_per_D_yx.1 * y
                                + lambdaD_yx.2 / acts_per_D_yx.2 * x))
              idy idx in
  NpR.map2d (λ a, prefactor * cos (a + phase)) arg.

(** The argument of the sinusoid at grid point [(i, j)], as the
    specification writes it. *)
Definition fourier_arg (lambdaD_yx acts_per_D_yx : R * R) (i j : nat) : R :=
  2 * PI * (lambdaD_yx.1 / acts_per_D_yx.1 * (INR i - 16.5)
            + lambdaD_yx.2 / acts_per_D_yx.2 * (INR j - 16.5)).
End FourierMode.

(** ** 4.4  create_sinc_probe / create_sinc_probes *)

Section SincProbes.
Local Open Scope R_scope.

(** The [print] of the parameters is an output effect only and is left
    out.  A [bad_axis] other than ['x'] or ['y'] leaves [probe_commands]
    unbound: returning it is then an error, unless [probe_phase == 0]
    has assigned it. *)
Definition create_sinc_probe (Nacts : nat) (amp probe_radius probe_phase : R)
  (offset : R * R) (bad_axis : string) : option (list (list R)) :=
  let xacts :=
    map (λ v, v / INR Nacts - NpR.round offset.1 / INR Nacts)
        (NpR.arange (- (INR Nacts - 1) / 2) ((INR Nacts + 1) / 2)) in
  let yacts :=
    map (λ v, v / INR Nacts - NpR.round offset.2 / INR Nacts)
        (NpR.arange (- (INR Nacts - 1) / 2) ((INR Nacts + 1) / 2)) in
  let '(Xacts, Yacts) := NpR.meshgrid xacts yacts in
  let probe_commands :=
    if (bad_axis =? "x")%string then
      let fX := 2 * probe_radius in
      let fY := probe_radius in
      let omegaY := probe_radius / 2 in
      Some (NpR.zip2d
              (λ X Y, amp * NpR.sinc (fX * X) * NpR.sinc (fY * Y)
                      * cos (2 * PI * omegaY * Y + probe_phase))
              Xacts Yacts)
    else if (bad_axis =? "y")%string then
      let fX := probe_radius in
      let fY := 2 * probe_radius in
      let omegaX := probe_radius / 2 in
      Some (NpR.zip2d
              (λ X Y, amp * NpR.sinc (fX * X) * NpR.sinc (fY * Y)
                      * cos (2 * PI * omegaX * X + probe_phase))
              Xacts Yacts)
    else None in
  if Req_dec_T probe_phase 0 then
    let f := 2 * probe_radius in
    Some (NpR.zip2d (λ X Y, amp * NpR.sinc (f * X) * NpR.sinc (f * Y))
                    Xacts Yacts)
  else probe_commands.

(** [probe * dm_mask] for a boolean mask of the probe's shape. *)
Definition mul_mask (probe : list (list R)) (dm_mask : list (list bool))
  : list (list R) :=
  NpR.zip2d (λ x (b : bool), x * (if b then 1 else 0)) probe dm_mask.

(** [Npairs = 0] divides by zero when the last phase is computed. *)
Definition create_sinc_probes (Npairs Nact : nat)
  (dm_mask : list (list bool)) (probe_amplitude probe_radius : R)
  (probe_offset : R * R) : option (list (list (list R))) :=
  if (Npairs =? 0)%nat then None
  else
    let probe_phases :=
      NpR.linspace 0 (PI * (INR Npairs - 1) / INR Npairs) Npairs in
    mapM (λ i : nat,
            let axis := if (i mod 2 =? 0)%nat then "x"%string
                        else "y"%string in
            phase ← probe_phases !! i;
            probe ← create_sinc_probe Nact probe_amplitude probe_radius
                                      phase probe_offset axis;
            Some (mul_mask probe dm_mask))
         (seq 0 Npairs).
End SincProbes.

(** The [k]-th coordinate of the actuator grid shifted by the rounded
    offset [off]: [(-(Nacts-1)/2 + k)/Nacts - round(off)/Nacts]. *)
Definition act_coord (Nacts : nat) (off : R) (k : nat) : R :=
  ((- (INR Nacts - 1) / 2 + INR k) / INR Nacts
   - NpR.round off / INR Nacts)%R.

(** ** 4.2  Control matrix construction *)

Module Mat.
Abbreviation matrix := (list (list R)).

Section Matrices.
Local Open Scope R_scope.

(** [a.shape[1]] of a matrix with at least one row. *)
Definition ncols (a : matrix) : nat :=
  match a with [] => 0%nat | row :: _ => length row end.

Definition entry (a : matrix) (i j : nat) : R := nth j (nth i a []) 0.

Definition Rsum (l : list R) : R := foldr Rplus 0 l.

(** [a.T] *)
Definition transpose (a : matrix) : matrix :=
  map (λ j, map (λ i, entry a i j) (seq 0 (length a))) (seq 0 (ncols a)).

(** [a.dot(b)] / [matmul(a, b)]: a ValueError when the inner dimensions
    differ. *)
Definition dot (a b : matrix) : option matrix :=
  if (ncols a =? length b)%nat then
    Some (map (λ i,
                 map (λ j, Rsum (map (λ k, entry a i k * entry b k j)
                                     (seq 0 (ncols a))))
                     (seq 0 (ncols b)))
              (seq 0 (length a)))
  else None.

(** [diag(w)] of a 1-D array: the square matrix with [w] on its diagonal. *)
Definition diag_of_vec (w : list R) : matrix :=
  map (λ i, map (λ j, if (i =? j)%nat then nth i w 0 else 0)
                (seq 0 (length w)))
      (seq 0 (length w)).

(** [diag(a)] of a 2-D array: its main diagonal. *)
Definition diag_of_mat (a : matrix) : list R :=
  map (λ i, entry a i i) (seq 0 (length a `min` ncols a)).

Definition eye (n : nat) : matrix :=
  map (λ i, map (λ j, if (i =? j)%nat then 1 else 0) (seq 0 n)) (seq 0 n).

(** [l.max()]: a ValueError on an empty array. *)
Definition max (l : list R) : option R :=
  match l with
  | [] => None
  | x :: l' => Some (foldl Rmax x l')
  end.

(** [c * a] and [a + b] (same shapes), elementwise. *)
Definition scale (c : R) (a : matrix) : matrix := NpR.map2d (Rmult c) a.
Definition add (a b : matrix) : matrix := NpR.zip2d Rplus a b.

(** [a * v] for a 2-D [a] and a 1-D [v] as long as the rows of [a]:
    numpy broadcasts [v] along the rows, so column [k] is scaled by
    [v[k]]. *)
Definition mul_rows (a : matrix) (v : list R) : matrix :=
  map (λ row, zip_with Rmult row v) a.
End Matrices.
End Mat.

Section ControlMatrix.
Local Open Scope R_scope.

(** The linear-algebra routines of the array backend are parameters:
    [inv] is [linalg.inv] (it raises on a singular matrix), [svd] is
    [linalg.svd(_, full_matrices=False)], returning [(U, s, Vt)]. *)
Variable inv : Mat.matrix → option Mat.matrix.
Variable svd : Mat.matrix → Mat.matrix * list R * Mat.matrix.

Definition WeightedLeastSquares (A weight_map : Mat.matrix) (nprobes : nat)
  (rcond : R) : option Mat.matrix :=
  let control_mask :=
    NpR.map2d (λ x, if Rlt_dec 0 x then true else false) weight_map in
  let w0 := Np.select weight_map control_mask in
  let w := Nat.iter (nprobes - 1) (λ w, w ++ w0) w0 in
  let W := Mat.diag_of_vec w in
  WA ← Mat.dot W A;
  cov ← Mat.dot (Mat.transpose A) WA;
  m ← Mat.max (Mat.diag_of_mat cov);
  C ← inv (Mat.add cov (Mat.scale (rcond * m) (Mat.eye (Mat.ncols A))));
  AtW ← Mat.dot (Mat.transpose A) W;
  Mat.dot C AtW.

Definition TikhonovInverse (A : Mat.matrix) (rcond : R)
  : option Mat.matrix :=
  let '(U, s, Vt) := svd A in
  smax ← Mat.max s;
  let s_inv := map (λ x, x / (x ^ 2 + (rcond * smax) ^ 2)) s in
  Mat.dot (Mat.mul_rows (Mat.transpose Vt) s_inv) (Mat.transpose U).

Definition beta_reg (S : Mat.matrix) (beta : R) : option Mat.matrix :=
  sts ← Mat.dot (Mat.transpose S) S;
  let rho := Mat.diag_of_mat sts in
  alpha2 ← Mat.max rho;
  C ← inv (Mat.add sts (Mat.scale (alpha2 * Rpower 10 beta)
                                  (Mat.eye (length sts))));
  Mat.dot C (Mat.transpose S).
End ControlMatrix.

(** The damped least-squares inverse as the specification writes it:
    [V . diag(s/(s^2 + (rcond max(s))^2)) . U^T] with [V = Vt^T]. *)
Definition damped_inverse (U : Mat.matrix) (s : list R) (Vt : Mat.matrix)
  (rcond smax : R) : option Mat.matrix :=
  let d := map (λ x, (x / (x ^ 2 + (rcond * smax) ^ 2))%R) s in
  VD ← Mat.dot (Mat.transpose Vt) (Mat.diag_of_vec d);
  Mat.dot VD (Mat.transpose U).

(** [weight_map[weight_map > 0]]: the positive weights, row-major. *)
Definition positive_entries (weight_map : Mat.matrix) : list R :=
  Np.select weight_map
    (NpR.map2d (λ x, if Rlt_dec 0 x then true else false) weight_map).

(** The backend routines on 1-by-1 matrices, for concrete examples:
    [inv [[x]] = [[1/x]]] (an error for [x = 0]), and
    [svd [[x]] = ([[sign x]], [|x|], [[1]])]. *)
Definition inv1 (a : Mat.matrix) : option Mat.matrix :=
  match a with
  | [[x]] => if Req_dec_T x 0 then None else Some [[(/ x)%R]]
  | _ => None
  end.

Definition svd1 (a : Mat.matrix) : Mat.matrix * list R * Mat.matrix :=
  match a with
  | [[x]] => ([[if Rle_dec 0 x then 1%R else (-1)%R]], [Rabs x], [[1%R]])
  | _ => ([], [], [])
  end.

(** The thin factors of a non-zero column [a]: [(a/|a|, [|a|], [[1]])],
    and the 2-by-1 Jacobian of the examples. *)
Definition svd_col (a : Mat.matrix) : Mat.matrix * list R * Mat.matrix :=
  let norm := sqrt (Mat.Rsum (map (λ row, (nth 0 row 0 ^ 2)%R) a)) in
  (map (λ row, [(nth 0 row 0 / norm)%R]) a, [norm], [[1%R]]).

Definition jac21 : Mat.matrix := [[3%R]; [4%R]].

(** ** 4.5  get_radial_dist / get_radial_contrast *)

Module NpBins.
Section Binning.
Local Open Scope R_scope.

(** [np.digitize(x, bins)] for non-decreasing [bins]: the index [i] with
    [bins[i-1] <= x < bins[i]], that is, the number of edges that are
    [<= x]. *)
Fixpoint digitize (x : R) (bins : list R) : nat :=
  match bins with
  | [] => 0%nat
  | b :: bins' => ((if Rle_dec b x then 1 else 0) + digitize x bins')%nat
  end.

(** [np.unique]: the distinct values, ascending. *)
Fixpoint insert_unique (x : nat) (l : list nat) : list nat :=
  match l with
  | [] => [x]
  | y :: l' =>
      if (x <? y)%nat then x :: l
      else if (x =? y)%nat then l
      else y :: insert_unique x l'
  end.

Definition unique (l : list nat) : list nat := foldr insert_unique [] l.

(** [np.mean]: [None] stands for the [nan] of an empty selection. *)
Definition mean (l : list R) : option R :=
  match l with
  | [] => None
  | _ => Some (Mat.Rsum l / INR (length l))
  end.
End Binning.
End NpBins.

Section RadialContrast.
Local Open Scope R_scope.

Definition get_radial_dist (shape : nat * nat) (scaleyx : R * R)
  (cenyx : option (R * R)) : list (list R) :=
  let indices := NpR.indices shape in
  let cenyx :=
    match cenyx with
    | None => ((INR shape.1 - 1) / 2, (INR shape.2 - 1) / 2)
    | Some c => c
    end in
  NpR.zip2d (λ y x, sqrt ((scaleyx.1 * (y - cenyx.1)) ^ 2
                          + (scaleyx.2 * (x - cenyx.2)) ^ 2))
            indices.1 indices.2.

(** The bin index of every pixel: [np.digitize(radial, bins)]. *)
Definition digitize2d (radial : list (list R)) (bins : list R)
  : list (list nat) :=
  NpR.map2d (λ r, NpBins.digitize r bins) radial.

(** [(digrad == i) & mask] broadcasts [mask] against the [(h, w)] index
    array: a dimension of size 1 is repeated and any other mismatch is a
    ValueError.  [im[...]] then wants a boolean index of the shape of
    [im] (IndexError otherwise).  So the selection exists exactly when
    each dimension of [mask] is that of the image or 1. *)
Definition broadcast_mask (h w : nat) (mask : list (list bool))
  : option (list (list bool)) :=
  let mh := length mask in
  let mw := match mask with [] => 0%nat | row :: _ => length row end in
  if ((mh =? h)%nat || (mh =? 1)%nat) && ((mw =? w)%nat || (mw =? 1)%nat)
  then
    Some (map (λ i,
            map (λ j,
              default false
                (Arr.at2 mask (if (mh =? 1)%nat then 0%nat else i)
                              (if (mw =? 1)%nat then 0%nat else j)))
              (seq 0 w))
            (seq 0 h))
  else None.

(** [im[(digrad == i) & mask]] *)
Definition bin_values (im : list (list R)) (digrad : list (list nat))
  (mask : list (list bool)) (i : nat) : option (list R) :=
  m ← broadcast_mask (length im) (Mat.ncols im) mask;
  Some (Np.select im
          (NpR.zip2d (λ d (b : bool), (d =? i)%nat && b) digrad m)).

(** [radial.max()] raises on an image without pixels, and the list
    comprehension raises on a mask that cannot be broadcast to the
    image.  Radii, edges and means are computed on [R]: in float64 a
    radius within rounding of an interior edge can fall on either side
    of it. *)
Definition get_radial_contrast (im : list (list R))
  (mask : list (list bool)) (nbins : nat) (cenyx : option (R * R))
  : option (list R * list (option R)) :=
  let radial := get_radial_dist (length im, Mat.ncols im) (1, 1) cenyx in
  rmax ← Mat.max (Arr.flatten radial);
  let bins := NpR.linspace 0 rmax nbins in
  let digrad := digitize2d radial bins in
  profile ← mapM (λ i, NpBins.mean <$> bin_values im digrad mask i)
                 (NpBins.unique (Arr.flatten digrad));
  Some (bins, profile).
End RadialContrast.






(** ** Example data *)

Definition arr3 : list (list Z) := [[1; 2; 3]; [4; 5; 6]; [7; 8; 9]]%Z.
Definition mask22 : list (list bool) := [[true; true]; [false; false]].
Definition mask_3_of_4 : list (list bool) := [[true; true]; [true; false]].
Definition im13 : list (list R) := [[10; 20; 60]]%R.
Definition mask13 : list (list bool) := [[true; true; true]].
Definition mask_4_of_4 : list (list bool) := [[true; true]; [true; true]].
Definition mask_2_by_1 : list (list bool) := [[true]; [false]].
Definition mask_1_by_3 : list (list bool) := [[true; true; true]].

(** ** 4.3  create_circ_mask *)

Section CircMask.
Local Open Scope R_scope.

(** [a <= b] and [a < b] as the booleans of a comparison array. *)
Definition Rleb (a b : R) : bool := if Rle_dec a b then true else false.
Definition Rltb (a b : R) : bool := if Rlt_dec a b then true else false.

(** [xp.ogrid[:h, :w]] gives a column of row indices and a row of column
    indices; the arithmetic on them broadcasts to the [(h, w)] grids of
    [meshgrid]. *)
Definition create_circ_mask (h w : nat) (center : option (R * R))
  (radius : option R) : list (list bool) :=
  let center :=
    match center with
    | None => (INR (w / 2), INR (h / 2))
    | Some c => c
    end in
  let radius :=
    match radius with
    | None => Rmin center.1
                (Rmin center.2 (Rmin (INR w - center.1) (INR h - center.2)))
    | Some r => r
    end in
  let '(X, Y) := NpR.meshgrid (map INR (seq 0 w)) (map INR (seq 0 h)) in
  let dist_from_center :=
    NpR.zip2d (λ x y, sqrt ((x - center.1 + 1 / 2) ^ 2
                            + (y - center.2 + 1 / 2) ^ 2)) X Y in
  NpR.map2d (λ d, Rleb d radius) dist_from_center.
End CircMask.

(** ** 4.5  masked_rms *)

Section MaskedRms.
Local Open Scope R_scope.

(** [image[mask]] with [mask = None] is the whole image under a new
    axis; the mean runs over every entry either way.  [None] as a result
    is the [nan] of an empty selection. *)
Definition masked_rms (image : list (list R))
  (mask : option (list (list bool))) : option R :=
  let selected :=
    match mask with
    | None => Arr.flatten image
    | Some m => Np.select image m
    end in
  sqrt <$> NpBins.mean (map (λ v, v ^ 2) selected).
End MaskedRms.

(** ** 4.4  create_probe_poke_modes *)

Section PokeModes.
Context {A : Type} (zero one : A).

(** An integer index into an axis of length [n]: negative indices count
    from the end; outside [-n, n) is an IndexError. *)
Definition norm_index (n : nat) (i : Z) : option nat :=
  if ((0 <=? i) && (i <? Z.of_nat n))%Z then Some (Z.to_nat i)
  else if ((- Z.of_nat n <=? i) && (i <? 0))%Z
       then Some (Z.to_nat (i + Z.of_nat n))
       else None.

(** [probe_modes[i, poke_indices[i][1], poke_indices[i][0]] = 1] for
    every [i], on [np.zeros((Nprobes, Nact, Nact))]; the plot is an
    output effect and is left out. *)
Definition create_probe_poke_modes (Nact : nat) (poke_indices : list (Z * Z))
  : option (list (list (list A))) :=
  mapM (λ xy : Z * Z,
          row ← norm_index Nact xy.2;
          col ← norm_index Nact xy.1;
          Some (alter (λ r, <[col := one]> r) row
                      (Arr.zeros zero Nact Nact)))
       poke_indices.
End PokeModes.

(** The root mean square of a non-empty list. *)
Definition rms_of (l : list R) : R :=
  sqrt (Mat.Rsum (map (λ v, (v ^ 2)%R) l) / INR (length l)).

(** The array [arr] of side [n] extended by [zero] to every integer
    position. *)
Definition zero_extended {A} (zero : A) (arr : list (list A)) (n : nat)
  (p q : Z) : option A :=
  if ((0 <=? p) && (p <? Z.of_nat n) && ((0 <=? q) && (q <? Z.of_nat n)))%Z
  then Arr.at2 arr (Z.to_nat p) (Z.to_nat q)
  else Some zero.

(** The inner product of two integer vectors. *)
Definition dotZ (u v : list Z) : Z := foldr Z.add 0%Z (zip_with Z.mul u v).

(** The 0/1 indicator of a mask, flattened. *)
Definition indicator (mask : list (list bool)) : list Z :=
  map (λ b : bool, if b then 1%Z else 0%Z) (Arr.flatten mask).

(** The vector that is [vals], in order, at the True positions of
    [mask] and 0 at the others. *)
Fixpoint expand (mask : list bool) (vals : list Z) : list Z :=
  match mask with
  | [] => []
  | false :: mask' => 0%Z :: expand mask' vals
  | true :: mask' =>
      match vals with
      | v :: vals' => v :: expand mask' vals'
      | [] => 0%Z :: expand mask' []
      end
  end.

(** ** create_fourier_probes *)

Section FourierProbes.
Local Open Scope R_scope.

(** [a.sum(axis=0)] of a 2-D array with [c] columns: the sum of its rows,
    which is [c] zeros when the array has no row (as [fourier_modes[:0]]
    has). *)
Definition sum_axis0 (c : nat) (rows : Mat.matrix) : list R :=
  foldr (zip_with Rplus) (replicate c 0) rows.

(** [probe /= probe.max()].  [max] raises on an array without elements.
    A float division by a peak of zero raises nothing: it leaves [nan] or
    an infinity in the entry, for which [None] stands here. *)
Definition div_by_max (probe : Mat.matrix)
  : option (list (list (option R))) :=
  m ← Mat.max (Arr.flatten probe);
  Some (NpR.map2d (λ v, if Req_dec_T m 0 then None else Some (v / m))
          probe).

(** [create_fourier_probes(fourier_modes, Nact)] for a 2-D float array
    [fourier_modes] (an array with no row is taken to have no column);
    [plot] only draws.  [reshape(Nact, Nact)] raises unless the summed
    row has [Nact * Nact] elements. *)
Definition create_fourier_probes (fourier_modes : Mat.matrix) (Nact : nat)
  : option (list (list (list (option R)))) :=
  let nfs := (length fourier_modes / 2)%nat in
  let c := Mat.ncols fourier_modes in
  if negb (c =? Nact * Nact)%nat then None else
  let probe1 :=
    Np.reshape2 Nact Nact (sum_axis0 c (Arr.slice 0 nfs fourier_modes)) in
  let probe2 :=
    Np.reshape2 Nact Nact (sum_axis0 c (drop nfs fourier_modes)) in
  probe1 ← div_by_max probe1;
  probe2 ← div_by_max probe2;
  Some [probe1; probe2].

(** A probe is peak-normalised when some entry is exactly 1 and either
    every entry is at most 1 or every entry is at least 1; it is
    non-finite when no entry is a number. *)
Definition peak_normalised (p : list (list (option R))) : Prop :=
  (∃ i j, Arr.at2 p i j = Some (Some 1)) ∧
  (Forall (Forall (λ e, ∃ v, e = Some v ∧ v <= 1)) p ∨
   Forall (Forall (λ e, ∃ v, e = Some v ∧ 1 <= v)) p).

Definition non_finite (p : list (list (option R))) : Prop :=
  Forall (Forall (λ e, e = None)) p.

Definition modes24 : Mat.matrix := [[1; 2; 2; 1]; [0; -1; 0; -3]].
End FourierProbes.

(** ** Focal-plane masks *)

Section FocalPlaneMasks.
Local Open Scope R_scope.

(** [scipy.ndimage.rotate(mask, angle, reshape=False, order=1)] and
    [scipy.ndimage.shift(mask, (dy, dx), order=1)] resample the array by
    interpolation.  Nothing is assumed of them but that they take an
    array and give one of the same type, or raise. *)
Variable rotate : list (list bool) → R → option (list (list bool)).
Variable shift : list (list bool) → R * R → option (list (list bool)).

(** [if key in params: mask = f(mask, params[key])] *)
Definition if_in (params : gmap string R) (key : string)
  (f : list (list bool) → R → option (list (list bool)))
  (mask : list (list bool)) : option (list (list bool)) :=
  match params !! key with
  | Some v => f mask v
  | None => Some mask
  end.

(** [create_annular_focal_plane_mask(x, y, params)] for coordinate grids
    [x] and [y] of one shape and a dict [params] of floats; [params[k]]
    raises KeyError when [k] is absent.  [plot] only draws. *)
Definition create_annular_focal_plane_mask (x y : Mat.matrix)
  (params : gmap string R) : option (list (list bool)) :=
  let r := NpR.zip2d (λ a b, sqrt (a ^ 2 + b ^ 2)) x y in
  outer_radius ← params !! "outer_radius";
  inner_radius ← params !! "inner_radius";
  let mask :=
    NpR.map2d (λ v, Rltb v outer_radius && Rltb inner_radius v) r in
  let mask :=
    match params !! "edge" with
    | Some edge => NpR.zip2d (λ m a, m && Rltb edge a) mask x
    | None => mask
    end in
  mask ← if_in params "rotation" rotate mask;
  mask ← if_in params "x_shift" (λ m v, shift m (0, v)) mask;
  if_in params "y_shift" (λ m v, shift m (v, 0)) mask.

(** [create_box_focal_plane_mask(x, y, params)]; the closing [mask > 0]
    compares the booleans as the integers 0 and 1. *)
Definition create_box_focal_plane_mask (x y : Mat.matrix)
  (params : gmap string R) : option (list (list bool)) :=
  xi ← params !! "xi";
  yi ← params !! "yi";
  xo ← params !! "xo";
  yo ← params !! "yo";
  let mask :=
    NpR.zip2d (λ a b, Rltb xi a && Rltb a xo && Rltb yi b && Rltb b yo)
      x y in
  mask ← if_in params "x_shift" (λ m v, shift m (0, v)) mask;
  mask ← if_in params "y_shift" (λ m v, shift m (v, 0)) mask;
  Some (NpR.map2d (λ b : bool, (0 <? Z.b2z b)%Z) mask).
End FocalPlaneMasks.

Section PlainMasks.
Local Open Scope R_scope.

(** The annulus before any rotation or shift. *)
Definition annulus (x y : Mat.matrix) (outer inner : R)
  (edge : option R) : list (list bool) :=
  let base :=
    NpR.map2d (λ v, Rltb v outer && Rltb inner v)
      (NpR.zip2d (λ a b, sqrt (a ^ 2 + b ^ 2)) x y) in
  match edge with
  | Some e => NpR.zip2d (λ m a, m && Rltb e a) base x
  | None => base
  end.

(** The box before any shift. *)
Definition box (x y : Mat.matrix) (xi yi xo yo : R) : list (list bool) :=
  NpR.zip2d (λ a b, Rltb xi a && Rltb a xo && Rltb yi b && Rltb b yo) x y.

(** Example grids and parameter dicts. *)
Definition grid_x12 : Mat.matrix := [[1; 2]].
Definition grid_y12 : Mat.matrix := [[0; 0]].
Definition annulus_params : gmap string R :=
  <["outer_radius" := 3]> (<["inner_radius" := 0]> ∅).
Definition box_params : gmap string R :=
  <["xi" := 0]> (<["yi" := -1]> (<["xo" := 2]> (<["yo" := 1]> ∅))).

End PlainMasks.

(** A mask with no True entry. *)
Definition all_false (mask : list (list bool)) : Prop :=
  Forall (Forall (λ b, b = false)) mask.

(** * Part II: properties *)

(** Linear arithmetic with the floor-division midpoints [n / 2]. *)
Ltac halves n m :=
  pose proof (Nat.div_mod_eq n 2); pose proof (Nat.div_mod_eq m 2);
  pose proof (Nat.mod_upper_bound n 2 ltac:(lia));
  pose proof (Nat.mod_upper_bound m 2 ltac:(lia)).

(** [INR] of a literal natural number as the literal real. *)
Ltac INR_lit n :=
  let z := eval cbv in (Z.of_nat n) in
  replace (INR n) with (IZR z) in *
    by (rewrite (INR_IZR_INZ n); reflexivity).

(** ** Array lemmas *)

Section SliceLemmas.
Context {A : Type}.
Implicit Types (l row : list A).

Lemma length_slice x1 k l :
  x1 + k ≤ length l → length (Arr.slice x1 (x1 + k) l) = k.
Proof.
  intros H. unfold Arr.slice. rewrite length_take, length_drop. lia.
Qed.

Lemma lookup_slice x1 k l i :
  i < k → Arr.slice x1 (x1 + k) l !! i = l !! (x1 + i).
Proof.
  intros H. unfold Arr.slice.
  replace (x1 + k - x1) with k by lia.
  rewrite lookup_take_lt by done. apply lookup_drop.
Qed.

Lemma slice_of_assigned x1 row irow rest :
  x1 ≤ length row →
  Arr.slice x1 (x1 + length irow) (take x1 row ++ irow ++ rest) = irow.
Proof.
  intros H. unfold Arr.slice.
  replace (x1 + length irow - x1) with (length irow) by lia.
  rewrite drop_app_length' by (rewrite length_take; lia).
  by rewrite take_app_length.
Qed.

End SliceLemmas.

Section ArrayLemmas.
Context {A : Type}.
Implicit Types (a out inp : list (list A)) (l row : list A).

Lemma is_matrix_zeros (z : A) r c : Arr.is_matrix r c (Arr.zeros z r c).
Proof.
  split; [apply length_replicate|].
  apply Forall_replicate, length_replicate.
Qed.

Lemma at2_zeros (z : A) r c i j :
  i < r → j < c → Arr.at2 (Arr.zeros z r c) i j = Some z.
Proof.
  intros Hi Hj. unfold Arr.at2, Arr.zeros.
  rewrite lookup_replicate_2 by done. simpl.
  by apply lookup_replicate_2.
Qed.

Lemma is_matrix_slice2 n a x1 k :
  Arr.square n a → x1 + k ≤ n → Arr.square k (Arr.slice2 x1 (x1 + k) a).
Proof.
  intros [Hlen Hrows] Hk. split.
  - unfold Arr.slice2. rewrite length_map. apply length_slice. lia.
  - unfold Arr.slice2. apply Forall_map.
    assert (Hsub : Forall (λ row, length row = n) (Arr.slice x1 (x1 + k) a)).
    { unfold Arr.slice. by apply Forall_take, Forall_drop. }
    eapply Forall_impl; [exact Hsub|].
    intros row Hrow. simpl in *. apply length_slice. lia.
Qed.

Lemma at2_slice2 a x1 k i j :
  i < k → j < k →
  Arr.at2 (Arr.slice2 x1 (x1 + k) a) i j = Arr.at2 a (x1 + i) (x1 + j).
Proof.
  intros Hi Hj. unfold Arr.at2, Arr.slice2.
  rewrite list_lookup_fmap, lookup_slice by done.
  destruct (a !! (x1 + i)) as [row|]; simpl; [|done].
  by apply lookup_slice.
Qed.

Lemma length_assign_block n k x1 out inp :
  length out = n → length inp = k → x1 + k ≤ n →
  length (Arr.assign_block x1 (x1 + k) out inp) = n.
Proof.
  intros Hout Hinp Hk. unfold Arr.assign_block.
  rewrite !length_app, length_zip_with, length_take, length_drop.
  rewrite length_slice by lia. lia.
Qed.

Lemma lookup_assigned_row x1 k row irow j :
  x1 + k ≤ length row → length irow = k →
  (take x1 row ++ irow ++ drop (x1 + k) row) !! j =
    if (x1 <=? j) && (j <? x1 + k) then irow !! (j - x1) else row !! j.
Proof.
  intros Hrow Hirow.
  destruct (Nat.leb_spec x1 j) as [H1|H1]; simpl.
  - rewrite lookup_app_r by (rewrite length_take; lia).
    rewrite length_take. replace (j - x1 `min` length row) with (j - x1) by lia.
    destruct (Nat.ltb_spec j (x1 + k)) as [H2|H2].
    + by rewrite lookup_app_l by lia.
    + rewrite lookup_app_r by lia. rewrite lookup_drop. f_equal. lia.
  - rewrite lookup_app_l by (rewrite length_take; lia).
    by rewrite lookup_take_lt.
Qed.

Lemma at2_assign_block n k x1 out inp i j :
  Arr.square n out → Arr.square k inp → x1 + k ≤ n →
  Arr.at2 (Arr.assign_block x1 (x1 + k) out inp) i j =
    if (x1 <=? i) && (i <? x1 + k) && ((x1 <=? j) && (j <? x1 + k))
    then Arr.at2 inp (i - x1) (j - x1) else Arr.at2 out i j.
Proof.
  intros [Hout Horows] [Hinp Hirows] Hk. unfold Arr.at2, Arr.assign_block.
  destruct (Nat.leb_spec x1 i) as [H1|H1]; simpl.
  - rewrite lookup_app_r by (rewrite length_take; lia).
    rewrite length_take. replace (i - x1 `min` length out) with (i - x1) by lia.
    destruct (Nat.ltb_spec i (x1 + k)) as [H2|H2]; simpl.
    + rewrite lookup_app_l
        by (rewrite length_zip_with, length_slice; lia).
      rewrite lookup_zip_with, lookup_slice by lia.
      replace (x1 + (i - x1)) with i by lia.
      destruct (lookup_lt_is_Some_2 out i) as [orow Ho]; [lia|].
      destruct (lookup_lt_is_Some_2 inp (i - x1)) as [irow Hi]; [lia|].
      rewrite Ho, Hi. simpl.
      assert (length orow = n) as Hlo
        by (eapply (proj1 (Forall_lookup _ _) Horows); eauto).
      assert (length irow = k) as Hli
        by (eapply (proj1 (Forall_lookup _ _) Hirows); eauto).
      rewrite (lookup_assigned_row x1 k) by lia. done.
    + rewrite lookup_app_r
        by (rewrite length_zip_with, length_slice; lia).
      rewrite length_zip_with, length_slice by lia.
      rewrite lookup_drop. do 2 f_equal. lia.
  - rewrite lookup_app_l by (rewrite length_take; lia).
    by rewrite lookup_take_lt.
Qed.

Lemma map_slice_assigned_rows x1 k (blk inp : list (list A)) :
  Forall (λ row, x1 ≤ length row) blk →
  Forall (λ row, length row = k) inp →
  length inp ≤ length blk →
  map (Arr.slice x1 (x1 + k))
      (zip_with (λ orow irow, take x1 orow ++ irow ++ drop (x1 + k) orow)
                blk inp) = inp.
Proof.
  intros Hb Hi. revert blk Hb.
  induction Hi as [|irow inp Hrow Hi IH]; intros blk Hb Hlen.
  - by destruct blk.
  - destruct blk as [|orow blk]; [simpl in *; lia|].
    inversion Hb; subst. simpl. f_equal.
    + by apply slice_of_assigned.
    + apply IH; [done|]. simpl in Hlen. lia.
Qed.

Lemma slice2_assign_block n k x1 out inp :
  Arr.square n out → Arr.square k inp → x1 + k ≤ n →
  Arr.slice2 x1 (x1 + k) (Arr.assign_block x1 (x1 + k) out inp) = inp.
Proof.
  intros [Hout Horows] [Hinp Hirows] Hk.
  unfold Arr.slice2, Arr.assign_block.
  assert (Hblock : Forall (λ row, x1 ≤ length row)
                     (Arr.slice x1 (x1 + k) out)).
  { unfold Arr.slice. apply Forall_take, Forall_drop.
    eapply Forall_impl; [exact Horows|]. simpl. lia. }
  assert (Hblen : length (Arr.slice x1 (x1 + k) out) = k)
    by (apply length_slice; lia).
  set (blk := Arr.slice x1 (x1 + k) out) in *.
  set (f := λ orow irow : list A,
              take x1 orow ++ irow ++ drop (x1 + k) orow).
  assert (Hz : length (zip_with f blk inp) = k)
    by (rewrite length_zip_with; lia).
  pose proof (slice_of_assigned x1 out (zip_with f blk inp)
                (drop (x1 + k) out)) as Hs.
  rewrite Hz in Hs. rewrite Hs by lia.
  apply map_slice_assigned_rows; [done|done|lia].
Qed.

Lemma square_assign_block n k x1 out inp :
  Arr.square n out → Arr.square k inp → x1 + k ≤ n →
  Arr.square n (Arr.assign_block x1 (x1 + k) out inp).
Proof.
  intros [Hout Horows] [Hinp Hirows] Hk. split.
  - by apply (length_assign_block n k).
  - unfold Arr.assign_block. rewrite !Forall_app. split_and!.
    + by apply Forall_take.
    + apply Forall_zip_with_fst with (P := λ row, length row = n).
      * by apply Forall_take, Forall_drop.
      * eapply Forall_impl; [exact Hirows|]. simpl.
        intros irow Hi orow Ho.
        rewrite !length_app, length_take, length_drop. lia.
    + by apply Forall_drop.
Qed.
End ArrayLemmas.

(** ** pad_or_crop *)

Section PadOrCropProps.
Context {A : Type} (zero : A).
Implicit Types (arr : list (list A)).

Lemma pad_or_crop_same arr n :
  length arr = n → pad_or_crop zero arr n = arr.
Proof. intros H. unfold pad_or_crop. by rewrite H, Nat.eqb_refl. Qed.

Lemma pad_or_crop_crop arr n m :
  length arr = n → m < n →
  pad_or_crop zero arr m = Arr.slice2 (n / 2 - m / 2) (n / 2 - m / 2 + m) arr.
Proof.
  intros H Hm. unfold pad_or_crop. rewrite H.
  destruct (Nat.eqb_spec n m); [lia|].
  by destruct (Nat.ltb_spec m n); [|lia].
Qed.

Lemma pad_or_crop_pad arr n m :
  length arr = n → n < m →
  pad_or_crop zero arr m =
    Arr.assign_block (m / 2 - n / 2) (m / 2 - n / 2 + n)
                     (Arr.zeros zero m m) arr.
Proof.
  intros H Hm. unfold pad_or_crop. rewrite H.
  destruct (Nat.eqb_spec n m); [lia|].
  by destruct (Nat.ltb_spec m n); [lia|].
Qed.

(** The result always has the requested size. *)
Lemma pad_or_crop_square arr n m :
  Arr.square n arr → Arr.square m (pad_or_crop zero arr m).
Proof.
  intros Hsq. pose proof Hsq as [Hlen _].
  destruct (lt_eq_lt_dec n m) as [[Hlt|Heq]|Hgt].
  - rewrite (pad_or_crop_pad arr n m) by done.
    apply (square_assign_block m n); [apply is_matrix_zeros|done|].
    halves n m. lia.
  - subst m. by rewrite pad_or_crop_same.
  - rewrite (pad_or_crop_crop arr n m) by done.
    apply (is_matrix_slice2 n); [done|].
    halves n m. lia.
Qed.

(** C3. Resizing a square [n]-array to [m] and back to [n]: when
    [m >= n] (pad, then crop with the same offset [m//2 - n//2]) the
    array comes back unchanged; when [m < n] (crop, then pad) the result
    is again [n]-by-[n], agrees with the array on the central
    [m]-by-[m] window at offset [n//2 - m//2], and is zero outside. *)
Theorem C3_pad_or_crop_round_trip arr n m :
  Arr.square n arr →
  (n ≤ m → pad_or_crop zero (pad_or_crop zero arr m) n = arr) ∧
  (m < n →
     Arr.square n (pad_or_crop zero (pad_or_crop zero arr m) n) ∧
     ∀ i j, i < n → j < n →
       Arr.at2 (pad_or_crop zero (pad_or_crop zero arr m) n) i j =
         if in_window n m i && in_window n m j
         then Arr.at2 arr i j else Some zero).
Proof.
  intros Hsq. pose proof Hsq as [Hlen _]. split.
  - intros Hle. destruct (decide (n = m)) as [->|Hne].
    { rewrite (pad_or_crop_same arr m) by done. by apply pad_or_crop_same. }
    assert (Hfit : m / 2 - n / 2 + n ≤ m)
      by (halves n m; lia).
    rewrite (pad_or_crop_pad arr n m) by lia.
    rewrite (pad_or_crop_crop _ m n);
      [|apply (length_assign_block m n);
         [apply length_replicate|done|done]|lia].
    apply (slice2_assign_block m n); [apply is_matrix_zeros|done|done].
  - intros Hlt.
    assert (Hfit : n / 2 - m / 2 + m ≤ n)
      by (halves n m; lia).
    pose proof (is_matrix_slice2 n arr (n / 2 - m / 2) m Hsq Hfit) as Hc.
    rewrite (pad_or_crop_crop arr n m) by done.
    rewrite (pad_or_crop_pad _ m n); [|apply Hc|done].
    split.
    + apply (square_assign_block n m); [apply is_matrix_zeros|done|done].
    + intros i j Hi Hj.
      rewrite (at2_assign_block n m) by (done || apply is_matrix_zeros).
      unfold in_window.
      destruct ((n / 2 - m / 2 <=? i) && (i <? n / 2 - m / 2 + m)) eqn:Ei;
      destruct ((n / 2 - m / 2 <=? j) && (j <? n / 2 - m / 2 + m)) eqn:Ej;
        cbn [andb]; try by apply at2_zeros.
      apply andb_prop in Ei as [Ei1%Nat.leb_le Ei2%Nat.ltb_lt].
      apply andb_prop in Ej as [Ej1%Nat.leb_le Ej2%Nat.ltb_lt].
      rewrite at2_slice2 by lia. f_equal; lia.
Qed.
End PadOrCropProps.

Example pad_or_crop_pad_3_to_4 :
  pad_or_crop 0%Z arr3 4 =
    [[0; 0; 0; 0]; [0; 1; 2; 3]; [0; 4; 5; 6]; [0; 7; 8; 9]]%Z.
Proof. reflexivity. Qed.

Example pad_or_crop_crop_3_to_2 :
  pad_or_crop 0%Z arr3 2 = [[1; 2]; [4; 5]]%Z.
Proof. reflexivity. Qed.

Example pad_or_crop_crop_then_pad :
  pad_or_crop 0%Z (pad_or_crop 0%Z arr3 2) 3 =
    [[1; 2; 0]; [4; 5; 0]; [0; 0; 0]]%Z.
Proof. reflexivity. Qed.

Lemma C3_pad_or_crop_round_trip_witness :
  Arr.square 3 arr3 ∧
  pad_or_crop 0%Z (pad_or_crop 0%Z arr3 4) 3 = arr3 ∧
  Arr.at2 (pad_or_crop 0%Z (pad_or_crop 0%Z arr3 2) 3) 1 1 = Some 5%Z.
Proof.
  assert (Hsq : Arr.square 3 arr3).
  { split; [reflexivity|]. repeat constructor. }
  split; [exact Hsq|]. split.
  - apply (proj1 (C3_pad_or_crop_round_trip 0%Z arr3 3 4 Hsq)). lia.
  - apply (proj2 (proj2 (C3_pad_or_crop_round_trip 0%Z arr3 3 2 Hsq)
                    ltac:(lia)) 1 1); lia.
Defined.

(** ** Index arrays, scatter and reshape *)

Section IndexingLemmas.
Context {A : Type}.
Implicit Types (flat vals : list A) (inds : list nat) (m : list bool).

Lemma elem_of_where_from i m p :
  p ∈ Np.where_from i m ↔ ∃ k, p = i + k ∧ m !! k = Some true.
Proof.
  revert i. induction m as [|b m IH]; intros i; simpl.
  - split; [by intros ?%elem_of_nil|by intros (k & _ & ?)].
  - destruct b.
    + rewrite elem_of_cons, IH. split.
      * intros [->|(k & -> & Hk)]; [exists 0|exists (S k)];
          (split; [lia|done]).
      * intros ([|k] & -> & Hk); [left; lia|right; exists k].
        split; [lia|done].
    + rewrite IH. split.
      * intros (k & -> & Hk). exists (S k). split; [lia|done].
      * intros ([|k] & -> & Hk); [done|]. exists k. split; [lia|done].
Qed.

Lemma where_from_lower i m p : p ∈ Np.where_from i m → i ≤ p.
Proof. rewrite elem_of_where_from. intros (k & -> & _). lia. Qed.

Lemma NoDup_where_from i m : NoDup (Np.where_from i m).
Proof.
  revert i. induction m as [|b m IH]; intros i; simpl; [constructor|].
  destruct b; [|done]. constructor; [|done].
  intros H%where_from_lower. lia.
Qed.

Lemma length_where_from i m :
  length (Np.where_from i m) =
    sum_list (map (λ b : bool, if b then 1 else 0) m).
Proof.
  revert i. induction m as [|b m IH]; intros i; simpl; [done|].
  destruct b; simpl; by rewrite IH.
Qed.

Lemma elem_of_where m p : p ∈ Np.where_ m ↔ m !! p = Some true.
Proof.
  unfold Np.where_. rewrite elem_of_where_from. split.
  - by intros (k & -> & Hk).
  - intros H. by exists p.
Qed.

Lemma where_in_range m p : p ∈ Np.where_ m → p < length m.
Proof. rewrite elem_of_where. apply lookup_lt_Some. Qed.

Lemma length_scatter flat inds vals :
  length (Np.scatter flat inds vals) = length flat.
Proof.
  revert flat vals. induction inds as [|i inds IH]; intros flat vals.
  - done.
  - destruct vals as [|v vals]; [done|]. simpl.
    by rewrite IH, length_insert.
Qed.

(** Positions that are not indexed keep their value. *)
Lemma scatter_lookup_other flat inds vals p :
  p ∉ inds → Np.scatter flat inds vals !! p = flat !! p.
Proof.
  revert flat vals. induction inds as [|i inds IH]; intros flat vals Hp.
  - done.
  - destruct vals as [|v vals]; [done|]. simpl.
    apply not_elem_of_cons in Hp as [Hne Hp].
    rewrite IH by done. by apply list_lookup_insert_ne.
Qed.

(** The [k]-th index holds the [k]-th value when indices are distinct. *)
Lemma scatter_lookup_index flat inds vals k i v :
  NoDup inds → Forall (λ i, i < length flat) inds →
  inds !! k = Some i → vals !! k = Some v →
  Np.scatter flat inds vals !! i = Some v.
Proof.
  revert flat vals k.
  induction inds as [|i0 inds IH]; intros flat vals k Hnd Hin Hi Hv.
  - done.
  - destruct vals as [|v0 vals]; [done|].
    inversion Hnd; subst. inversion Hin; subst. simpl.
    destruct k as [|k]; simpl in *.
    + injection Hi as ->. injection Hv as ->.
      rewrite scatter_lookup_other by done.
      by apply list_lookup_insert_eq.
    + apply (IH _ _ k); [done| |done|done].
      eapply Forall_impl; [done|]. intros j Hj. simpl.
      by rewrite length_insert.
Qed.

Lemma scatter_read_back flat inds vals :
  NoDup inds → Forall (λ i, i < length flat) inds →
  length vals = length inds →
  (λ i, Np.scatter flat inds vals !! i) <$> inds = Some <$> vals.
Proof.
  intros Hnd Hin Hlen. apply list_eq. intros k.
  rewrite !list_lookup_fmap.
  destruct (inds !! k) as [i|] eqn:Hi; simpl.
  - destruct (lookup_lt_is_Some_2 vals k) as [v Hv].
    { rewrite Hlen. by eapply lookup_lt_Some. }
    rewrite Hv. simpl. f_equal. by eapply scatter_lookup_index.
  - apply lookup_ge_None in Hi.
    rewrite (proj2 (lookup_ge_None vals k)) by lia. done.
Qed.

Lemma put_None flat inds vals :
  Forall (λ i, i < length flat) inds →
  Np.put flat inds vals = None ↔
    length vals ≠ length inds ∧ length vals ≠ 1.
Proof.
  intros Hin. unfold Np.put.
  assert (existsb (λ i, length flat <=? i) inds = false) as ->.
  { apply not_true_is_false. intros (i & Hi & Hle%Nat.leb_le)%existsb_exists.
    apply list_elem_of_In in Hi.
    pose proof (proj1 (Forall_forall _ _) Hin i Hi). simpl in *. lia. }
  destruct (Nat.eqb_spec (length vals) (length inds)) as [He|He].
  - split; [done|]. intros [? _]. done.
  - destruct vals as [|v [|v' vals]]; simpl in *.
    + split; [intros _; split; lia|done].
    + split; [done|]. intros [_ ?]. done.
    + split; [intros _; split; lia|done].
Qed.

Lemma put_same_length flat inds vals :
  Forall (λ i, i < length flat) inds → length vals = length inds →
  Np.put flat inds vals = Some (Np.scatter flat inds vals).
Proof.
  intros Hin Hlen. unfold Np.put.
  assert (existsb (λ i, length flat <=? i) inds = false) as ->.
  { apply not_true_is_false. intros (i & Hi & Hle%Nat.leb_le)%existsb_exists.
    apply list_elem_of_In in Hi.
    pose proof (proj1 (Forall_forall _ _) Hin i Hi). simpl in *. lia. }
  by rewrite Hlen, Nat.eqb_refl.
Qed.

Lemma put_broadcast flat inds v :
  Forall (λ i, i < length flat) inds →
  Np.put flat inds [v] =
    Some (Np.scatter flat inds (replicate (length inds) v)).
Proof.
  intros Hin. unfold Np.put.
  assert (existsb (λ i, length flat <=? i) inds = false) as ->.
  { apply not_true_is_false. intros (i & Hi & Hle%Nat.leb_le)%existsb_exists.
    apply list_elem_of_In in Hi.
    pose proof (proj1 (Forall_forall _ _) Hin i Hi). simpl in *. lia. }
  destruct (Nat.eqb_spec (length [v]) (length inds)) as [He|He]; [|done].
  destruct inds as [|i [|i' inds]]; simpl in *; done.
Qed.

Lemma flatten_reshape2 r c flat :
  length flat = r * c → Arr.flatten (Np.reshape2 r c flat) = flat.
Proof.
  revert flat. induction r as [|r IH]; intros flat Hlen; simpl in *.
  - by destruct flat.
  - unfold Arr.flatten in *. simpl.
    rewrite IH by (rewrite length_drop; lia). apply take_drop.
Qed.

Lemma is_matrix_reshape2 r c flat :
  length flat = r * c → Arr.is_matrix r c (Np.reshape2 r c flat).
Proof.
  revert flat. induction r as [|r IH]; intros flat Hlen; simpl in *.
  - split; [done|constructor].
  - destruct (IH (drop c flat)) as [Hl Hr]; [rewrite length_drop; lia|].
    split; [simpl; by rewrite Hl|].
    constructor; [|done]. rewrite length_take. lia.
Qed.

Lemma length_flatten r c (a : list (list A)) :
  Arr.is_matrix r c a → length (Arr.flatten a) = r * c.
Proof.
  intros [Hl Hr]. subst r. unfold Arr.flatten.
  induction Hr as [|row a Hrow Hr IH]; simpl; [done|].
  rewrite length_app, IH. lia.
Qed.

Lemma flatten_zeros (z : A) r c :
  Arr.flatten (Arr.zeros z r c) = replicate (r * c) z.
Proof.
  unfold Arr.flatten, Arr.zeros. induction r as [|r IH]; simpl; [done|].
  by rewrite IH, replicate_add.
Qed.
End IndexingLemmas.

(** ** map_acts_to_dm *)

Section MapActsProps.
Context {A : Type} (zero : A).
Implicit Types (actuators : list A) (dm_mask : list (list bool)).

Lemma length_where_mask dm_mask :
  length (Np.where_ (Arr.flatten dm_mask)) = Np.mask_sum dm_mask.
Proof. apply length_where_from. Qed.

Lemma where_mask_in_range dm_mask Nact :
  Arr.square Nact dm_mask →
  Forall (λ i, i < length (Arr.flatten (Arr.zeros zero Nact Nact)))
         (Np.where_ (Arr.flatten dm_mask)).
Proof.
  intros Hsq. apply Forall_forall. intros i Hi%where_in_range.
  rewrite (length_flatten Nact Nact) in Hi by done.
  by rewrite flatten_zeros, length_replicate.
Qed.

Lemma map_acts_to_dm_None actuators dm_mask Nact :
  map_acts_to_dm zero actuators dm_mask Nact = None ↔
  Np.put (Arr.flatten (Arr.zeros zero Nact Nact))
         (Np.where_ (Arr.flatten dm_mask)) actuators = None.
Proof. unfold map_acts_to_dm. by destruct (Np.put _ _ _). Qed.

(** What a successful write leaves in the command array. *)
Lemma map_acts_to_dm_scatter actuators vals dm_mask Nact :
  Arr.square Nact dm_mask →
  length vals = Np.mask_sum dm_mask →
  Np.put (Arr.flatten (Arr.zeros zero Nact Nact))
         (Np.where_ (Arr.flatten dm_mask)) actuators
    = Some (Np.scatter (Arr.flatten (Arr.zeros zero Nact Nact))
                       (Np.where_ (Arr.flatten dm_mask)) vals) →
  ∃ command,
    map_acts_to_dm zero actuators dm_mask Nact = Some command ∧
    Arr.square Nact command ∧
    (λ i, Arr.flatten command !! i) <$> Np.where_ (Arr.flatten dm_mask)
      = Some <$> vals ∧
    ∀ p, Arr.flatten dm_mask !! p = Some false →
         Arr.flatten command !! p = Some zero.
Proof.
  intros Hsq Hlen Hput.
  pose proof (where_mask_in_range dm_mask Nact Hsq) as Hin.
  set (inds := Np.where_ (Arr.flatten dm_mask)) in *.
  set (flat0 := Arr.flatten (Arr.zeros zero Nact Nact)) in *.
  assert (Hl0 : length flat0 = Nact * Nact)
    by (unfold flat0; by rewrite flatten_zeros, length_replicate).
  assert (Hls : length (Np.scatter flat0 inds vals) = Nact * Nact)
    by (by rewrite length_scatter).
  exists (Np.reshape2 Nact Nact (Np.scatter flat0 inds vals)).
  split; [|split; [|split]].
  - unfold map_acts_to_dm. fold inds flat0. by rewrite Hput.
  - by apply is_matrix_reshape2.
  - rewrite flatten_reshape2 by done.
    apply scatter_read_back; [apply NoDup_where_from|done|].
    by rewrite Hlen, <- length_where_mask.
  - intros p Hp. rewrite flatten_reshape2 by done.
    rewrite scatter_lookup_other.
    + unfold flat0. rewrite flatten_zeros. apply lookup_replicate_2.
      apply lookup_lt_Some in Hp.
      by rewrite (length_flatten Nact Nact) in Hp.
    + unfold inds. rewrite elem_of_where. congruence.
Qed.

(** C2 (amended). For a mask of shape [(Nact, Nact)], [map_acts_to_dm]
    fails exactly when [len(actuators)] differs from the number of True
    entries of the mask and is not 1: a one-element [actuators] is
    broadcast to every True position.  When the lengths agree, the
    returned [Nact]-by-[Nact] array read at the True positions of the
    mask, in row-major flattened order, is [actuators], and it is 0 at
    every other position. *)
Theorem C2_map_acts_to_dm_amended actuators dm_mask Nact :
  Arr.square Nact dm_mask →
  (map_acts_to_dm zero actuators dm_mask Nact = None ↔
     length actuators ≠ Np.mask_sum dm_mask ∧ length actuators ≠ 1) ∧
  (length actuators = Np.mask_sum dm_mask →
     ∃ command,
       map_acts_to_dm zero actuators dm_mask Nact = Some command ∧
       Arr.square Nact command ∧
       (λ i, Arr.flatten command !! i) <$> Np.where_ (Arr.flatten dm_mask)
         = Some <$> actuators ∧
       ∀ p, Arr.flatten dm_mask !! p = Some false →
            Arr.flatten command !! p = Some zero) ∧
  (∀ v, actuators = [v] →
     ∃ command,
       map_acts_to_dm zero actuators dm_mask Nact = Some command ∧
       Arr.square Nact command ∧
       (λ i, Arr.flatten command !! i) <$> Np.where_ (Arr.flatten dm_mask)
         = Some <$> replicate (Np.mask_sum dm_mask) v ∧
       ∀ p, Arr.flatten dm_mask !! p = Some false →
            Arr.flatten command !! p = Some zero).
Proof.
  intros Hsq.
  pose proof (where_mask_in_range dm_mask Nact Hsq) as Hin.
  split; [|split].
  - rewrite map_acts_to_dm_None, put_None by done.
    by rewrite length_where_mask.
  - intros Hlen. apply map_acts_to_dm_scatter; [done|done|].
    apply put_same_length; [done|]. by rewrite length_where_mask.
  - intros v ->. apply map_acts_to_dm_scatter;
      [done|apply length_replicate|].
    rewrite put_broadcast by done. by rewrite length_where_mask.
Qed.
End MapActsProps.

Example map_acts_to_dm_two :
  map_acts_to_dm 0%Z [5; 6]%Z mask22 2 = Some [[5; 6]; [0; 0]]%Z.
Proof. reflexivity. Qed.

Example map_acts_to_dm_three :
  map_acts_to_dm 0%Z [5; 6; 7]%Z mask22 2 = None.
Proof. reflexivity. Qed.

(** C2 as stated fails: a one-element [actuators] against a mask with two
    True entries does not raise; numpy broadcasts the single value. *)
Lemma C2_map_acts_to_dm_counterexample :
  length [7%Z] ≠ Np.mask_sum mask22 ∧
  map_acts_to_dm 0%Z [7%Z] mask22 2 = Some [[7; 7]; [0; 0]]%Z.
Proof. split; [vm_compute; lia|reflexivity]. Qed.

Lemma C2_map_acts_to_dm_amended_witness :
  Arr.square 2 mask22 ∧
  (map_acts_to_dm 0%Z [5; 6; 7]%Z mask22 2 = None ↔
     length [5; 6; 7]%Z ≠ Np.mask_sum mask22 ∧ length [5; 6; 7]%Z ≠ 1).
Proof.
  assert (Hsq : Arr.square 2 mask22).
  { split; [reflexivity|]. repeat constructor. }
  split; [exact Hsq|].
  exact (proj1 (C2_map_acts_to_dm_amended 0%Z [5; 6; 7]%Z mask22 2 Hsq)).
Defined.

(** ** get_hadamard_modes *)

Lemma Forall_zip_with_both {A B C} (f : A → B → C)
    (P : A → Prop) (Q : B → Prop) (R : C → Prop) l k :
  (∀ x y, P x → Q y → R (f x y)) →
  Forall P l → Forall Q k → Forall R (zip_with f l k).
Proof.
  intros Hf Hl. revert k. induction Hl as [|x l Hx Hl IH]; intros k Hk.
  - constructor.
  - destruct Hk as [|y k Hy Hk]; simpl; constructor; auto.
Qed.

Lemma hadamard_step_shape n H :
  Arr.square n H → Arr.square (n + n) (hadamard_step H).
Proof.
  intros [Hl Hr]. unfold hadamard_step. split.
  - rewrite length_app, !length_zip_with, length_map. lia.
  - apply Forall_app. split.
    + apply (Forall_zip_with_both _ (λ r, length r = n) (λ r, length r = n));
        [|done|done].
      intros x y Hx Hy. rewrite length_app. lia.
    + apply (Forall_zip_with_both _ (λ r, length r = n) (λ r, length r = n));
        [|done|].
      * intros x y Hx Hy. rewrite length_app. lia.
      * apply Forall_map. eapply Forall_impl; [exact Hr|].
        intros r Hrow. simpl. by rewrite length_map.
Qed.

Lemma hadamard_step_pm1 H :
  Forall (Forall pm1) H → Forall (Forall pm1) (hadamard_step H).
Proof.
  intros HH. unfold hadamard_step.
  assert (Hneg : Forall (Forall pm1) (map (map Z.opp) H)).
  { apply Forall_map. eapply Forall_impl; [exact HH|].
    intros r Hrow. simpl. apply Forall_map.
    eapply Forall_impl; [exact Hrow|].
    intros x [->| ->]; [by right|by left]. }
  apply Forall_app. split;
    (eapply Forall_zip_with_both; [|exact HH|done || exact Hneg]);
    intros x y Hx Hy; by apply Forall_app.
Qed.

Lemma hadamard_pow_shape k : Arr.square (2 ^ k) (hadamard_pow k).
Proof.
  induction k as [|k IH].
  - split; [done|]. by repeat constructor.
  - replace (2 ^ S k) with (2 ^ k + 2 ^ k) by (rewrite Nat.pow_succ_r'; lia).
    by apply hadamard_step_shape.
Qed.

Lemma hadamard_pow_pm1 k : Forall (Forall pm1) (hadamard_pow k).
Proof.
  induction k as [|k IH].
  - repeat constructor.
  - by apply hadamard_step_pm1.
Qed.

Lemma hadamard_pow2 k : hadamard (2 ^ k) = Some (hadamard_pow k).
Proof.
  unfold hadamard. rewrite Nat.log2_pow2 by lia. by rewrite Nat.eqb_refl.
Qed.

Lemma pow2_log2_up_ge n : 0 < n → n ≤ 2 ^ Nat.log2_up n.
Proof. intros H. by apply Nat.log2_up_le_pow2. Qed.

Lemma mapM_head_None {A B} (f : A → option B) x l :
  f x = None → mapM f (x :: l) = None.
Proof. intros H. simpl. by rewrite H. Qed.

Lemma put_out_of_range {A} (flat : list A) inds vals p :
  p ∈ inds → length flat ≤ p → Np.put flat inds vals = None.
Proof.
  intros Hp Hle. unfold Np.put.
  assert (existsb (λ i, length flat <=? i) inds = true) as ->; [|done].
  apply existsb_exists. exists p. split; [by apply list_elem_of_In|].
  by apply Nat.leb_le.
Qed.

(** C10 (amended). Each mode is sized [dm_mask.shape[0]**2], not
    [dm_mask.size].  For every mask with [Nacts > 0] True entries:
    if a True entry lies at a row-major position [>= shape[0]**2] the
    write [mode[inds] = hmode] is out of bounds and the routine raises;
    otherwise it returns exactly [2^ceil(log2 Nacts)] mode vectors (at
    least [Nacts], strictly more when [Nacts] is not a power of two),
    each of length [shape[0]**2], which read at the True positions of
    the mask, in row-major order, is the first [Nacts] entries of the
    corresponding row of the Hadamard matrix, all +1 or -1, and is 0 at
    every other position.  For a square mask no True entry is out of
    bounds and [shape[0]**2] is [dm_mask.size]. *)
Theorem C10_get_hadamard_modes_amended (dm_mask : list (list bool)) :
  0 < Np.mask_sum dm_mask →
  ((∃ p, Arr.flatten dm_mask !! p = Some true ∧ length dm_mask ^ 2 ≤ p) →
     get_hadamard_modes dm_mask = None) ∧
  ((∀ p, Arr.flatten dm_mask !! p = Some true → p < length dm_mask ^ 2) →
     ∃ modes,
       get_hadamard_modes dm_mask = Some modes ∧
       length modes = 2 ^ Nat.log2_up (Np.mask_sum dm_mask) ∧
       Np.mask_sum dm_mask ≤ length modes ∧
       ((∀ k, Np.mask_sum dm_mask ≠ 2 ^ k) →
          Np.mask_sum dm_mask < length modes) ∧
       ∀ r mode, modes !! r = Some mode →
         length mode = length dm_mask ^ 2 ∧
         ∃ hrow,
           hadamard_pow (Nat.log2_up (Np.mask_sum dm_mask)) !! r
             = Some hrow ∧
           length (take (Np.mask_sum dm_mask) hrow) = Np.mask_sum dm_mask ∧
           Forall pm1 (take (Np.mask_sum dm_mask) hrow) ∧
           (λ i, mode !! i) <$> Np.where_ (Arr.flatten dm_mask)
             = Some <$> take (Np.mask_sum dm_mask) hrow ∧
           ∀ p, p < length dm_mask ^ 2 →
                Arr.flatten dm_mask !! p ≠ Some true →
                mode !! p = Some 0%Z) ∧
  (∀ n, Arr.square n dm_mask →
     (∀ p, Arr.flatten dm_mask !! p = Some true → p < length dm_mask ^ 2) ∧
     length dm_mask ^ 2 = Np.size dm_mask).
Proof.
  intros Hpos.
  set (Nacts := Np.mask_sum dm_mask) in *.
  set (lg := Nat.log2_up Nacts).
  set (inds := Np.where_ (Arr.flatten dm_mask)).
  set (mode0 := replicate (length dm_mask ^ 2) 0%Z).
  pose proof (pow2_log2_up_ge Nacts Hpos) as Hge. fold lg in Hge.
  pose proof (hadamard_pow_shape lg) as [Hhl Hhr].
  pose proof (hadamard_pow_pm1 lg) as Hhpm.
  assert (Hm0 : length mode0 = length dm_mask ^ 2)
    by (unfold mode0; by rewrite length_replicate).
  assert (Hdef : get_hadamard_modes dm_mask
                 = mapM (λ hmode, Np.put mode0 inds (take Nacts hmode))
                        (hadamard_pow lg)).
  { unfold get_hadamard_modes. fold Nacts lg inds mode0.
    destruct (Nat.eqb_spec Nacts 0); [lia|].
    by rewrite hadamard_pow2. }
  split; [|split].
  - intros (p & Hp & Hle). rewrite Hdef.
    destruct (hadamard_pow lg) as [|hrow rest] eqn:Hh.
    { simpl in Hhl. pose proof (Nat.pow_nonzero 2 lg). lia. }
    apply mapM_head_None. apply (put_out_of_range _ _ _ p).
    + unfold inds. by apply elem_of_where.
    + by rewrite Hm0.
  - intros Hbound.
    assert (Hin : Forall (λ i, i < length mode0) inds).
    { apply Forall_forall. intros i Hi%elem_of_where.
      rewrite Hm0. by apply Hbound. }
    assert (Hput : ∀ hrow, hrow ∈ hadamard_pow lg →
              Np.put mode0 inds (take Nacts hrow)
                = Some (Np.scatter mode0 inds (take Nacts hrow))).
    { intros hrow Hrow. apply put_same_length; [done|].
      unfold inds. rewrite length_take, (length_where_mask dm_mask).
      pose proof (proj1 (Forall_forall _ _) Hhr hrow Hrow) as Hl.
      simpl in Hl. fold Nacts. lia. }
    exists ((λ hrow, Np.scatter mode0 inds (take Nacts hrow))
              <$> hadamard_pow lg).
    split; [|split; [|split; [|split]]].
    + rewrite Hdef.
      apply mapM_Some_2, Forall2_fmap_r, Forall_Forall2_diag.
      apply Forall_forall. intros hrow Hrow. by apply Hput.
    + by rewrite length_fmap.
    + rewrite length_fmap. lia.
    + intros Hnp. rewrite length_fmap, Hhl.
      destruct (decide (Nacts = 2 ^ lg)) as [He|Hne]; [|lia].
      by destruct (Hnp lg).
    + intros r mode Hr. rewrite list_lookup_fmap in Hr.
      destruct (hadamard_pow lg !! r) as [hrow|] eqn:Hrow; [|done].
      injection Hr as <-.
      assert (Hl : length hrow = 2 ^ lg)
        by (eapply (proj1 (Forall_lookup _ _) Hhr); eauto).
      split; [by rewrite length_scatter, Hm0|].
      exists hrow. split; [done|]. split; [rewrite length_take; lia|].
      split; [|split].
      * apply Forall_take. eapply (proj1 (Forall_lookup _ _) Hhpm); eauto.
      * apply scatter_read_back; [apply NoDup_where_from|done|].
        rewrite length_take. unfold inds.
        rewrite (length_where_mask dm_mask). fold Nacts. lia.
      * intros p Hp Hnt. rewrite scatter_lookup_other.
        -- by apply lookup_replicate_2.
        -- unfold inds. by rewrite elem_of_where.
  - intros n Hsq.
    assert (Hsize : Np.size dm_mask = n * n) by (by apply length_flatten).
    assert (Hn : length dm_mask ^ 2 = n * n).
    { destruct Hsq as [-> _]. simpl. lia. }
    split.
    + intros p Hp%lookup_lt_Some. fold (Np.size dm_mask) in Hp. lia.
    + lia.
Qed.

Example get_hadamard_modes_3 :
  get_hadamard_modes mask_3_of_4 =
    Some [[1; 1; 1; 0]; [1; -1; 1; 0]; [1; 1; -1; 0]; [1; -1; -1; 0]]%Z.
Proof. reflexivity. Qed.

(** C10 as stated fails on masks that are not square: a 2-by-1 mask of
    size 2 gives a mode of length 4, and a 1-by-3 mask raises. *)
Lemma C10_get_hadamard_modes_counterexample :
  0 < Np.mask_sum mask_2_by_1 ∧ Np.size mask_2_by_1 = 2 ∧
  get_hadamard_modes mask_2_by_1 = Some [[1; 0; 0; 0]]%Z ∧
  0 < Np.mask_sum mask_1_by_3 ∧
  get_hadamard_modes mask_1_by_3 = None.
Proof. vm_compute. repeat split; lia || reflexivity. Qed.

Lemma C10_get_hadamard_modes_amended_witness :
  0 < Np.mask_sum mask_2_by_1 ∧
  ∃ modes,
    get_hadamard_modes mask_2_by_1 = Some modes ∧
    length modes = 2 ^ Nat.log2_up (Np.mask_sum mask_2_by_1) ∧
    ∀ r mode, modes !! r = Some mode →
      length mode = length mask_2_by_1 ^ 2.
Proof.
  assert (Hpos : 0 < Np.mask_sum mask_2_by_1) by (vm_compute; lia).
  split; [exact Hpos|].
  destruct (C10_get_hadamard_modes_amended mask_2_by_1 Hpos)
    as (_ & Hok & _).
  destruct Hok as (modes & Hm & Hlen & _ & _ & Hmode).
  - intros [|[|p]] Hp; simpl in *; [lia|discriminate|discriminate].
  - exists modes. split; [exact Hm|]. split; [exact Hlen|].
    intros r mode Hr. exact (proj1 (Hmode r mode Hr)).
Defined.

(** ** Real arrays *)

Section RealArrayLemmas.
Context {A B C : Type}.

Lemma at2_map2d (f : A → B) a i j :
  Arr.at2 (NpR.map2d f a) i j = f <$> Arr.at2 a i j.
Proof.
  unfold Arr.at2, NpR.map2d. rewrite list_lookup_fmap.
  destruct (a !! i) as [row|]; simpl; [|done].
  apply list_lookup_fmap.
Qed.

Lemma at2_zip2d (f : A → B → C) a b i j x y :
  Arr.at2 a i j = Some x → Arr.at2 b i j = Some y →
  Arr.at2 (NpR.zip2d f a b) i j = Some (f x y).
Proof.
  unfold Arr.at2, NpR.zip2d. intros Ha Hb. rewrite lookup_zip_with.
  destruct (a !! i) as [ra|]; simpl in *; [|done].
  destruct (b !! i) as [rb|]; simpl in *; [|done].
  rewrite lookup_zip_with, Ha, Hb. done.
Qed.

Lemma at2_zip2d_inv (f : A → B → C) a b i j z :
  Arr.at2 (NpR.zip2d f a b) i j = Some z →
  ∃ x y, Arr.at2 a i j = Some x ∧ Arr.at2 b i j = Some y ∧ z = f x y.
Proof.
  unfold Arr.at2, NpR.zip2d. rewrite lookup_zip_with.
  destruct (a !! i) as [ra|]; simpl; [|done].
  destruct (b !! i) as [rb|]; simpl; [|done].
  rewrite lookup_zip_with.
  destruct (ra !! j) as [x|]; simpl; [|done].
  destruct (rb !! j) as [y|]; simpl; [|done].
  intros [= <-]. by exists x, y.
Qed.

Lemma is_matrix_map2d (f : A → B) r c a :
  Arr.is_matrix r c a → Arr.is_matrix r c (NpR.map2d f a).
Proof.
  intros [Hl Hr]. unfold NpR.map2d. split; [by rewrite length_map|].
  apply Forall_map. eapply Forall_impl; [exact Hr|].
  intros row Hrow. simpl. by rewrite length_map.
Qed.

Lemma is_matrix_zip2d (f : A → B → C) r c a b :
  Arr.is_matrix r c a → Arr.is_matrix r c b →
  Arr.is_matrix r c (NpR.zip2d f a b).
Proof.
  intros [Hla Hra] [Hlb Hrb]. split.
  - unfold NpR.zip2d. rewrite length_zip_with. lia.
  - eapply Forall_zip_with_both; [|exact Hra|exact Hrb].
    intros x y Hx Hy. simpl in *. rewrite length_zip_with. lia.
Qed.
End RealArrayLemmas.

Lemma lookup_tabulate {A} (f : nat → A) n i :
  i < n → map f (seq 0 n) !! i = Some (f i).
Proof.
  intros H. change (map f (seq 0 n)) with (f <$> seq 0 n).
  rewrite list_lookup_fmap, lookup_seq_lt by done. done.
Qed.

Lemma at2_tabulate {A} (f : nat → nat → A) r c i j :
  i < r → j < c →
  Arr.at2 (map (λ i, map (λ j, f i j) (seq 0 c)) (seq 0 r)) i j
    = Some (f i j).
Proof.
  intros Hi Hj. unfold Arr.at2.
  rewrite (lookup_tabulate (λ i, map (λ j, f i j) (seq 0 c))) by done.
  simpl. by apply (lookup_tabulate (f i)).
Qed.

Lemma is_matrix_tabulate {A} (f : nat → nat → A) r c :
  Arr.is_matrix r c (map (λ i, map (λ j, f i j) (seq 0 c)) (seq 0 r)).
Proof.
  split; [by rewrite length_map, length_seq|].
  apply Forall_map, Forall_forall. intros i _. simpl.
  by rewrite length_map, length_seq.
Qed.

Lemma at2_indices r c i j :
  i < r → j < c →
  Arr.at2 (NpR.indices (r, c)).1 i j = Some (INR i) ∧
  Arr.at2 (NpR.indices (r, c)).2 i j = Some (INR j).
Proof.
  intros Hi Hj. unfold NpR.indices. simpl. split.
  - by apply (at2_tabulate (λ i _, INR i)).
  - by apply (at2_tabulate (λ _ j, INR j)).
Qed.

Lemma is_matrix_indices r c :
  Arr.is_matrix r c (NpR.indices (r, c)).1 ∧
  Arr.is_matrix r c (NpR.indices (r, c)).2.
Proof.
  unfold NpR.indices. simpl. split.
  - apply (is_matrix_tabulate (λ i _, INR i)).
  - apply (is_matrix_tabulate (λ _ j, INR j)).
Qed.

(** ** fourier_mode *)

Section FourierModeProps.
Local Open Scope R_scope.

Lemma fourier_mode_square l rms a Nact phase :
  Arr.square Nact (fourier_mode l rms a Nact phase).
Proof.
  unfold fourier_mode.
  destruct (NpR.indices (Nact, Nact)) as [idy idx] eqn:E.
  pose proof (is_matrix_indices Nact Nact) as [Hy Hx].
  rewrite E in Hy, Hx. simpl in Hy, Hx.
  by apply is_matrix_map2d, is_matrix_zip2d; apply is_matrix_map2d.
Qed.

(** Every entry of [fourier_mode], in closed form. *)
Lemma at2_fourier_mode l rms a Nact phase i j :
  (i < Nact)%nat → (j < Nact)%nat →
  Arr.at2 (fourier_mode l rms a Nact phase) i j
    = Some (rms * sqrt 2 * cos (fourier_arg l a i j + phase)).
Proof.
  intros Hi Hj. unfold fourier_mode.
  destruct (NpR.indices (Nact, Nact)) as [idy idx] eqn:E.
  pose proof (at2_indices Nact Nact i j Hi Hj) as [Hy Hx].
  rewrite E in Hy, Hx. simpl in Hy, Hx.
  rewrite at2_map2d.
  erewrite at2_zip2d; [|by rewrite at2_map2d, Hy|by rewrite at2_map2d, Hx].
  simpl. unfold fourier_arg. do 4 f_equal. lra.
Qed.

(** C9. [fourier_mode] subtracts the constant [(34-1)/2 = 16.5] from the
    index grid whatever [Nact] is: the result is [Nact]-by-[Nact] and its
    entry [(i, j)] is
    [rms*sqrt(2)*cos(2*pi*(l0/a0*(i-16.5) + l1/a1*(j-16.5)) + phase)];
    16.5 is the centre [(Nact-1)/2] of the grid only for [Nact = 34]. *)
Theorem C9_fourier_mode_fixed_center l rms a Nact phase :
  Arr.square Nact (fourier_mode l rms a Nact phase) ∧
  (∀ i j, (i < Nact)%nat → (j < Nact)%nat →
     Arr.at2 (fourier_mode l rms a Nact phase) i j
       = Some (rms * sqrt 2
               * cos (2 * PI * (l.1 / a.1 * (INR i - 16.5)
                                + l.2 / a.2 * (INR j - 16.5)) + phase))) ∧
  ((INR Nact - 1) / 2 = 16.5 ↔ Nact = 34%nat).
Proof.
  split; [apply fourier_mode_square|]. split.
  - intros i j Hi Hj. by apply at2_fourier_mode.
  - split.
    + intros H. apply INR_eq. INR_lit 34%nat. lra.
    + intros ->. INR_lit 34%nat. lra.
Qed.

(** With [phase = 0] every entry is the pure cosine. *)
Lemma fourier_mode_phase_0 l rms a Nact i j :
  (i < Nact)%nat → (j < Nact)%nat →
  Arr.at2 (fourier_mode l rms a Nact 0) i j
    = Some (rms * sqrt 2 * cos (fourier_arg l a i j)).
Proof.
  intros Hi Hj. rewrite at2_fourier_mode by done. by rewrite Rplus_0_r.
Qed.

(** With [phase = pi/2] every entry is the sine with the opposite sign:
    [cos(arg + pi/2) = - sin(arg)]. *)
Lemma fourier_mode_phase_half_pi l rms a Nact i j :
  (i < Nact)%nat → (j < Nact)%nat →
  Arr.at2 (fourier_mode l rms a Nact (PI / 2)) i j
    = Some (- (rms * sqrt 2 * sin (fourier_arg l a i j))).
Proof.
  intros Hi Hj. rewrite at2_fourier_mode by done.
  rewrite cos_plus, cos_PI2, sin_PI2. f_equal. ring.
Qed.

(** C1. The cosine half holds ([fourier_mode_phase_0]); the sine half
    does not: with [phase = pi/2] the routine returns minus the sine.
    At [lambdaD_yx = (17, 0)], defaults otherwise, and [phase = pi/2],
    the argument at grid point [(17, 0)] is [pi/2]: the pure sine
    [rms*sqrt(2)*sin(arg)] there is [sqrt 2], and [fourier_mode] returns
    [- sqrt 2]. *)
Theorem C1_fourier_mode_half_pi_failing_input :
  fourier_arg (17, 0) (34, 34) 17 0 = PI / 2 ∧
  1 * sqrt 2 * sin (fourier_arg (17, 0) (34, 34) 17 0) = sqrt 2 ∧
  Arr.at2 (fourier_mode (17, 0) 1 (34, 34) 34 (PI / 2)) 17 0
    = Some (- sqrt 2) ∧
  - sqrt 2 ≠ sqrt 2.
Proof.
  assert (Harg : fourier_arg (17, 0) (34, 34) 17 0 = PI / 2).
  { unfold fourier_arg. simpl fst. simpl snd.
    INR_lit 17%nat. INR_lit 0%nat.
    replace 16.5 with (33 / 2) by lra. field. }
  split; [exact Harg|]. split; [|split].
  - rewrite Harg, sin_PI2. ring.
  - rewrite fourier_mode_phase_half_pi by lia.
    rewrite Harg, sin_PI2. f_equal. ring.
  - pose proof (sqrt_lt_R0 2 ltac:(lra)). lra.
Qed.
End FourierModeProps.

(** ** arange, linspace, meshgrid *)

Section GridLemmas.
Local Open Scope R_scope.

Lemma ceil_nat_INR n : NpR.ceil_nat (INR n) = n.
Proof.
  unfold NpR.ceil_nat.
  assert (Hup : (1 - Z.of_nat n)%Z = up (- INR n)).
  { apply tech_up; rewrite minus_IZR, <- INR_IZR_INZ; lra. }
  rewrite <- Hup. lia.
Qed.

(** The actuator axis [np.arange(-(N-1)/2, (N+1)/2)] has [N] points. *)
Lemma length_arange_centered N :
  length (NpR.arange (- (INR N - 1) / 2) ((INR N + 1) / 2)) = N.
Proof.
  unfold NpR.arange. rewrite length_map, length_seq.
  replace ((INR N + 1) / 2 - - (INR N - 1) / 2) with (INR N) by lra.
  apply ceil_nat_INR.
Qed.

Lemma lookup_arange_centered N k :
  (k < N)%nat →
  NpR.arange (- (INR N - 1) / 2) ((INR N + 1) / 2) !! k
    = Some (- (INR N - 1) / 2 + INR k).
Proof.
  intros Hk. unfold NpR.arange.
  replace ((INR N + 1) / 2 - - (INR N - 1) / 2) with (INR N) by lra.
  rewrite ceil_nat_INR.
  by apply (lookup_tabulate (λ k, - (INR N - 1) / 2 + INR k)).
Qed.

Lemma at2_meshgrid xs ys i j x y :
  xs !! j = Some x → ys !! i = Some y →
  Arr.at2 (NpR.meshgrid xs ys).1 i j = Some x ∧
  Arr.at2 (NpR.meshgrid xs ys).2 i j = Some y.
Proof.
  intros Hx Hy. unfold NpR.meshgrid, Arr.at2. simpl.
  change (map (λ _, xs) ys) with ((λ _, xs) <$> ys).
  change (map (λ y, map (λ _, y) xs) ys)
    with ((λ y, (λ _, y) <$> xs) <$> ys).
  rewrite !list_lookup_fmap, Hy. simpl.
  by rewrite list_lookup_fmap, Hx.
Qed.

Lemma is_matrix_meshgrid xs ys :
  Arr.is_matrix (length ys) (length xs) (NpR.meshgrid xs ys).1 ∧
  Arr.is_matrix (length ys) (length xs) (NpR.meshgrid xs ys).2.
Proof.
  unfold NpR.meshgrid. simpl. split.
  - split; [by rewrite length_map|]. by apply Forall_map, Forall_forall.
  - split; [by rewrite length_map|]. apply Forall_map, Forall_forall.
    intros y _. simpl. by rewrite length_map.
Qed.


(** The value of [np.linspace] at position [k]. *)
Lemma lookup_linspace start stop num k :
  (k < num)%nat →
  NpR.linspace start stop num !! k =
    Some (if (num =? 1)%nat then start
          else if (k =? num - 1)%nat then stop
          else INR k * ((stop - start) / INR (num - 1)) + start).
Proof.
  intros Hk. destruct num as [|[|num]]; [lia| |].
  - by replace k with 0%nat by lia.
  - unfold NpR.linspace. cbn [Nat.eqb].
    destruct (Nat.eqb_spec k (S (S num) - 1)) as [->|Hne].
    + apply list_lookup_insert_eq. rewrite length_map, length_seq. lia.
    + rewrite list_lookup_insert_ne by done.
      by apply (lookup_tabulate
                  (λ k, INR k * ((stop - start) / INR (S (S num) - 1))
                        + start)).
Qed.

(** The probe phases: [linspace(0, pi (N-1)/N, N)[i] = i pi / N]. *)
Lemma lookup_probe_phases N i :
  (i < N)%nat →
  NpR.linspace 0 (PI * (INR N - 1) / INR N) N !! i
    = Some (INR i * PI / INR N).
Proof.
  intros Hi. rewrite lookup_linspace by done. f_equal.
  assert (HN : INR N ≠ 0) by (apply not_0_INR; lia).
  destruct (Nat.eqb_spec N 1) as [->|H1].
  - replace i with 0%nat by lia. simpl. lra.
  - assert (HN1 : INR (N - 1) = INR N - 1)
      by (rewrite minus_INR by lia; simpl; lra).
    assert (HN2 : INR N - 1 ≠ 0).
    { rewrite <- HN1. apply not_0_INR. lia. }
    destruct (Nat.eqb_spec i (N - 1)) as [->|Hne].
    + rewrite HN1. by field.
    + rewrite HN1. by field.
Qed.

Lemma mod2_even i : (i mod 2 =? 0)%nat = Nat.even i.
Proof.
  destruct (Nat.even i) eqn:E.
  - apply Nat.even_spec in E as [k ->]. apply Nat.eqb_eq.
    rewrite Nat.mul_comm. apply Nat.Div0.mod_mul.
  - apply Nat.eqb_neq. intros H.
    assert (Nat.even i = true); [|congruence].
    apply Nat.even_spec. exists (i / 2)%nat.
    pose proof (Nat.div_mod_eq i 2). lia.
Qed.
End GridLemmas.

(** ** create_sinc_probe / create_sinc_probes *)

Section SincProbeProps.
Local Open Scope R_scope.

Lemma lookup_acts Nacts off k :
  (k < Nacts)%nat →
  map (λ v, v / INR Nacts - NpR.round off / INR Nacts)
      (NpR.arange (- (INR Nacts - 1) / 2) ((INR Nacts + 1) / 2)) !! k
    = Some (act_coord Nacts off k).
Proof.
  intros Hk.
  change (map ?f ?l) with (f <$> l).
  by rewrite list_lookup_fmap, lookup_arange_centered.
Qed.

Lemma length_acts Nacts off :
  length (map (λ v, v / INR Nacts - NpR.round off / INR Nacts)
              (NpR.arange (- (INR Nacts - 1) / 2) ((INR Nacts + 1) / 2)))
    = Nacts.
Proof. by rewrite length_map, length_arange_centered. Qed.

(** With [probe_phase = 0] the last assignment decides the result. *)
Lemma create_sinc_probe_phase_0 Nacts amp probe_radius offset bad_axis :
  create_sinc_probe Nacts amp probe_radius 0 offset bad_axis =
    create_sinc_probe Nacts amp probe_radius 0 offset "x".
Proof.
  unfold create_sinc_probe.
  destruct (NpR.meshgrid _ _) as [Xacts Yacts].
  by destruct (Req_dec_T 0 0).
Qed.

(** C6. With [probe_phase] exactly 0, [create_sinc_probe] returns the
    [Nacts]-by-[Nacts] array [amp * sinc(2 r X) * sinc(2 r Y)] over the
    offset actuator grid ([X] along columns, [Y] along rows), with no
    cosine factor, whatever [bad_axis] is; in particular the results for
    ['x'] and ['y'] are the same. *)
Theorem C6_create_sinc_probe_phase_0 Nacts amp probe_radius offset bad_axis :
  ∃ probe,
    create_sinc_probe Nacts amp probe_radius 0 offset bad_axis = Some probe ∧
    Arr.square Nacts probe ∧
    (∀ i j, (i < Nacts)%nat → (j < Nacts)%nat →
       Arr.at2 probe i j =
         Some (amp
               * NpR.sinc (2 * probe_radius * act_coord Nacts offset.1 j)
               * NpR.sinc (2 * probe_radius * act_coord Nacts offset.2 i))) ∧
    create_sinc_probe Nacts amp probe_radius 0 offset "x" =
      create_sinc_probe Nacts amp probe_radius 0 offset "y".
Proof.
  rewrite (create_sinc_probe_phase_0 _ _ _ _ bad_axis).
  rewrite (create_sinc_probe_phase_0 _ _ _ _ "y").
  unfold create_sinc_probe.
  set (xacts := map (λ v, v / INR Nacts - NpR.round offset.1 / INR Nacts) _).
  set (yacts := map (λ v, v / INR Nacts - NpR.round offset.2 / INR Nacts) _).
  pose proof (is_matrix_meshgrid xacts yacts) as [HX HY].
  pose proof (λ i j x y, at2_meshgrid xacts yacts i j x y) as Hat.
  destruct (NpR.meshgrid xacts yacts) as [Xacts Yacts]. simpl in *.
  unfold xacts, yacts in HX, HY. rewrite !length_acts in HX, HY.
  destruct (Req_dec_T 0 0) as [_|Hne]; [|done].
  eexists. split; [done|]. split; [|split; [|done]].
  - by apply is_matrix_zip2d.
  - intros i j Hi Hj.
    destruct (Hat i j _ _ (lookup_acts Nacts offset.1 j Hj)
                          (lookup_acts Nacts offset.2 i Hi)) as [Hx Hy].
    by erewrite at2_zip2d; [|exact Hx|exact Hy].
Qed.

Lemma create_sinc_probe_xy_Some Nacts amp probe_radius phase offset (b : bool) :
  is_Some (create_sinc_probe Nacts amp probe_radius phase offset
             (if b then "x"%string else "y"%string)).
Proof.
  unfold create_sinc_probe.
  destruct (NpR.meshgrid _ _) as [Xacts Yacts].
  destruct (Req_dec_T phase 0); [by eexists|].
  destruct b; simpl; by eexists.
Qed.

End SincProbeProps.

(** ** Matrices *)

Section MatLemmas.
Local Open Scope R_scope.
Implicit Types (a b : Mat.matrix).

Lemma ncols_is_matrix r c a :
  Arr.is_matrix r c a → (0 < r)%nat → Mat.ncols a = c.
Proof.
  intros [Hl Hr] Hpos. destruct a as [|row a]; simpl in *; [lia|].
  by inversion Hr.
Qed.

Lemma entry_at2 a i j x : Arr.at2 a i j = Some x → Mat.entry a i j = x.
Proof.
  unfold Arr.at2, Mat.entry. intros H.
  destruct (a !! i) as [row|] eqn:Hrow; simpl in H; [|done].
  rewrite (nth_lookup_Some a i [] row) by done.
  by apply nth_lookup_Some.
Qed.

Lemma entry_tabulate (f : nat → nat → R) r c i j :
  (i < r)%nat → (j < c)%nat →
  Mat.entry (map (λ i, map (λ j, f i j) (seq 0 c)) (seq 0 r)) i j = f i j.
Proof. intros Hi Hj. by apply entry_at2, (at2_tabulate f). Qed.

Lemma is_matrix_transpose r c a :
  Arr.is_matrix r c a → (0 < r)%nat →
  Arr.is_matrix c r (Mat.transpose a).
Proof.
  intros Ha Hpos. unfold Mat.transpose.
  rewrite (ncols_is_matrix r c) by done. destruct Ha as [-> _].
  apply (is_matrix_tabulate (λ j i, Mat.entry a i j)).
Qed.

(** A conformable product is defined and has the outer dimensions. *)
Lemma dot_shape m k n a b :
  Arr.is_matrix m k a → Arr.is_matrix k n b →
  (0 < m)%nat → (0 < k)%nat →
  ∃ c, Mat.dot a b = Some c ∧ Arr.is_matrix m n c.
Proof.
  intros Ha Hb Hm Hk. unfold Mat.dot.
  rewrite (ncols_is_matrix m k a), (ncols_is_matrix k n b) by done.
  destruct Ha as [Hla _], Hb as [Hlb _]. rewrite Hla, Hlb.
  rewrite Nat.eqb_refl. eexists. split; [done|].
  apply (is_matrix_tabulate
           (λ i j, Mat.Rsum (map (λ k0, Mat.entry a i k0 * Mat.entry b k0 j)
                                 (seq 0 k)))).
Qed.

Lemma is_matrix_diag_of_vec w :
  Arr.square (length w) (Mat.diag_of_vec w).
Proof.
  apply (is_matrix_tabulate
           (λ i j, if (i =? j)%nat then nth i w 0 else 0)).
Qed.

Lemma is_matrix_eye n : Arr.square n (Mat.eye n).
Proof.
  apply (is_matrix_tabulate (λ i j, if (i =? j)%nat then 1 else 0)).
Qed.

Lemma length_diag_of_mat n a :
  Arr.square n a → (0 < n)%nat → length (Mat.diag_of_mat a) = n.
Proof.
  intros Ha Hn. unfold Mat.diag_of_mat.
  rewrite length_map, length_seq, (ncols_is_matrix n n) by done.
  destruct Ha as [-> _]. lia.
Qed.

Lemma max_is_Some l : (0 < length l)%nat → is_Some (Mat.max l).
Proof. destruct l; simpl; [lia|by eexists]. Qed.

(** The regularised normal matrix [cov + c * eye(n)] is [n]-by-[n]. *)
Lemma is_matrix_regularised n cov c :
  Arr.square n cov → Arr.square n (Mat.add cov (Mat.scale c (Mat.eye n))).
Proof.
  intros Hc. apply is_matrix_zip2d; [done|].
  apply is_matrix_map2d, is_matrix_eye.
Qed.

Lemma length_replicated (w0 : list R) k :
  length (Nat.iter k (λ w, w ++ w0) w0) = (length w0 * S k)%nat.
Proof.
  induction k as [|k IH]; simpl; [lia|].
  rewrite length_app, IH. lia.
Qed.

(** A sum with a single non-zero term. *)
Lemma Rsum_single (h : nat → R) j s n :
  Mat.Rsum (map (λ k, if (k =? j)%nat then h k else 0) (seq s n))
    = if ((s <=? j) && (j <? s + n))%nat then h j else 0.
Proof.
  revert s. induction n as [|n IH]; intros s; simpl.
  - destruct (Nat.leb_spec s j), (Nat.ltb_spec j (s + 0)); simpl; done || lia.
  - rewrite IH. destruct (Nat.eqb_spec s j) as [->|Hne].
    + destruct (Nat.leb_spec (S j) j); [lia|].
      destruct (Nat.leb_spec j j); [|lia].
      destruct (Nat.ltb_spec j (j + S n)); [|lia]. simpl. lra.
    + destruct (Nat.leb_spec s j), (Nat.leb_spec (S s) j);
        destruct (Nat.ltb_spec j (S s + n)), (Nat.ltb_spec j (s + S n));
        simpl; lra || lia.
Qed.

(** Multiplying by a diagonal matrix on the right scales the columns. *)
Lemma dot_diag_of_vec n k a d :
  Arr.is_matrix n k a → length d = k → (0 < n)%nat → (0 < k)%nat →
  Mat.dot a (Mat.diag_of_vec d) = Some (Mat.mul_rows a d).
Proof.
  intros Ha Hd Hn Hk. unfold Mat.dot.
  pose proof (is_matrix_diag_of_vec d) as HD. rewrite Hd in HD.
  rewrite (ncols_is_matrix n k a), (ncols_is_matrix k k _) by done.
  destruct HD as [HDl _]. rewrite HDl, Nat.eqb_refl. f_equal.
  destruct Ha as [Hl Hr]. rewrite Hl.
  apply list_eq. intros i. unfold Mat.mul_rows.
  change (map ?f ?l) with (f <$> l) at 1.
  change (map ?f a) with (f <$> a).
  rewrite !list_lookup_fmap.
  destruct (a !! i) as [row|] eqn:Hrow; simpl.
  - rewrite lookup_seq_lt by (apply lookup_lt_Some in Hrow; lia). simpl.
    f_equal.
    assert (Hlr : length row = k)
      by (eapply (proj1 (Forall_lookup _ _) Hr); eauto).
    apply list_eq. intros j.
    change (map ?f ?l) with (f <$> l) at 1.
    rewrite list_lookup_fmap, lookup_zip_with.
    destruct (decide (j < k)%nat) as [Hj|Hj].
    + rewrite lookup_seq_lt by done. simpl.
      destruct (lookup_lt_is_Some_2 row j) as [x Hx]; [lia|].
      destruct (lookup_lt_is_Some_2 d j) as [y Hy]; [lia|].
      rewrite Hx, Hy. simpl. f_equal.
      rewrite (map_ext_in _
                 (λ k0, if (k0 =? j)%nat
                        then Mat.entry a i k0 * nth k0 d 0 else 0)).
      * rewrite Rsum_single. simpl.
        destruct (Nat.ltb_spec j k); [|lia].
        unfold Mat.entry.
        rewrite (nth_lookup_Some a i [] row) by done.
        by rewrite (nth_lookup_Some row j 0 x), (nth_lookup_Some d j 0 y).
      * intros k0 [_ Hk0]%in_seq. unfold Mat.diag_of_vec.
        rewrite (entry_tabulate
                   (λ i j, if (i =? j)%nat then nth i d 0 else 0))
          by lia.
        destruct (k0 =? j)%nat; lra.
    + rewrite lookup_seq_ge by lia. simpl.
      rewrite (proj2 (lookup_ge_None row j)) by lia. done.
  - rewrite lookup_seq_ge; [done|]. apply lookup_ge_None in Hrow. lia.
Qed.
End MatLemmas.

(** ** WeightedLeastSquares, TikhonovInverse, beta_reg *)

Section ControlMatrixProps.
Local Open Scope R_scope.
Variable inv : Mat.matrix → option Mat.matrix.
Variable svd : Mat.matrix → Mat.matrix * list R * Mat.matrix.
Implicit Types (A U Vt : Mat.matrix) (s : list R).

Lemma is_matrix_mul_rows n k (a : Mat.matrix) (v : list R) :
  Arr.is_matrix n k a → length v = k → Arr.is_matrix n k (Mat.mul_rows a v).
Proof.
  intros [Hl Hr] Hv. unfold Mat.mul_rows. split; [by rewrite length_map|].
  apply Forall_map. eapply Forall_impl; [exact Hr|].
  intros row Hrow. simpl in *. rewrite length_zip_with. lia.
Qed.

(** C4. With [(U, s, Vt)] the thin singular value decomposition that the
    backend returns for [A] ([U] of shape [(M, K)], [s] of length [K],
    [Vt] of shape [(K, N)], no dimension zero), [TikhonovInverse(A,
    rcond)] is defined and equals
    [Vt.T . diag(s/(s^2 + (rcond max(s))^2)) . U.T]. *)
Theorem C4_TikhonovInverse_damped_inverse A rcond U s Vt M N K :
  svd A = (U, s, Vt) →
  Arr.is_matrix M K U → length s = K → Arr.is_matrix K N Vt →
  (0 < M)%nat → (0 < N)%nat → (0 < K)%nat →
  ∃ smax,
    Mat.max s = Some smax ∧
    is_Some (TikhonovInverse svd A rcond) ∧
    TikhonovInverse svd A rcond = damped_inverse U s Vt rcond smax.
Proof.
  intros Hsvd HU Hs HVt HM HN HK.
  destruct (max_is_Some s) as [smax Hmax]; [lia|].
  exists smax. split; [done|].
  unfold TikhonovInverse, damped_inverse. rewrite Hsvd, Hmax. simpl.
  set (d := map _ s).
  assert (Hd : length d = K) by (unfold d; by rewrite length_map).
  pose proof (is_matrix_transpose K N Vt HVt HK) as HVtT.
  pose proof (is_matrix_transpose M K U HU HM) as HUT.
  rewrite (dot_diag_of_vec N K) by done. simpl. split; [|done].
  destruct (dot_shape N K M (Mat.mul_rows (Mat.transpose Vt) d)
              (Mat.transpose U)) as (G & -> & _);
    [by apply is_matrix_mul_rows|done|done|done|]. by eexists.
Qed.

Lemma TikhonovInverse_shape A rcond U s Vt M N K :
  svd A = (U, s, Vt) →
  Arr.is_matrix M K U → length s = K → Arr.is_matrix K N Vt →
  (0 < M)%nat → (0 < N)%nat → (0 < K)%nat →
  ∃ G, TikhonovInverse svd A rcond = Some G ∧ Arr.is_matrix N M G.
Proof.
  intros Hsvd HU Hs HVt HM HN HK.
  destruct (max_is_Some s) as [smax Hmax]; [lia|].
  unfold TikhonovInverse. rewrite Hsvd, Hmax. simpl.
  apply (dot_shape N K M); [|by apply (is_matrix_transpose M K)|done|done].
  apply is_matrix_mul_rows; [by apply (is_matrix_transpose K N)|].
  by rewrite length_map.
Qed.

Hypothesis inv_square :
  ∀ n a b, Arr.square n a → inv a = Some b → Arr.square n b.

Lemma WeightedLeastSquares_shape A weight_map nprobes rcond M N :
  Arr.is_matrix M N A → (0 < M)%nat → (0 < N)%nat →
  (length (positive_entries weight_map) * nprobes = M)%nat →
  ∃ W WA cov m AtW X,
    W = Mat.diag_of_vec
          (Nat.iter (nprobes - 1)
             (λ w, w ++ positive_entries weight_map)
             (positive_entries weight_map)) ∧
    Mat.dot W A = Some WA ∧
    Mat.dot (Mat.transpose A) WA = Some cov ∧
    Mat.max (Mat.diag_of_mat cov) = Some m ∧
    Mat.dot (Mat.transpose A) W = Some AtW ∧
    X = Mat.add cov (Mat.scale (rcond * m) (Mat.eye N)) ∧
    Arr.square N X ∧
    (WeightedLeastSquares inv A weight_map nprobes rcond = None
       ↔ inv X = None) ∧
    (∀ C, inv X = Some C →
       ∃ G, WeightedLeastSquares inv A weight_map nprobes rcond = Some G ∧
            Mat.dot C AtW = Some G ∧ Arr.is_matrix N M G).
Proof.
  intros HA HM HN Hw. unfold WeightedLeastSquares.
  assert (Hnp : (1 ≤ nprobes)%nat) by (destruct nprobes; lia).
  fold (positive_entries weight_map).
  set (w := Nat.iter (nprobes - 1) _ (positive_entries weight_map)).
  assert (Hlw : length w = M).
  { unfold w. rewrite length_replicated. rewrite <- Hw. f_equal. lia. }
  pose proof (is_matrix_diag_of_vec w) as HW. rewrite Hlw in HW.
  pose proof (is_matrix_transpose M N A HA HM) as HAT.
  destruct (dot_shape M M N (Mat.diag_of_vec w) A) as (WA & HWA & HWAs);
    [done..|].
  destruct (dot_shape N M N (Mat.transpose A) WA) as (cov & Hcov & Hcovs);
    [done..|].
  destruct (max_is_Some (Mat.diag_of_mat cov)) as [m Hm];
    [by rewrite (length_diag_of_mat N)|].
  destruct (dot_shape N M M (Mat.transpose A) (Mat.diag_of_vec w))
    as (AtW & HAtW & HAtWs); [done..|].
  exists (Mat.diag_of_vec w), WA, cov, m, AtW,
    (Mat.add cov (Mat.scale (rcond * m) (Mat.eye N))).
  rewrite HWA. cbn [mbind option_bind]. rewrite Hcov.
  cbn [mbind option_bind]. rewrite Hm. cbn [mbind option_bind].
  rewrite (ncols_is_matrix M N A) by done.
  assert (HX : Arr.square N
                 (Mat.add cov (Mat.scale (rcond * m) (Mat.eye N))))
    by (by apply is_matrix_regularised).
  do 6 (split; [done|]). split; [done|].
  destruct (inv (Mat.add cov (Mat.scale (rcond * m) (Mat.eye N))))
    as [C|] eqn:HC; cbn [mbind option_bind].
  - rewrite HAtW. cbn [mbind option_bind].
    destruct (dot_shape N N M C AtW) as (G & HG & HGs); [|done..|].
    { eapply inv_square; [exact HX|exact HC]. }
    split; [by rewrite HG|].
    intros C' [= <-]. by exists G.
  - split; [done|]. by intros C' ?.
Qed.

Lemma beta_reg_shape S beta M N :
  Arr.is_matrix M N S → (0 < M)%nat → (0 < N)%nat →
  ∃ sts alpha2 X,
    Mat.dot (Mat.transpose S) S = Some sts ∧
    Mat.max (Mat.diag_of_mat sts) = Some alpha2 ∧
    X = Mat.add sts (Mat.scale (alpha2 * Rpower 10 beta) (Mat.eye N)) ∧
    Arr.square N X ∧
    (beta_reg inv S beta = None ↔ inv X = None) ∧
    (∀ C, inv X = Some C →
       ∃ G, beta_reg inv S beta = Some G ∧
            Mat.dot C (Mat.transpose S) = Some G ∧ Arr.is_matrix N M G).
Proof.
  intros HS HM HN. unfold beta_reg.
  pose proof (is_matrix_transpose M N S HS HM) as HST.
  destruct (dot_shape N M N (Mat.transpose S) S) as (sts & Hsts & Hstss);
    [done..|].
  destruct (max_is_Some (Mat.diag_of_mat sts)) as [alpha2 Ha];
    [by rewrite (length_diag_of_mat N)|].
  exists sts, alpha2,
    (Mat.add sts (Mat.scale (alpha2 * Rpower 10 beta) (Mat.eye N))).
  rewrite Hsts. cbn [mbind option_bind]. rewrite Ha.
  cbn [mbind option_bind].
  assert (Hl : length sts = N) by (by destruct Hstss).
  rewrite Hl.
  assert (HX : Arr.square N
                 (Mat.add sts (Mat.scale (alpha2 * Rpower 10 beta)
                                 (Mat.eye N))))
    by (by apply is_matrix_regularised).
  do 3 (split; [done|]). split; [done|].
  destruct (inv (Mat.add sts (Mat.scale (alpha2 * Rpower 10 beta)
                                (Mat.eye N)))) as [C|] eqn:HC;
    cbn [mbind option_bind].
  - destruct (dot_shape N N M C (Mat.transpose S)) as (G & HG & HGs);
      [|done..|].
    { eapply inv_square; [exact HX|exact HC]. }
    split; [by rewrite HG|].
    intros C' [= <-]. by exists G.
  - split; [done|]. by intros C' ?.
Qed.

(** C5 (amended). For a Jacobian [A] of shape [(M, N)] (measurements by
    actuators, no dimension zero) and backend routines that keep shapes:
    [TikhonovInverse] returns a matrix of the transposed shape [(N, M)].
    [WeightedLeastSquares] and [beta_reg] invert the [N]-by-[N]
    regularised normal matrix [X]
    ([A.T W A + rcond max(diag(A.T W A)) I], respectively
    [S.T S + max(diag(S.T S)) 10^beta I]): they raise exactly when
    [linalg.inv] raises on [X], and otherwise return [inv(X) . A.T W],
    respectively [inv(X) . S.T], of shape [(N, M)]. *)
Theorem C5_control_matrix_shapes_amended A M N :
  Arr.is_matrix M N A → (0 < M)%nat → (0 < N)%nat →
  (∀ weight_map nprobes rcond,
     (length (positive_entries weight_map) * nprobes = M)%nat →
     ∃ W WA cov m AtW X,
       W = Mat.diag_of_vec
             (Nat.iter (nprobes - 1)
                (λ w, w ++ positive_entries weight_map)
                (positive_entries weight_map)) ∧
       Mat.dot W A = Some WA ∧
       Mat.dot (Mat.transpose A) WA = Some cov ∧
       Mat.max (Mat.diag_of_mat cov) = Some m ∧
       Mat.dot (Mat.transpose A) W = Some AtW ∧
       X = Mat.add cov (Mat.scale (rcond * m) (Mat.eye N)) ∧
       Arr.square N X ∧
       (WeightedLeastSquares inv A weight_map nprobes rcond = None
          ↔ inv X = None) ∧
       (∀ C, inv X = Some C →
          ∃ G, WeightedLeastSquares inv A weight_map nprobes rcond = Some G ∧
               Mat.dot C AtW = Some G ∧ Arr.is_matrix N M G)) ∧
  (∀ rcond U s Vt K,
     svd A = (U, s, Vt) →
     Arr.is_matrix M K U → length s = K → Arr.is_matrix K N Vt →
     (0 < K)%nat →
     ∃ G, TikhonovInverse svd A rcond = Some G ∧ Arr.is_matrix N M G) ∧
  (∀ beta,
     ∃ sts alpha2 X,
       Mat.dot (Mat.transpose A) A = Some sts ∧
       Mat.max (Mat.diag_of_mat sts) = Some alpha2 ∧
       X = Mat.add sts (Mat.scale (alpha2 * Rpower 10 beta) (Mat.eye N)) ∧
       Arr.square N X ∧
       (beta_reg inv A beta = None ↔ inv X = None) ∧
       (∀ C, inv X = Some C →
          ∃ G, beta_reg inv A beta = Some G ∧
               Mat.dot C (Mat.transpose A) = Some G ∧
               Arr.is_matrix N M G)).
Proof.
  intros HA HM HN. split; [|split].
  - intros weight_map nprobes rcond Hw.
    by apply WeightedLeastSquares_shape.
  - intros rcond U s Vt K Hsvd HU Hs HVt HK.
    by apply (TikhonovInverse_shape A rcond U s Vt M N K).
  - intros beta. by apply beta_reg_shape.
Qed.
End ControlMatrixProps.

Lemma inv1_square n (a b : Mat.matrix) :
  Arr.square n a → inv1 a = Some b → Arr.square n b.
Proof.
  intros [Hl _] Hb.
  destruct a as [|[|x [|? ?]] [|? ?]]; simpl in Hb; try done.
  destruct (Req_dec_T x 0); [done|]. injection Hb as <-.
  simpl in Hl. subst n. split; [done|]. by repeat constructor.
Qed.

Lemma is_matrix_1_1 (x : R) : Arr.is_matrix 1 1 [[x]].
Proof. split; [done|]. by repeat constructor. Qed.

Lemma C4_TikhonovInverse_damped_inverse_witness :
  svd1 [[2%R]]
    = ([[if Rle_dec 0 2 then 1%R else (-1)%R]], [Rabs 2], [[1%R]]) ∧
  ∃ smax,
    Mat.max [Rabs 2] = Some smax ∧
    is_Some (TikhonovInverse svd1 [[2%R]] 0) ∧
    TikhonovInverse svd1 [[2%R]] 0
      = damped_inverse [[if Rle_dec 0 2 then 1%R else (-1)%R]]
                       [Rabs 2] [[1%R]] 0 smax.
Proof.
  split; [reflexivity|].
  apply (C4_TikhonovInverse_damped_inverse svd1 [[2%R]] 0%R
           [[if Rle_dec 0 2 then 1%R else (-1)%R]] [Rabs 2] [[1%R]] 1 1 1).
  - reflexivity.
  - apply is_matrix_1_1.
  - reflexivity.
  - apply is_matrix_1_1.
  - lia.
  - lia.
  - lia.
Defined.

Lemma positive_entries_1 : positive_entries [[1%R]] = [1%R].
Proof.
  unfold positive_entries, Np.select. simpl.
  destruct (Rlt_dec 0 1) as [_|Hn]; [done|]. exfalso. apply Hn. lra.
Qed.

Lemma positive_entries_1_1 : positive_entries [[1%R; 1%R]] = [1%R; 1%R].
Proof.
  unfold positive_entries, Np.select. simpl.
  destruct (Rlt_dec 0 1) as [_|Hn]; [done|]. exfalso. apply Hn. lra.
Qed.

Lemma is_matrix_jac21 : Arr.is_matrix 2 1 jac21.
Proof. split; [done|]. by repeat constructor. Qed.

(** C5 as stated fails: on the 1-by-1 zero Jacobian the regularised
    normal matrix is [[0]], [linalg.inv] raises, and so do
    [WeightedLeastSquares] and [beta_reg]. *)
Lemma C5_control_matrix_shapes_counterexample :
  Arr.is_matrix 1 1 [[0%R]] ∧
  (length (positive_entries [[1%R]]) * 1 = 1)%nat ∧
  WeightedLeastSquares inv1 [[0%R]] [[1%R]] 1 0 = None ∧
  beta_reg inv1 [[0%R]] 0 = None.
Proof.
  split; [apply is_matrix_1_1|]. split; [by rewrite positive_entries_1|].
  split.
  - unfold WeightedLeastSquares. fold (positive_entries [[1%R]]).
    rewrite positive_entries_1.
    unfold Mat.max, Mat.dot, Mat.transpose, Mat.Rsum, Mat.add, Mat.scale,
      Mat.eye, Mat.diag_of_mat, Mat.diag_of_vec, NpR.zip2d, NpR.map2d.
    simpl. unfold Mat.entry. simpl.
    destruct (Req_dec_T _ 0) as [H|H]; [done|]. exfalso. apply H. lra.
  - unfold beta_reg.
    unfold Mat.max, Mat.dot, Mat.transpose, Mat.Rsum, Mat.add, Mat.scale,
      Mat.eye, Mat.diag_of_mat, NpR.zip2d, NpR.map2d.
    simpl. unfold Mat.entry. simpl.
    destruct (Req_dec_T _ 0) as [H|H]; [done|]. exfalso. apply H.
    rewrite Rpower_O by lra. lra.
Qed.

Lemma C5_control_matrix_shapes_amended_witness :
  Arr.is_matrix 2 1 jac21 ∧
  (∃ X, Arr.square 1 X ∧
     (WeightedLeastSquares inv1 jac21 [[1%R; 1%R]] 1 0 = None
        ↔ inv1 X = None) ∧
     (∀ C, inv1 X = Some C →
        ∃ G, WeightedLeastSquares inv1 jac21 [[1%R; 1%R]] 1 0 = Some G ∧
             Arr.is_matrix 1 2 G)) ∧
  (∃ G, TikhonovInverse svd_col jac21 0 = Some G ∧ Arr.is_matrix 1 2 G) ∧
  (∃ X, Arr.square 1 X ∧
     (beta_reg inv1 jac21 (-1) = None ↔ inv1 X = None) ∧
     (∀ C, inv1 X = Some C →
        ∃ G, beta_reg inv1 jac21 (-1) = Some G ∧ Arr.is_matrix 1 2 G)).
Proof.
  pose proof (C5_control_matrix_shapes_amended inv1 svd_col inv1_square
                jac21 2 1 is_matrix_jac21 ltac:(lia) ltac:(lia))
    as (HW & HT & HB).
  split; [apply is_matrix_jac21|]. split; [|split].
  - destruct (HW [[1%R; 1%R]] 1%nat 0%R)
      as (W & WA & cov & m & AtW & X & _ & _ & _ & _ & _ & _ & HX & Hn & Hs).
    { by rewrite positive_entries_1_1. }
    exists X. split; [exact HX|]. split; [exact Hn|].
    intros C HC. destruct (Hs C HC) as (G & HG & _ & HGs).
    exists G. by split.
  - apply (HT 0%R (svd_col jac21).1.1 (svd_col jac21).1.2
              (svd_col jac21).2 1%nat).
    + reflexivity.
    + split; [reflexivity|]. by repeat constructor.
    + reflexivity.
    + apply is_matrix_1_1.
    + lia.
  - destruct (HB (-1)%R) as (sts & alpha2 & X & _ & _ & _ & HX & Hn & Hs).
    exists X. split; [exact HX|]. split; [exact Hn|].
    intros C HC. destruct (Hs C HC) as (G & HG & _ & HGs).
    exists G. by split.
Defined.

(** *** The three control matrices of the 1-by-1 Jacobian [[2]] *)

Section ControlMatrixExamples.
Local Open Scope R_scope.

Example TikhonovInverse_1x1 :
  TikhonovInverse svd1 [[2]] 0 = Some [[1 / 2]].
Proof.
  unfold TikhonovInverse, svd1.
  destruct (Rle_dec 0 2) as [_|Hn]; [|exfalso; apply Hn; lra].
  rewrite (Rabs_pos_eq 2) by lra.
  unfold Mat.max, Mat.dot, Mat.transpose, Mat.mul_rows, Mat.entry, Mat.Rsum.
  simpl. do 3 f_equal. lra.
Qed.

Example beta_reg_1x1 : beta_reg inv1 [[2]] 0 = Some [[1 / 4]].
Proof.
  unfold beta_reg.
  unfold Mat.max, Mat.dot, Mat.transpose, Mat.Rsum, Mat.add, Mat.scale,
    Mat.eye, Mat.diag_of_mat, NpR.zip2d, NpR.map2d.
  simpl. rewrite Rpower_O by lra. unfold Mat.entry. simpl.
  destruct (Req_dec_T _ 0) as [H|H]; [lra|].
  simpl. do 3 f_equal. lra.
Qed.

Example WeightedLeastSquares_1x1 :
  WeightedLeastSquares inv1 [[2]] [[1]] 1 0 = Some [[1 / 2]].
Proof.
  unfold WeightedLeastSquares. fold (positive_entries [[1]]).
  rewrite positive_entries_1.
  unfold Mat.max, Mat.dot, Mat.transpose, Mat.Rsum, Mat.add, Mat.scale,
    Mat.eye, Mat.diag_of_mat, Mat.diag_of_vec, NpR.zip2d, NpR.map2d.
  simpl. unfold Mat.entry. simpl.
  destruct (Req_dec_T _ 0) as [H|H]; [lra|].
  simpl. do 3 f_equal. lra.
Qed.
End ControlMatrixExamples.

(** ** Binning: max, digitize, unique *)

Section BinningLemmas.
Local Open Scope R_scope.

Lemma foldl_Rmax_spec (l : list R) x :
  x <= foldl Rmax x l ∧ Forall (λ y, y <= foldl Rmax x l) l ∧
  foldl Rmax x l ∈ x :: l.
Proof.
  revert x. induction l as [|y l IH]; intros x; simpl.
  - split; [lra|]. split; [constructor|]. apply list_elem_of_singleton. done.
  - destruct (IH (Rmax x y)) as (H1 & H2 & H3).
    pose proof (Rmax_l x y). pose proof (Rmax_r x y).
    split; [lra|]. split; [constructor; [lra|done]|].
    apply elem_of_cons in H3 as [H3|H3].
    + rewrite H3. unfold Rmax. destruct (Rle_dec x y).
      * apply elem_of_cons. right. apply elem_of_cons. by left.
      * apply elem_of_cons. by left.
    + apply elem_of_cons. right. apply elem_of_cons. by right.
Qed.

(** [l.max()] is an element of [l] that bounds every element. *)
Lemma max_spec (l : list R) m :
  Mat.max l = Some m → m ∈ l ∧ Forall (λ y, y <= m) l.
Proof.
  destruct l as [|x l]; simpl; [done|]. intros [= <-].
  destruct (foldl_Rmax_spec l x) as (H1 & H2 & H3).
  split; [done|]. by constructor.
Qed.




Lemma elem_of_insert_unique x y l :
  y ∈ NpBins.insert_unique x l ↔ y = x ∨ y ∈ l.
Proof.
  induction l as [|z l IH]; simpl.
  - rewrite list_elem_of_singleton, elem_of_nil. tauto.
  - destruct (Nat.ltb_spec x z); [by rewrite elem_of_cons|].
    destruct (Nat.eqb_spec x z) as [->|Hne].
    + rewrite elem_of_cons. tauto.
    + rewrite !elem_of_cons, IH. tauto.
Qed.



Lemma elem_of_unique x l : x ∈ NpBins.unique l ↔ x ∈ l.
Proof.
  induction l as [|y l IH]; simpl; [done|].
  by rewrite elem_of_insert_unique, elem_of_cons, IH.
Qed.

End BinningLemmas.

(** ** get_radial_dist / get_radial_contrast *)

Section RadialContrastProps.
Local Open Scope R_scope.

Lemma elem_of_flatten {A} (a : list (list A)) x :
  x ∈ Arr.flatten a ↔ ∃ i j, Arr.at2 a i j = Some x.
Proof.
  unfold Arr.flatten, Arr.at2.
  rewrite list_elem_of_In, in_concat. split.
  - intros (row & [i Hi]%list_elem_of_In%list_elem_of_lookup
                & [j Hj]%list_elem_of_In%list_elem_of_lookup).
    exists i, j. by rewrite Hi.
  - intros (i & j & H). destruct (a !! i) as [row|] eqn:Hi; [|done].
    exists row. split; apply list_elem_of_In, list_elem_of_lookup; eauto.
Qed.

Lemma is_matrix_get_radial_dist h w scaleyx cenyx :
  Arr.is_matrix h w (get_radial_dist (h, w) scaleyx cenyx).
Proof.
  unfold get_radial_dist.
  pose proof (is_matrix_indices h w) as [Hy Hx].
  by apply is_matrix_zip2d.
Qed.

Lemma get_radial_dist_nonneg shape scaleyx cenyx i j r :
  Arr.at2 (get_radial_dist shape scaleyx cenyx) i j = Some r → 0 <= r.
Proof.
  unfold get_radial_dist.
  intros (y & x & _ & _ & ->)%at2_zip2d_inv. apply sqrt_pos.
Qed.





End RadialContrastProps.

(** *** A one-row image with three pixels and three edges *)

Section RadialContrastExample.
Local Open Scope R_scope.


Lemma mapM_Some_map {A B} (f : A → option B) (g : A → B) l :
  (∀ x, f x = Some (g x)) → mapM f l = Some (map g l).
Proof.
  intros H. induction l as [|x l IH]; [done|].
  cbn [mapM map]. rewrite H, IH. done.
Qed.

Lemma get_radial_contrast_steps im mask nbins cenyx radial rmax bins digrad
    m :
  get_radial_dist (length im, Mat.ncols im) (1, 1) cenyx = radial →
  Mat.max (Arr.flatten radial) = Some rmax →
  NpR.linspace 0 rmax nbins = bins →
  digitize2d radial bins = digrad →
  broadcast_mask (length im) (Mat.ncols im) mask = Some m →
  get_radial_contrast im mask nbins cenyx =
    Some (bins,
          map (λ i,
                 NpBins.mean
                   (Np.select im
                      (NpR.zip2d (λ d (b : bool), (d =? i)%nat && b)
                                 digrad m)))
              (NpBins.unique (Arr.flatten digrad))).
Proof.
  intros <- Hmax <- <- Hm. unfold get_radial_contrast.
  rewrite Hmax. cbn [mbind option_bind].
  erewrite mapM_Some_map; [done|].
  intros i. unfold bin_values. by rewrite Hm.
Qed.







End RadialContrastExample.

(** * Part III: further properties of the routines *)

(** ** create_circ_mask *)

Section CircMaskProps.
Local Open Scope R_scope.

Lemma Rleb_true a b : Rleb a b = true ↔ a <= b.
Proof. unfold Rleb. destruct (Rle_dec a b); split; (done || lra). Qed.

Lemma Rltb_true a b : Rltb a b = true ↔ a < b.
Proof. unfold Rltb. destruct (Rlt_dec a b); split; (done || lra). Qed.

(** Entry [(i, j)] of the mask with explicit centre and radius. *)
Lemma at2_create_circ_mask h w c r i j :
  (i < h)%nat → (j < w)%nat →
  Arr.at2 (create_circ_mask h w (Some c) (Some r)) i j
    = Some (Rleb (sqrt ((INR j - c.1 + 1 / 2) ^ 2
                        + (INR i - c.2 + 1 / 2) ^ 2)) r).
Proof.
  intros Hi Hj. unfold create_circ_mask.
  pose proof (at2_meshgrid (map INR (seq 0 w)) (map INR (seq 0 h)) i j
                (INR j) (INR i) (lookup_tabulate INR w j Hj)
                (lookup_tabulate INR h i Hi)) as [HX HY].
  destruct (NpR.meshgrid _ _) as [X Y]. simpl in HX, HY.
  rewrite at2_map2d.
  by erewrite at2_zip2d; [|exact HX|exact HY].
Qed.

Lemma is_matrix_create_circ_mask h w center radius :
  Arr.is_matrix h w (create_circ_mask h w center radius).
Proof.
  unfold create_circ_mask.
  pose proof (is_matrix_meshgrid (map INR (seq 0 w)) (map INR (seq 0 h)))
    as [HX HY].
  rewrite !length_map, !length_seq in HX, HY.
  destruct (NpR.meshgrid _ _) as [X Y]. simpl in HX, HY.
  by apply is_matrix_map2d, is_matrix_zip2d.
Qed.

Lemma at2_in_range {A} r c (a : list (list A)) i j x :
  Arr.is_matrix r c a → Arr.at2 a i j = Some x → (i < r)%nat ∧ (j < c)%nat.
Proof.
  intros [Hl Hr] H. unfold Arr.at2 in H.
  destruct (a !! i) as [row|] eqn:Hrow; [|done]. simpl in H.
  pose proof (proj1 (Forall_lookup _ _) Hr i row Hrow) as Hlen.
  apply lookup_lt_Some in Hrow, H. simpl in Hlen. lia.
Qed.

(** Membership in the disc, by distance and by squared distance. *)
Lemma create_circ_mask_iff h w c r i j :
  Arr.at2 (create_circ_mask h w (Some c) (Some r)) i j = Some true ↔
  (i < h)%nat ∧ (j < w)%nat ∧
  sqrt ((INR j - c.1 + 1 / 2) ^ 2 + (INR i - c.2 + 1 / 2) ^ 2) <= r.
Proof.
  pose proof (is_matrix_create_circ_mask h w (Some c) (Some r)) as Hm.
  split.
  - intros H. destruct (at2_in_range _ _ _ _ _ _ Hm H) as [Hi Hj].
    rewrite at2_create_circ_mask in H by done.
    injection H as H%Rleb_true. done.
  - intros (Hi & Hj & H). rewrite at2_create_circ_mask by done.
    f_equal. by apply Rleb_true.
Qed.

Lemma create_circ_mask_iff_sq h w c r i j :
  0 <= r →
  Arr.at2 (create_circ_mask h w (Some c) (Some r)) i j = Some true ↔
  (i < h)%nat ∧ (j < w)%nat ∧
  (INR j - c.1 + 1 / 2) ^ 2 + (INR i - c.2 + 1 / 2) ^ 2 <= r ^ 2.
Proof.
  intros Hr. rewrite create_circ_mask_iff.
  set (q := (INR j - c.1 + 1 / 2) ^ 2 + (INR i - c.2 + 1 / 2) ^ 2).
  assert (Hq : 0 <= q)
    by (apply Rplus_le_le_0_compat; apply pow2_ge_0).
  assert (sqrt q <= r ↔ q <= r ^ 2); [|tauto].
  split; intros H.
  - rewrite <- (sqrt_sqrt q Hq). pose proof (sqrt_pos q). nra.
  - rewrite <- (sqrt_pow2 r Hr). by apply sqrt_le_1_alt.
Qed.

(** X1. [create_circ_mask] returns an [(h, w)] mask; pixel [(i, j)] is
    in it exactly when it is a pixel of the grid and its half-pixel
    shifted distance to the centre is at most [radius]: for [radius >= 0]
    when [(j - cx + 1/2)^2 + (i - cy + 1/2)^2 <= radius^2], and never for
    a negative [radius]. *)
Theorem X1_create_circ_mask_membership h w c r :
  Arr.is_matrix h w (create_circ_mask h w (Some c) (Some r)) ∧
  (∀ i j,
     Arr.at2 (create_circ_mask h w (Some c) (Some r)) i j = Some true ↔
     (i < h)%nat ∧ (j < w)%nat ∧
     sqrt ((INR j - c.1 + 1 / 2) ^ 2 + (INR i - c.2 + 1 / 2) ^ 2) <= r) ∧
  (0 <= r → ∀ i j,
     Arr.at2 (create_circ_mask h w (Some c) (Some r)) i j = Some true ↔
     (i < h)%nat ∧ (j < w)%nat ∧
     (INR j - c.1 + 1 / 2) ^ 2 + (INR i - c.2 + 1 / 2) ^ 2 <= r ^ 2) ∧
  (r < 0 → ∀ i j,
     Arr.at2 (create_circ_mask h w (Some c) (Some r)) i j ≠ Some true).
Proof.
  split; [apply is_matrix_create_circ_mask|].
  split; [intros i j; apply create_circ_mask_iff|]. split.
  - intros Hr i j. by apply create_circ_mask_iff_sq.
  - intros Hr i j (_ & _ & H)%create_circ_mask_iff.
    pose proof (sqrt_pos ((INR j - c.1 + 1 / 2) ^ 2
                          + (INR i - c.2 + 1 / 2) ^ 2)). lra.
Qed.

(** X2. The mask grows with the radius: a pixel inside the disc of
    radius [r] is inside the disc of every radius [r' >= r] about the
    same centre. *)
Theorem X2_create_circ_mask_monotone h w c r r' i j :
  r <= r' →
  Arr.at2 (create_circ_mask h w (Some c) (Some r)) i j = Some true →
  Arr.at2 (create_circ_mask h w (Some c) (Some r')) i j = Some true.
Proof.
  intros Hr (Hi & Hj & H)%create_circ_mask_iff.
  apply create_circ_mask_iff. split; [done|]. split; [done|]. lra.
Qed.

Lemma INR_half_even k : INR (2 * k / 2) = INR k.
Proof. by rewrite Nat.mul_comm, Nat.div_mul. Qed.

(** The default centre and radius on an even square grid of side [2k]:
    centre [(k, k)], radius [k]. *)
Lemma create_circ_mask_default_even k :
  create_circ_mask (2 * k) (2 * k) None None
    = create_circ_mask (2 * k) (2 * k) (Some (INR k, INR k)) (Some (INR k)).
Proof.
  unfold create_circ_mask. rewrite INR_half_even. simpl fst. simpl snd.
  replace (INR (2 * k) - INR k) with (INR k)
    by (rewrite mult_INR; simpl; lra).
  assert (Hm : Rmin (INR k) (INR k) = INR k) by (apply Rmin_left; lra).
  by rewrite !Hm.
Qed.

(** X3. With the defaults on a square grid of even side [n = 2k], the
    disc is centred on the grid and inscribed in it: pixel [(i, j)] is in
    the mask when [(j - k + 1/2)^2 + (i - k + 1/2)^2 <= k^2], and the
    mask is unchanged by flipping the rows or the columns. *)
Theorem X3_create_circ_mask_default_even k :
  (∀ i j,
     Arr.at2 (create_circ_mask (2 * k) (2 * k) None None) i j = Some true ↔
     (i < 2 * k)%nat ∧ (j < 2 * k)%nat ∧
     (INR j - INR k + 1 / 2) ^ 2 + (INR i - INR k + 1 / 2) ^ 2
       <= INR k ^ 2) ∧
  (∀ i j, (i < 2 * k)%nat → (j < 2 * k)%nat →
     Arr.at2 (create_circ_mask (2 * k) (2 * k) None None) (2 * k - 1 - i) j
       = Arr.at2 (create_circ_mask (2 * k) (2 * k) None None) i j ∧
     Arr.at2 (create_circ_mask (2 * k) (2 * k) None None) i (2 * k - 1 - j)
       = Arr.at2 (create_circ_mask (2 * k) (2 * k) None None) i j).
Proof.
  rewrite create_circ_mask_default_even. split.
  - intros i j.
    apply (create_circ_mask_iff_sq (2 * k) (2 * k) (INR k, INR k) (INR k)).
    apply pos_INR.
  - intros i j Hi Hj.
    assert (Hflip : ∀ a, (a < 2 * k)%nat →
              INR (2 * k - 1 - a) - INR k + 1 / 2
                = - (INR a - INR k + 1 / 2)).
    { intros a Ha. rewrite !minus_INR, mult_INR by lia. simpl. lra. }
    rewrite !at2_create_circ_mask by lia. simpl fst. simpl snd.
    rewrite (Hflip i Hi), (Hflip j Hj).
    split; do 3 f_equal; ring.
Qed.
End CircMaskProps.

Lemma X2_create_circ_mask_monotone_witness :
  (1 <= 2)%R ∧
  Arr.at2 (create_circ_mask 2 2 (Some ((1 / 2)%R, (1 / 2)%R)) (Some 2%R)) 0 0
    = Some true.
Proof.
  split; [lra|].
  apply (X2_create_circ_mask_monotone 2 2 ((1 / 2)%R, (1 / 2)%R) 1 2 0 0).
  - lra.
  - apply create_circ_mask_iff_sq; [lra|].
    split; [lia|]. split; [lia|]. simpl. lra.
Defined.

(** ** masked_rms *)

Section MaskedRmsProps.
Local Open Scope R_scope.

Lemma select1_map {A B} (f : A → B) vals mask :
  Np.select1 (map f vals) mask = map f (Np.select1 vals mask).
Proof.
  revert mask. induction vals as [|v vals IH]; intros [|b mask]; simpl;
    try done.
  destruct b; simpl; by rewrite IH.
Qed.

Lemma flatten_map2d {A B} (f : A → B) a :
  Arr.flatten (NpR.map2d f a) = map f (Arr.flatten a).
Proof.
  unfold Arr.flatten, NpR.map2d. induction a as [|row a IH]; simpl; [done|].
  by rewrite IH, map_app.
Qed.

Lemma Rsum_nonneg l : Forall (λ x, 0 <= x) l → 0 <= Mat.Rsum l.
Proof.
  induction 1 as [|x l Hx Hl IH]; [simpl; lra|].
  change (Mat.Rsum (x :: l)) with (x + Mat.Rsum l). lra.
Qed.

Lemma Rsum_scale c l : Mat.Rsum (map (Rmult c) l) = c * Mat.Rsum l.
Proof.
  induction l as [|x l IH]; [simpl; lra|].
  change (Mat.Rsum (map (Rmult c) (x :: l)))
    with (c * x + Mat.Rsum (map (Rmult c) l)).
  change (Mat.Rsum (x :: l)) with (x + Mat.Rsum l). rewrite IH. lra.
Qed.

Lemma Rsum_const c l :
  Forall (λ x, x = c) l → Mat.Rsum l = INR (length l) * c.
Proof.
  induction 1 as [|x l -> Hl IH]; [simpl; lra|].
  change (Mat.Rsum (c :: l)) with (c + Mat.Rsum l).
  rewrite IH. change (length (c :: l)) with (S (length l)).
  rewrite S_INR. lra.
Qed.

Lemma masked_rms_selected image mask :
  masked_rms image mask =
    match (match mask with
           | None => Arr.flatten image
           | Some m => Np.select image m
           end) with
    | [] => None
    | sel => Some (rms_of sel)
    end.
Proof.
  unfold masked_rms, rms_of.
  destruct (match mask with None => _ | Some m => _ end) as [|x sel];
    [done|].
  simpl. by rewrite length_map.
Qed.

Lemma rms_of_const v l :
  l ≠ [] → Forall (λ x, x = v) l → rms_of l = Rabs v.
Proof.
  intros Hne Hall. unfold rms_of.
  rewrite (Rsum_const (v ^ 2)), length_map.
  - assert (INR (length l) ≠ 0).
    { apply not_0_INR. destruct l; [done|simpl; lia]. }
    replace (INR (length l) * v ^ 2 / INR (length l)) with (Rsqr v)
      by (unfold Rsqr; by field).
    apply sqrt_Rsqr_abs.
  - apply Forall_map. eapply Forall_impl; [exact Hall|].
    by intros x ->.
Qed.

Lemma rms_of_scale c l :
  rms_of (map (Rmult c) l) = Rabs c * rms_of l.
Proof.
  unfold rms_of. rewrite !length_map, map_map.
  rewrite (map_ext _ (λ x, c ^ 2 * x ^ 2)) by (intros; ring).
  rewrite <- (map_map (λ x, x ^ 2) (Rmult (c ^ 2))), Rsum_scale.
  replace (c ^ 2 * Mat.Rsum (map (λ x, x ^ 2) l) / INR (length l))
    with (Rsqr c * (Mat.Rsum (map (λ x, x ^ 2) l) / INR (length l)))
    by (unfold Rsqr, Rdiv; ring).
  rewrite sqrt_mult_alt by apply Rle_0_sqr.
  by rewrite sqrt_Rsqr_abs.
Qed.

(** X4. [masked_rms] is [nan] when nothing is selected, and [|v|] when
    the selection is not empty and every selected value is [v]: in
    particular on a constant image, under any mask that selects a pixel.
    With no mask the whole image is selected. *)
Theorem X4_masked_rms_constant image mask v :
  (Np.select image mask = [] → masked_rms image (Some mask) = None) ∧
  (Np.select image mask ≠ [] →
   Forall (λ x, x = v) (Np.select image mask) →
   masked_rms image (Some mask) = Some (Rabs v)) ∧
  (Arr.flatten image ≠ [] → Forall (Forall (λ x, x = v)) image →
   masked_rms image None = Some (Rabs v)).
Proof.
  split; [|split].
  - intros H. by rewrite masked_rms_selected, H.
  - intros Hne Hall. rewrite masked_rms_selected.
    destruct (Np.select image mask) as [|x sel] eqn:E; [done|].
    f_equal. by apply rms_of_const.
  - intros Hne Hall. rewrite masked_rms_selected.
    assert (Hflat : Forall (λ x, x = v) (Arr.flatten image)).
    { unfold Arr.flatten. clear Hne.
      induction Hall as [|row a Hrow Ha IH]; simpl; [constructor|].
      by apply Forall_app. }
    destruct (Arr.flatten image) as [|x sel] eqn:E; [done|].
    f_equal. by apply rms_of_const.
Qed.

(** X5. Scaling the image by [c] scales the masked rms by [|c|]. *)
Theorem X5_masked_rms_scale image mask c :
  masked_rms (NpR.map2d (Rmult c) image) mask
    = (λ r, Rabs c * r) <$> masked_rms image mask.
Proof.
  rewrite !masked_rms_selected.
  assert (Hsel :
    match mask with
    | None => Arr.flatten (NpR.map2d (Rmult c) image)
    | Some m => Np.select (NpR.map2d (Rmult c) image) m
    end
    = map (Rmult c) match mask with
                    | None => Arr.flatten image
                    | Some m => Np.select image m
                    end).
  { destruct mask as [m|]; [|apply flatten_map2d].
    unfold Np.select. by rewrite flatten_map2d, select1_map. }
  rewrite Hsel. clear Hsel.
  generalize (match mask with
              | None => Arr.flatten image
              | Some m => Np.select image m
              end).
  intros [|x sel]; [reflexivity|].
  change (map (Rmult c) (x :: sel)) with (c * x :: map (Rmult c) sel).
  cbn [fmap option_fmap option_map]. f_equal.
  change (c * x :: map (Rmult c) sel) with (map (Rmult c) (x :: sel)).
  apply rms_of_scale.
Qed.
End MaskedRmsProps.

Example masked_rms_const_3 :
  masked_rms [[3; 3]; [3; 3]]%R (Some mask22) = Some (Rabs 3).
Proof.
  rewrite masked_rms_selected. cbn. f_equal.
  apply rms_of_const; [done|]. by repeat constructor.
Qed.

(** ** create_probe_poke_modes *)

Section PokeModesProps.
Context {A : Type} (zero one : A).

(** An index is accepted exactly in [-n, n), and read modulo [n]. *)
Lemma norm_index_Some n i k :
  norm_index n i = Some k ↔
  (- Z.of_nat n ≤ i < Z.of_nat n)%Z ∧ k = Z.to_nat (i `mod` Z.of_nat n).
Proof.
  unfold norm_index.
  destruct (Z.leb_spec 0 i) as [H0|H0];
  destruct (Z.ltb_spec i (Z.of_nat n)) as [H1|H1]; cbn [andb].
  - rewrite Z.mod_small by lia. split.
    + intros [= <-]. split; [lia|done].
    + by intros [_ ->].
  - replace ((- Z.of_nat n <=? i)%Z && (i <? 0)%Z) with false
      by (symmetry; apply andb_false_iff; right; apply Z.ltb_ge; lia).
    split; [done|]. intros [? _]. lia.
  - destruct (Z.leb_spec (- Z.of_nat n) i) as [H2|H2];
    destruct (Z.ltb_spec i 0) as [H3|H3]; cbn [andb]; try lia.
    + rewrite <- (Z.mod_unique i (Z.of_nat n) (-1) (i + Z.of_nat n)) by lia.
      split.
      * intros [= <-]. split; [lia|done].
      * by intros [_ ->].
    + split; [done|]. intros [? _]. lia.
  - lia.
Qed.

Lemma norm_index_None n i :
  norm_index n i = None ↔ ¬ (- Z.of_nat n ≤ i < Z.of_nat n)%Z.
Proof.
  destruct (norm_index n i) as [k|] eqn:E.
  - apply norm_index_Some in E as [H _]. split; [done|]. tauto.
  - split; [|done]. intros _ H.
    assert (norm_index n i = Some (Z.to_nat (i `mod` Z.of_nat n)))
      by (by apply norm_index_Some).
    congruence.
Qed.

(** One poke on the zero grid. *)
Lemma at2_poke n row col i j :
  (row < n)%nat → (col < n)%nat → (i < n)%nat → (j < n)%nat →
  Arr.at2 (alter (λ r, <[col := one]> r) row (Arr.zeros zero n n)) i j
    = Some (if (i =? row)%nat && (j =? col)%nat then one else zero).
Proof.
  intros Hrow Hcol Hi Hj. unfold Arr.at2.
  destruct (Nat.eqb_spec i row) as [->|Hne]; simpl.
  - rewrite list_lookup_alter_eq. unfold Arr.zeros.
    rewrite lookup_replicate_2 by done. simpl.
    destruct (Nat.eqb_spec j col) as [->|Hne].
    + apply list_lookup_insert_eq. by rewrite length_replicate.
    + rewrite list_lookup_insert_ne by done. by apply lookup_replicate_2.
  - rewrite list_lookup_alter_ne by done. by apply at2_zeros.
Qed.

Lemma square_poke n row col :
  Arr.square n (alter (λ r, <[col := one]> r) row (Arr.zeros zero n n)).
Proof.
  destruct (is_matrix_zeros zero n n) as [Hl Hr]. split.
  - by rewrite length_alter.
  - apply Forall_alter; [done|]. intros r _ Hlen.
    by rewrite length_insert.
Qed.

(** X6. [create_probe_poke_modes] raises exactly when some index of some
    pair lies outside [-Nact, Nact).  Otherwise it returns one
    [Nact]-by-[Nact] mode per pair [(x, y)], in order, which is [one] at
    row [y] and column [x] (a negative index counting from the end) and
    [zero] everywhere else. *)
Theorem X6_create_probe_poke_modes Nact (poke_indices : list (Z * Z)) :
  (create_probe_poke_modes zero one Nact poke_indices = None ↔
   ∃ xy, xy ∈ poke_indices ∧
         ¬ ((- Z.of_nat Nact ≤ xy.1 < Z.of_nat Nact)%Z ∧
            (- Z.of_nat Nact ≤ xy.2 < Z.of_nat Nact)%Z)) ∧
  (∀ modes,
     create_probe_poke_modes zero one Nact poke_indices = Some modes →
     length modes = length poke_indices ∧
     ∀ k xy mode,
       poke_indices !! k = Some xy → modes !! k = Some mode →
       Arr.square Nact mode ∧
       ∀ i j, (i < Nact)%nat → (j < Nact)%nat →
         Arr.at2 mode i j =
           Some (if (i =? Z.to_nat (xy.2 `mod` Z.of_nat Nact))%nat
                    && (j =? Z.to_nat (xy.1 `mod` Z.of_nat Nact))%nat
                 then one else zero)).
Proof.
  unfold create_probe_poke_modes. split.
  - rewrite mapM_None, Exists_exists. split.
    + intros (xy & Hin & Hf). exists xy. split; [done|].
      intros [Hx Hy].
      destruct (norm_index Nact xy.2) as [row|] eqn:Er;
        [|by apply norm_index_None in Er].
      destruct (norm_index Nact xy.1) as [col|] eqn:Ec;
        [|by apply norm_index_None in Ec].
      done.
    + intros (xy & Hin & Hf). exists xy. split; [done|].
      destruct (norm_index Nact xy.2) as [row|] eqn:Er; [|done].
      destruct (norm_index Nact xy.1) as [col|] eqn:Ec; [|done].
      apply norm_index_Some in Er as [Hy _].
      apply norm_index_Some in Ec as [Hx _]. tauto.
  - intros modes Hm. split; [symmetry; by eapply length_mapM|].
    intros k xy mode Hxy Hmode.
    apply mapM_Some_1 in Hm.
    destruct (Forall2_lookup_l _ _ _ k xy Hm Hxy) as (mode' & Hm' & Hb).
    rewrite Hmode in Hm'. injection Hm' as <-.
    destruct (norm_index Nact xy.2) as [row|] eqn:Er; [|done].
    destruct (norm_index Nact xy.1) as [col|] eqn:Ec; [|done].
    simpl in Hb. injection Hb as <-.
    apply norm_index_Some in Er as [Hy ->].
    apply norm_index_Some in Ec as [Hx ->].
    split; [apply square_poke|].
    intros i j Hi Hj. apply at2_poke; [| |done|done].
    + pose proof (Z.mod_pos_bound xy.2 (Z.of_nat Nact)). lia.
    + pose proof (Z.mod_pos_bound xy.1 (Z.of_nat Nact)). lia.
Qed.
End PokeModesProps.

Example create_probe_poke_modes_spec_example :
  create_probe_poke_modes 0%Z 1%Z 4 [(1, 2)%Z] =
    Some [[[0; 0; 0; 0]; [0; 0; 0; 0]; [0; 1; 0; 0]; [0; 0; 0; 0]]]%Z.
Proof. reflexivity. Qed.

Example create_probe_poke_modes_negative_index :
  create_probe_poke_modes 0%Z 1%Z 2 [(-1, 0)%Z] = Some [[[0; 1]; [0; 0]]]%Z.
Proof. reflexivity. Qed.

Example create_probe_poke_modes_out_of_range :
  create_probe_poke_modes 0%Z 1%Z 2 [(0, 0); (2, 0)]%Z = None.
Proof. reflexivity. Qed.

(** ** pad_or_crop: entries and composition *)

Section PadOrCropMore.
Context {A : Type} (zero : A).
Implicit Types (arr : list (list A)).

Lemma square_ext n (a b : list (list A)) :
  Arr.square n a → Arr.square n b →
  (∀ i j, i < n → j < n → Arr.at2 a i j = Arr.at2 b i j) → a = b.
Proof.
  intros [Hla Hra] [Hlb Hrb] Hat. apply list_eq. intros i.
  destruct (decide (i < n)) as [Hi|Hi].
  - destruct (lookup_lt_is_Some_2 a i) as [ra Ha]; [lia|].
    destruct (lookup_lt_is_Some_2 b i) as [rb Hb]; [lia|].
    rewrite Ha, Hb. f_equal. apply list_eq. intros j.
    pose proof (proj1 (Forall_lookup _ _) Hra i ra Ha) as Hlra.
    pose proof (proj1 (Forall_lookup _ _) Hrb i rb Hb) as Hlrb.
    simpl in *.
    destruct (decide (j < n)) as [Hj|Hj].
    + specialize (Hat i j Hi Hj). unfold Arr.at2 in Hat.
      by rewrite Ha, Hb in Hat.
    + rewrite (proj2 (lookup_ge_None ra j)), (proj2 (lookup_ge_None rb j));
        (done || lia).
  - rewrite (proj2 (lookup_ge_None a i)), (proj2 (lookup_ge_None b i));
      (done || lia).
Qed.

(** Output pixel [i] is input pixel [i + n//2 - m//2]. *)
Lemma at2_pad_or_crop arr n m i j :
  Arr.square n arr → i < m → j < m →
  Arr.at2 (pad_or_crop zero arr m) i j =
    zero_extended zero arr n
      (Z.of_nat i + Z.of_nat (n / 2) - Z.of_nat (m / 2))
      (Z.of_nat j + Z.of_nat (n / 2) - Z.of_nat (m / 2)).
Proof.
  intros Hsq Hi Hj. pose proof Hsq as [Hlen _]. unfold zero_extended.
  halves n m.
  destruct (lt_eq_lt_dec n m) as [[Hlt|Heq]|Hgt].
  - rewrite (pad_or_crop_pad zero arr n m) by done.
    rewrite (at2_assign_block m n) by (done || apply is_matrix_zeros || lia).
    destruct (Nat.leb_spec (m / 2 - n / 2) i),
             (Nat.ltb_spec i (m / 2 - n / 2 + n)),
             (Nat.leb_spec (m / 2 - n / 2) j),
             (Nat.ltb_spec j (m / 2 - n / 2 + n));
      destruct (Z.leb_spec 0
                  (Z.of_nat i + Z.of_nat (n / 2) - Z.of_nat (m / 2))),
               (Z.ltb_spec
                  (Z.of_nat i + Z.of_nat (n / 2) - Z.of_nat (m / 2))
                  (Z.of_nat n)),
               (Z.leb_spec 0
                  (Z.of_nat j + Z.of_nat (n / 2) - Z.of_nat (m / 2))),
               (Z.ltb_spec
                  (Z.of_nat j + Z.of_nat (n / 2) - Z.of_nat (m / 2))
                  (Z.of_nat n));
      cbn [andb]; try lia; try (by apply at2_zeros).
    f_equal; lia.
  - subst m. rewrite pad_or_crop_same by done.
    destruct (Z.leb_spec 0
                (Z.of_nat i + Z.of_nat (n / 2) - Z.of_nat (n / 2))),
             (Z.ltb_spec
                (Z.of_nat i + Z.of_nat (n / 2) - Z.of_nat (n / 2))
                (Z.of_nat n)),
             (Z.leb_spec 0
                (Z.of_nat j + Z.of_nat (n / 2) - Z.of_nat (n / 2))),
             (Z.ltb_spec
                (Z.of_nat j + Z.of_nat (n / 2) - Z.of_nat (n / 2))
                (Z.of_nat n));
      cbn [andb]; try lia.
    f_equal; lia.
  - rewrite (pad_or_crop_crop zero arr n m) by done.
    rewrite at2_slice2 by done.
    destruct (Z.leb_spec 0
                (Z.of_nat i + Z.of_nat (n / 2) - Z.of_nat (m / 2))),
             (Z.ltb_spec
                (Z.of_nat i + Z.of_nat (n / 2) - Z.of_nat (m / 2))
                (Z.of_nat n)),
             (Z.leb_spec 0
                (Z.of_nat j + Z.of_nat (n / 2) - Z.of_nat (m / 2))),
             (Z.ltb_spec
                (Z.of_nat j + Z.of_nat (n / 2) - Z.of_nat (m / 2))
                (Z.of_nat n));
      cbn [andb]; try lia.
    f_equal; lia.
Qed.

(** X7. For a square array of side [n], [pad_or_crop] returns a square
    array of the requested side [m] whose pixel [(i, j)] is pixel
    [(i + n//2 - m//2, j + n//2 - m//2)] of the input when that is a
    pixel of the input, and zero otherwise. *)
Theorem X7_pad_or_crop_entries arr n m :
  Arr.square n arr →
  Arr.square m (pad_or_crop zero arr m) ∧
  ∀ i j, i < m → j < m →
    Arr.at2 (pad_or_crop zero arr m) i j =
      zero_extended zero arr n
        (Z.of_nat i + Z.of_nat (n / 2) - Z.of_nat (m / 2))
        (Z.of_nat j + Z.of_nat (n / 2) - Z.of_nat (m / 2)).
Proof.
  intros Hsq. split; [by apply (pad_or_crop_square zero arr n)|].
  intros i j Hi Hj. by apply at2_pad_or_crop.
Qed.

(** X8. Resizing in two steps is resizing in one step whenever the
    intermediate side [m] is at least the side of the input or at least
    the final side [k]: padding further, cropping further, and padding
    then cropping lose nothing. *)
Theorem X8_pad_or_crop_compose arr n m k :
  Arr.square n arr → n ≤ m ∨ k ≤ m →
  pad_or_crop zero (pad_or_crop zero arr m) k = pad_or_crop zero arr k.
Proof.
  intros Hsq Hm.
  pose proof (pad_or_crop_square zero arr n m Hsq) as Hsqm.
  apply (square_ext k).
  - by apply (pad_or_crop_square zero _ m).
  - by apply (pad_or_crop_square zero _ n).
  - intros i j Hi Hj.
    rewrite (at2_pad_or_crop _ m k), (at2_pad_or_crop _ n k) by done.
    unfold zero_extended.
    halves n m. halves k k.
    set (pi := (Z.of_nat i + Z.of_nat (m / 2) - Z.of_nat (k / 2))%Z).
    set (pj := (Z.of_nat j + Z.of_nat (m / 2) - Z.of_nat (k / 2))%Z).
    set (qi := (Z.of_nat i + Z.of_nat (n / 2) - Z.of_nat (k / 2))%Z).
    set (qj := (Z.of_nat j + Z.of_nat (n / 2) - Z.of_nat (k / 2))%Z).
    destruct (Z.leb_spec 0 pi), (Z.ltb_spec pi (Z.of_nat m)),
             (Z.leb_spec 0 pj), (Z.ltb_spec pj (Z.of_nat m));
      cbn [andb].
    1:{ rewrite (at2_pad_or_crop _ n m) by (done || lia).
        unfold zero_extended.
        replace (Z.of_nat (Z.to_nat pi) + Z.of_nat (n / 2)
                 - Z.of_nat (m / 2))%Z with qi by lia.
        replace (Z.of_nat (Z.to_nat pj) + Z.of_nat (n / 2)
                 - Z.of_nat (m / 2))%Z with qj by lia.
        done. }
    all: destruct (Z.leb_spec 0 qi), (Z.ltb_spec qi (Z.of_nat n)),
                  (Z.leb_spec 0 qj), (Z.ltb_spec qj (Z.of_nat n));
      cbn [andb]; (done || lia).
Qed.
End PadOrCropMore.

Lemma X7_pad_or_crop_entries_witness :
  Arr.square 3 arr3 ∧ Arr.square 5 (pad_or_crop 0%Z arr3 5).
Proof.
  assert (Hsq : Arr.square 3 arr3).
  { split; [reflexivity|]. repeat constructor. }
  split; [exact Hsq|].
  exact (proj1 (X7_pad_or_crop_entries 0%Z arr3 3 5 Hsq)).
Defined.

Lemma X8_pad_or_crop_compose_witness :
  Arr.square 3 arr3 ∧
  pad_or_crop 0%Z (pad_or_crop 0%Z arr3 6) 4 = pad_or_crop 0%Z arr3 4.
Proof.
  assert (Hsq : Arr.square 3 arr3).
  { split; [reflexivity|]. repeat constructor. }
  split; [exact Hsq|].
  apply (X8_pad_or_crop_compose 0%Z arr3 3 6 4 Hsq). left. lia.
Defined.

(** ** map_acts_to_dm: reading the command back *)

Section MapActsRoundTrip.
Context {A : Type} (zero : A).

(** Boolean-mask selection reads the positions that [where] lists. *)
Lemma select1_where_from (mask : list bool) (vals : list A) o :
  length mask ≤ length vals →
  (λ i, vals !! (i - o)) <$> Np.where_from o mask
    = Some <$> Np.select1 vals mask.
Proof.
  revert vals o. induction mask as [|b mask IH]; intros vals o Hlen.
  - by destruct vals.
  - destruct vals as [|v vals]; [simpl in Hlen; lia|].
    simpl in Hlen.
    assert (Htail : (λ i, (v :: vals) !! (i - o)) <$> Np.where_from (S o) mask
                    = Some <$> Np.select1 vals mask).
    { rewrite <- (IH vals (S o)) by lia.
      apply list_fmap_ext. intros k i Hi.
      apply list_elem_of_lookup_2, where_from_lower in Hi.
      replace (i - o) with (S (i - S o)) by lia. done. }
    simpl. destruct b; simpl.
    + rewrite Nat.sub_diag. simpl. f_equal. exact Htail.
    + exact Htail.
Qed.

Lemma select1_where (mask : list bool) (vals : list A) :
  length mask ≤ length vals →
  (λ i, vals !! i) <$> Np.where_ mask = Some <$> Np.select1 vals mask.
Proof.
  intros Hlen. rewrite <- (select1_where_from mask vals 0 Hlen).
  apply list_fmap_ext. intros k i _. by rewrite Nat.sub_0_r.
Qed.

(** X9. Round trip: when [len(actuators)] is the number of True entries
    of the [(Nact, Nact)] mask, selecting the returned command with the
    mask, [command[dm_mask]], gives [actuators] back. *)
Theorem X9_map_acts_to_dm_select actuators dm_mask Nact :
  Arr.square Nact dm_mask →
  length actuators = Np.mask_sum dm_mask →
  ∃ command,
    map_acts_to_dm zero actuators dm_mask Nact = Some command ∧
    Np.select command dm_mask = actuators.
Proof.
  intros Hsq Hlen.
  destruct (map_acts_to_dm_scatter zero actuators actuators dm_mask Nact
              Hsq Hlen) as (command & Hc & Hsqc & Hread & _).
  { apply put_same_length; [by apply where_mask_in_range|].
    by rewrite length_where_mask. }
  exists command. split; [done|].
  unfold Np.select.
  rewrite select1_where in Hread.
  - by apply (inj (fmap Some)) in Hread.
  - by rewrite (length_flatten Nact Nact dm_mask),
               (length_flatten Nact Nact command).
Qed.
End MapActsRoundTrip.

Lemma X9_map_acts_to_dm_select_witness :
  Arr.square 2 mask22 ∧ length [5; 6]%Z = Np.mask_sum mask22 ∧
  ∃ command,
    map_acts_to_dm 0%Z [5; 6]%Z mask22 2 = Some command ∧
    Np.select command mask22 = [5; 6]%Z.
Proof.
  assert (Hsq : Arr.square 2 mask22).
  { split; [reflexivity|]. repeat constructor. }
  split; [exact Hsq|]. split; [reflexivity|].
  apply (X9_map_acts_to_dm_select 0%Z [5; 6]%Z mask22 2 Hsq). reflexivity.
Defined.

(** ** fourier_mode: amplitude and phase *)

Section FourierModeMore.
Local Open Scope R_scope.

Lemma Forall2d_at2 {A} (P : A → Prop) r c (a : list (list A)) :
  Arr.is_matrix r c a →
  (∀ i j v, Arr.at2 a i j = Some v → P v) → Forall (Forall P) a.
Proof.
  intros _ H. apply Forall_lookup. intros i row Hrow.
  apply Forall_lookup. intros j v Hv. apply (H i j).
  unfold Arr.at2. by rewrite Hrow.
Qed.

(** X10. Whatever the phase, no entry of [fourier_mode] exceeds
    [|rms| * sqrt 2] in absolute value. *)
Theorem X10_fourier_mode_amplitude l rms a Nact phase :
  Forall (Forall (λ v, Rabs v <= Rabs rms * sqrt 2))
         (fourier_mode l rms a Nact phase).
Proof.
  apply (Forall2d_at2 _ Nact Nact); [apply fourier_mode_square|].
  intros i j v Hv.
  destruct (at2_in_range _ _ _ _ _ _
              (fourier_mode_square l rms a Nact phase) Hv) as [Hi Hj].
  rewrite at2_fourier_mode in Hv by done. injection Hv as <-.
  rewrite !Rabs_mult, (Rabs_pos_eq (sqrt 2)) by apply sqrt_pos.
  pose proof (COS_bound (fourier_arg l a i j + phase)) as [Hlo Hhi].
  assert (Rabs (cos (fourier_arg l a i j + phase)) <= 1)
    by (apply Rabs_le; lra).
  rewrite <- (Rmult_1_r (Rabs rms * sqrt 2)) at 2.
  apply Rmult_le_compat_l; [|done].
  apply Rmult_le_pos; [apply Rabs_pos|apply sqrt_pos].
Qed.

(** X11. Every phase is a combination of the two quadratures that
    [fourier_mode] itself returns:
    [fourier_mode(phase) = cos(phase) * fourier_mode(0)
                         + sin(phase) * fourier_mode(pi/2)],
    entry by entry. *)
Theorem X11_fourier_mode_quadratures l rms a Nact phase :
  fourier_mode l rms a Nact phase =
    NpR.zip2d (λ c s, cos phase * c + sin phase * s)
              (fourier_mode l rms a Nact 0)
              (fourier_mode l rms a Nact (PI / 2)).
Proof.
  apply (square_ext Nact).
  - apply fourier_mode_square.
  - apply is_matrix_zip2d; apply fourier_mode_square.
  - intros i j Hi Hj.
    erewrite at2_zip2d;
      [|by apply fourier_mode_phase_0|by apply fourier_mode_phase_half_pi].
    rewrite at2_fourier_mode by done. f_equal.
    rewrite cos_plus. ring.
Qed.
End FourierModeMore.

(** ** create_sinc_probe / create_sinc_probes: errors, shapes, masking *)

Section SincProbeMore.
Local Open Scope R_scope.

Lemma is_matrix_sinc_grids Nacts (off : R * R) :
  Arr.square Nacts
    (NpR.meshgrid
       (map (λ v, v / INR Nacts - NpR.round off.1 / INR Nacts)
            (NpR.arange (- (INR Nacts - 1) / 2) ((INR Nacts + 1) / 2)))
       (map (λ v, v / INR Nacts - NpR.round off.2 / INR Nacts)
            (NpR.arange (- (INR Nacts - 1) / 2) ((INR Nacts + 1) / 2)))).1 ∧
  Arr.square Nacts
    (NpR.meshgrid
       (map (λ v, v / INR Nacts - NpR.round off.1 / INR Nacts)
            (NpR.arange (- (INR Nacts - 1) / 2) ((INR Nacts + 1) / 2)))
       (map (λ v, v / INR Nacts - NpR.round off.2 / INR Nacts)
            (NpR.arange (- (INR Nacts - 1) / 2) ((INR Nacts + 1) / 2)))).2.
Proof.
  pose proof (is_matrix_meshgrid
    (map (λ v, v / INR Nacts - NpR.round off.1 / INR Nacts)
         (NpR.arange (- (INR Nacts - 1) / 2) ((INR Nacts + 1) / 2)))
    (map (λ v, v / INR Nacts - NpR.round off.2 / INR Nacts)
         (NpR.arange (- (INR Nacts - 1) / 2) ((INR Nacts + 1) / 2))))
    as H.
  by rewrite !length_acts in H.
Qed.

Lemma create_sinc_probe_None Nacts amp probe_radius probe_phase offset
    bad_axis :
  create_sinc_probe Nacts amp probe_radius probe_phase offset bad_axis
    = None ↔
  probe_phase ≠ 0 ∧ bad_axis ≠ "x"%string ∧ bad_axis ≠ "y"%string.
Proof.
  unfold create_sinc_probe.
  destruct (NpR.meshgrid _ _) as [Xacts Yacts].
  destruct (Req_dec_T probe_phase 0) as [Hp|Hp]; [split; [done|tauto]|].
  destruct (String.eqb_spec bad_axis "x") as [Hx|Hx];
    [split; [done|tauto]|].
  destruct (String.eqb_spec bad_axis "y") as [Hy|Hy];
    [split; [done|tauto]|].
  done.
Qed.

Lemma create_sinc_probe_square Nacts amp probe_radius probe_phase offset
    bad_axis probe :
  create_sinc_probe Nacts amp probe_radius probe_phase offset bad_axis
    = Some probe →
  Arr.square Nacts probe.
Proof.
  unfold create_sinc_probe.
  pose proof (is_matrix_sinc_grids Nacts offset) as [HX HY].
  destruct (NpR.meshgrid _ _) as [Xacts Yacts]. simpl in HX, HY.
  destruct (Req_dec_T probe_phase 0) as [Hp|Hp].
  { intros [= <-]. by apply is_matrix_zip2d. }
  destruct (String.eqb_spec bad_axis "x") as [Hx|Hx].
  { intros [= <-]. by apply is_matrix_zip2d. }
  destruct (String.eqb_spec bad_axis "y") as [Hy|Hy]; [|done].
  intros [= <-]. by apply is_matrix_zip2d.
Qed.

(** The entries of the probe at phase 0. *)
Lemma sinc_probe_phase_0_entries Nacts amp probe_radius offset bad_axis :
  ∃ probe,
    create_sinc_probe Nacts amp probe_radius 0 offset bad_axis = Some probe ∧
    ∀ i j, (i < Nacts)%nat → (j < Nacts)%nat →
      Arr.at2 probe i j =
        Some (amp
              * NpR.sinc (2 * probe_radius * act_coord Nacts offset.1 j)
              * NpR.sinc (2 * probe_radius * act_coord Nacts offset.2 i)).
Proof.
  unfold create_sinc_probe.
  set (xacts := map (λ v, v / INR Nacts - NpR.round offset.1 / INR Nacts) _).
  set (yacts := map (λ v, v / INR Nacts - NpR.round offset.2 / INR Nacts) _).
  pose proof (λ i j x y, at2_meshgrid xacts yacts i j x y) as Hat.
  destruct (NpR.meshgrid xacts yacts) as [Xacts Yacts]. simpl in Hat.
  destruct (Req_dec_T 0 0) as [_|Hne]; [|done].
  eexists. split; [done|]. intros i j Hi Hj.
  destruct (Hat i j _ _ (lookup_acts Nacts offset.1 j Hj)
                        (lookup_acts Nacts offset.2 i Hi)) as [Hx Hy].
  by erewrite at2_zip2d; [|exact Hx|exact Hy].
Qed.

(** X12. [create_sinc_probe] raises exactly when [probe_phase] is not 0
    and [bad_axis] is neither ['x'] nor ['y'] (no branch has assigned the
    probe); whenever it returns, the probe is [Nacts]-by-[Nacts]. *)
Theorem X12_create_sinc_probe_errors Nacts amp probe_radius probe_phase
    offset bad_axis :
  (create_sinc_probe Nacts amp probe_radius probe_phase offset bad_axis
     = None ↔
   probe_phase ≠ 0 ∧ bad_axis ≠ "x"%string ∧ bad_axis ≠ "y"%string) ∧
  (∀ probe,
     create_sinc_probe Nacts amp probe_radius probe_phase offset bad_axis
       = Some probe →
     Arr.square Nacts probe).
Proof.
  split; [apply create_sinc_probe_None|].
  intros probe. apply create_sinc_probe_square.
Qed.

(** The loop of [create_sinc_probes], one probe per index. *)
Lemma create_sinc_probes_loop Npairs Nact dm_mask amp probe_radius offset :
  (1 ≤ Npairs)%nat →
  create_sinc_probes Npairs Nact dm_mask amp probe_radius offset =
    mapM (λ i : nat,
            probe ← create_sinc_probe Nact amp probe_radius
                       (INR i * PI / INR Npairs) offset
                       (if Nat.even i then "x"%string else "y"%string);
            Some (mul_mask probe dm_mask))
         (seq 0 Npairs).
Proof.
  intros Hpos. unfold create_sinc_probes.
  destruct (Nat.eqb_spec Npairs 0) as [?|_]; [lia|].
  apply Forall_mapM_ext, Forall_forall.
  intros i [_ Hi]%elem_of_seq. simpl in Hi.
  rewrite lookup_probe_phases by lia. by rewrite mod2_even.
Qed.

Lemma at2_mul_mask Nact probe dm_mask i j b :
  Arr.square Nact probe → (i < Nact)%nat → (j < Nact)%nat →
  Arr.at2 dm_mask i j = Some b →
  ∃ x, Arr.at2 probe i j = Some x ∧
       Arr.at2 (mul_mask probe dm_mask) i j
         = Some (x * (if b then 1 else 0)).
Proof.
  intros [Hl Hr] Hi Hj Hb.
  destruct (lookup_lt_is_Some_2 probe i) as [row Hrow]; [lia|].
  pose proof (proj1 (Forall_lookup _ _) Hr i row Hrow) as Hlen.
  simpl in Hlen.
  destruct (lookup_lt_is_Some_2 row j) as [x Hx]; [lia|].
  assert (Hat : Arr.at2 probe i j = Some x)
    by (unfold Arr.at2; by rewrite Hrow).
  exists x. split; [done|]. unfold mul_mask.
  by erewrite at2_zip2d; [|exact Hat|exact Hb].
Qed.

(** X13. [create_sinc_probes] raises exactly when [Npairs = 0].
    Otherwise, for a mask of shape [(Nact, Nact)], every probe it
    returns is [Nact]-by-[Nact] and is 0 wherever the mask is False; and
    the first probe, whose phase is exactly 0, is always the pure
    product [amp * sinc(2 r X) * sinc(2 r Y)] on the mask, without
    cosine factor. *)
Theorem X13_create_sinc_probes_masked Npairs Nact dm_mask amp probe_radius
    offset :
  Arr.square Nact dm_mask →
  (create_sinc_probes Npairs Nact dm_mask amp probe_radius offset = None ↔
   Npairs = 0%nat) ∧
  (∀ probes,
     create_sinc_probes Npairs Nact dm_mask amp probe_radius offset
       = Some probes →
     (∀ k probe, probes !! k = Some probe →
        Arr.square Nact probe ∧
        ∀ i j, Arr.at2 dm_mask i j = Some false →
               Arr.at2 probe i j = Some 0) ∧
     (∃ probe0, probes !! 0%nat = Some probe0 ∧
        ∀ i j b, Arr.at2 dm_mask i j = Some b →
          Arr.at2 probe0 i j =
            Some (amp
                  * NpR.sinc (2 * probe_radius * act_coord Nact offset.1 j)
                  * NpR.sinc (2 * probe_radius * act_coord Nact offset.2 i)
                  * (if b then 1 else 0)))).
Proof.
  intros Hmask. split.
  - split.
    + intros Hnone.
      destruct (decide (Npairs = 0%nat)) as [?|Hne]; [done|].
      rewrite create_sinc_probes_loop in Hnone by lia.
      apply mapM_None_1, Exists_exists in Hnone as (i & _ & Hi).
      destruct (create_sinc_probe_xy_Some Nact amp probe_radius
                  (INR i * PI / INR Npairs) offset (Nat.even i)) as [p Hp].
      by rewrite Hp in Hi.
    + by intros ->.
  - intros probes Hprobes.
    assert (Hpos : (1 ≤ Npairs)%nat).
    { destruct Npairs; [done|lia]. }
    rewrite create_sinc_probes_loop in Hprobes by done.
    pose proof (length_mapM _ _ _ Hprobes) as Hlen.
    rewrite length_seq in Hlen.
    apply mapM_Some_1 in Hprobes.
    assert (Hk : ∀ k probe, probes !! k = Some probe →
              ∃ p, create_sinc_probe Nact amp probe_radius
                     (INR k * PI / INR Npairs) offset
                     (if Nat.even k then "x"%string else "y"%string)
                     = Some p ∧
                   Arr.square Nact p ∧ probe = mul_mask p dm_mask).
    { intros k probe Hprobe.
      destruct (Forall2_lookup_r _ _ _ k probe Hprobes Hprobe)
        as (i & Hi & Hb).
      apply lookup_seq in Hi as [-> _]. simpl in Hb.
      destruct (create_sinc_probe _ _ _ _ _ _) as [p|] eqn:Ep; [|done].
      simpl in Hb. injection Hb as <-. exists p. split; [done|].
      split; [|done].
      by eapply create_sinc_probe_square. }
    split.
    + intros k probe Hprobe.
      destruct (Hk k probe Hprobe) as (p & _ & Hp & ->). split.
      * apply is_matrix_zip2d; [done|done].
      * intros i j Hb.
        destruct (at2_in_range _ _ _ _ _ _ Hmask Hb) as [Hi Hj].
        destruct (at2_mul_mask Nact p dm_mask i j false Hp Hi Hj Hb)
          as (x & _ & ->). f_equal. lra.
    + destruct (lookup_lt_is_Some_2 probes 0) as [probe0 H0]; [lia|].
      exists probe0. split; [done|]. intros i j b Hb.
      destruct (Hk 0%nat probe0 H0) as (p & Hp & Hsq & ->).
      destruct (at2_in_range _ _ _ _ _ _ Hmask Hb) as [Hi Hj].
      destruct (at2_mul_mask Nact p dm_mask i j b Hsq Hi Hj Hb)
        as (x & Hx & ->).
      replace (INR 0 * PI / INR Npairs) with 0 in Hp
        by (simpl; unfold Rdiv; ring).
      destruct (sinc_probe_phase_0_entries Nact amp probe_radius offset
                  "x"%string) as (p' & Hp' & Hent).
      simpl in Hp. rewrite Hp in Hp'. injection Hp' as <-.
      rewrite (Hent i j Hi Hj) in Hx. by injection Hx as <-.
Qed.
End SincProbeMore.

Lemma X13_create_sinc_probes_masked_witness :
  Arr.square 2 mask22 ∧
  (create_sinc_probes 0 2 mask22 1 10 (0%R, 0%R) = None ↔ 0 = 0).
Proof.
  assert (Hsq : Arr.square 2 mask22).
  { split; [reflexivity|]. repeat constructor. }
  split; [exact Hsq|].
  exact (proj1 (X13_create_sinc_probes_masked 0 2 mask22 1 10 (0%R, 0%R)
                  Hsq)).
Defined.

(** ** get_hadamard_modes: errors, the first mode, orthogonality *)

Section HadamardMore.

(** What [get_hadamard_modes] returns on a non-empty square mask. *)
Lemma get_hadamard_modes_Some (dm_mask : list (list bool)) n :
  Arr.square n dm_mask → 0 < Np.mask_sum dm_mask →
  get_hadamard_modes dm_mask =
    Some ((λ hrow, Np.scatter (replicate (n * n) 0%Z)
                              (Np.where_ (Arr.flatten dm_mask))
                              (take (Np.mask_sum dm_mask) hrow))
            <$> hadamard_pow (Nat.log2_up (Np.mask_sum dm_mask))).
Proof.
  intros Hsq Hpos.
  set (Nacts := Np.mask_sum dm_mask) in *.
  set (lg := Nat.log2_up Nacts).
  set (inds := Np.where_ (Arr.flatten dm_mask)).
  pose proof (pow2_log2_up_ge Nacts Hpos) as Hge. fold lg in Hge.
  pose proof (hadamard_pow_shape lg) as [Hhl Hhr].
  assert (Hin : Forall (λ i, i < length (replicate (n * n) 0%Z)) inds).
  { apply Forall_forall. intros i Hi%where_in_range.
    rewrite length_replicate.
    by rewrite (length_flatten n n) in Hi. }
  unfold get_hadamard_modes. fold Nacts lg inds.
  destruct (Nat.eqb_spec Nacts 0); [lia|].
  rewrite hadamard_pow2.
  destruct Hsq as [Hlen _]. rewrite Hlen.
  replace (n ^ 2) with (n * n) by (simpl; lia).
  cbn [mbind option_bind].
  apply mapM_Some_2, Forall2_fmap_r, Forall_Forall2_diag.
  apply Forall_forall. intros hrow Hrow.
  apply put_same_length; [done|].
  rewrite length_take. unfold inds.
  rewrite (length_where_mask dm_mask). fold Nacts.
  pose proof (proj1 (Forall_forall _ _) Hhr hrow Hrow) as Hl.
  simpl in Hl. lia.
Qed.

(** X14. On a square mask, [get_hadamard_modes] raises exactly when the
    mask has no True entry. *)
Theorem X14_get_hadamard_modes_error (dm_mask : list (list bool)) n :
  Arr.square n dm_mask →
  (get_hadamard_modes dm_mask = None ↔ Np.mask_sum dm_mask = 0).
Proof.
  intros Hsq. split.
  - intros Hnone. destruct (Np.mask_sum dm_mask) as [|k] eqn:E; [done|].
    rewrite (get_hadamard_modes_Some dm_mask n) in Hnone; [done|done|lia].
  - intros H. unfold get_hadamard_modes. by rewrite H.
Qed.

Lemma hadamard_pow_first_row k :
  hadamard_pow k !! 0 = Some (replicate (2 ^ k) 1%Z).
Proof.
  induction k as [|k IH]; [done|].
  simpl hadamard_pow. unfold hadamard_step.
  destruct (hadamard_pow k) as [|h H] eqn:E; [done|].
  simpl in IH. injection IH as ->. simpl.
  f_equal. rewrite <- replicate_add. f_equal. lia.
Qed.

(** Writing ones at the True positions of a mask gives its indicator. *)
Lemma scatter_ones_indicator (m : list bool) :
  Np.scatter (replicate (length m) 0%Z) (Np.where_ m)
             (replicate (length (Np.where_ m)) 1%Z)
    = map (λ b : bool, if b then 1%Z else 0%Z) m.
Proof.
  apply list_eq. intros p.
  change (map ?f m) with (f <$> m). rewrite list_lookup_fmap.
  destruct (m !! p) as [b|] eqn:Hp; simpl.
  - destruct b.
    + pose proof (proj2 (elem_of_where m p) Hp) as Hin.
      apply list_elem_of_lookup in Hin as [k Hk].
      apply (scatter_lookup_index _ _ _ k);
        [apply NoDup_where_from| |done|].
      * apply Forall_forall. intros i Hi%where_in_range.
        by rewrite length_replicate.
      * apply lookup_replicate_2. by eapply lookup_lt_Some.
    + rewrite scatter_lookup_other.
      * apply lookup_replicate_2. by eapply lookup_lt_Some.
      * rewrite elem_of_where. congruence.
  - apply lookup_ge_None. rewrite length_scatter, length_replicate.
    by apply lookup_ge_None.
Qed.

(** X15. The first Hadamard mode is the piston on the active actuators:
    1 at every True position of the mask and 0 elsewhere. *)
Theorem X15_get_hadamard_modes_first (dm_mask : list (list bool)) n :
  Arr.square n dm_mask → 0 < Np.mask_sum dm_mask →
  ∃ modes, get_hadamard_modes dm_mask = Some modes ∧
           modes !! 0 = Some (indicator dm_mask).
Proof.
  intros Hsq Hpos. eexists. split; [by apply (get_hadamard_modes_Some _ n)|].
  rewrite list_lookup_fmap, hadamard_pow_first_row. simpl. f_equal.
  rewrite take_replicate.
  pose proof (pow2_log2_up_ge _ Hpos).
  replace (Np.mask_sum dm_mask `min` 2 ^ Nat.log2_up (Np.mask_sum dm_mask))
    with (Np.mask_sum dm_mask) by lia.
  rewrite <- (length_where_mask dm_mask).
  rewrite <- (length_flatten n n dm_mask Hsq).
  apply scatter_ones_indicator.
Qed.
End HadamardMore.

Lemma X14_get_hadamard_modes_error_witness :
  Arr.square 2 mask_3_of_4 ∧
  (get_hadamard_modes mask_3_of_4 = None ↔ Np.mask_sum mask_3_of_4 = 0).
Proof.
  assert (Hsq : Arr.square 2 mask_3_of_4).
  { split; [reflexivity|]. repeat constructor. }
  split; [exact Hsq|].
  exact (X14_get_hadamard_modes_error mask_3_of_4 2 Hsq).
Defined.

Lemma X15_get_hadamard_modes_first_witness :
  Arr.square 2 mask_3_of_4 ∧ 0 < Np.mask_sum mask_3_of_4 ∧
  ∃ modes, get_hadamard_modes mask_3_of_4 = Some modes ∧
           modes !! 0 = Some (indicator mask_3_of_4).
Proof.
  assert (Hsq : Arr.square 2 mask_3_of_4).
  { split; [reflexivity|]. repeat constructor. }
  assert (Hpos : 0 < Np.mask_sum mask_3_of_4) by (vm_compute; lia).
  split; [exact Hsq|]. split; [exact Hpos|].
  exact (X15_get_hadamard_modes_first mask_3_of_4 2 Hsq Hpos).
Defined.

Section HadamardOrthogonal.

Lemma dotZ_app (a b c d : list Z) :
  length a = length c →
  dotZ (a ++ b) (c ++ d) = (dotZ a c + dotZ b d)%Z.
Proof.
  revert c. induction a as [|x a IH]; intros [|y c] Hlen;
    simpl in Hlen; try lia.
  - unfold dotZ. simpl. lia.
  - specialize (IH c ltac:(lia)). unfold dotZ in *. simpl. lia.
Qed.

Lemma dotZ_opp_r (a c : list Z) :
  dotZ a (map Z.opp c) = (- dotZ a c)%Z.
Proof.
  revert c. induction a as [|x a IH]; intros [|y c]; try done.
  specialize (IH c). unfold dotZ in *. simpl. lia.
Qed.

Lemma dotZ_opp_l (a c : list Z) :
  dotZ (map Z.opp a) c = (- dotZ a c)%Z.
Proof.
  revert c. induction a as [|x a IH]; intros [|y c]; try done.
  specialize (IH c). unfold dotZ in *. simpl. lia.
Qed.

(** The rows of one Sylvester step. *)
Lemma lookup_hadamard_step H r :
  hadamard_step H !! r =
    if decide (r < length H) then (λ h, h ++ h) <$> H !! r
    else (λ h, h ++ map Z.opp h) <$> H !! (r - length H).
Proof.
  unfold hadamard_step.
  assert (Hl : length (zip_with app H H) = length H)
    by (rewrite length_zip_with; lia).
  destruct (decide (r < length H)) as [Hr|Hr].
  - rewrite lookup_app_l by lia. rewrite lookup_zip_with.
    by destruct (H !! r).
  - rewrite lookup_app_r by lia. rewrite Hl, lookup_zip_with.
    change (map (map Z.opp) H) with (map Z.opp <$> H).
    rewrite list_lookup_fmap. by destruct (H !! (r - length H)).
Qed.

(** Distinct rows of a Sylvester matrix are orthogonal; a row has squared
    norm the order of the matrix. *)
Lemma hadamard_pow_orthogonal k r s hr hs :
  hadamard_pow k !! r = Some hr → hadamard_pow k !! s = Some hs →
  dotZ hr hs = if decide (r = s) then Z.of_nat (2 ^ k) else 0%Z.
Proof.
  revert r s hr hs. induction k as [|k IH]; intros r s hr hs Hr Hs.
  - destruct r as [|r]; [|done]. destruct s as [|s]; [|done].
    simpl in Hr, Hs. by injection Hr as <-; injection Hs as <-.
  - simpl hadamard_pow in Hr, Hs. rewrite lookup_hadamard_step in Hr, Hs.
    pose proof (hadamard_pow_shape k) as [Hl Hrows].
    rewrite Hl in Hr, Hs.
    assert (Hlen : ∀ i h, hadamard_pow k !! i = Some h → length h = 2 ^ k).
    { intros i h Hh. by apply (proj1 (Forall_lookup _ _) Hrows i h). }
    replace (2 ^ S k) with (2 * 2 ^ k) by (simpl; lia).
    destruct (decide (r < 2 ^ k)) as [Hr1|Hr1],
             (decide (s < 2 ^ k)) as [Hs1|Hs1].
    + destruct (hadamard_pow k !! r) as [a|] eqn:Ea; [|done].
      destruct (hadamard_pow k !! s) as [c|] eqn:Ec; [|done].
      simpl in Hr, Hs. injection Hr as <-. injection Hs as <-.
      rewrite dotZ_app by (by rewrite (Hlen _ a Ea), (Hlen _ c Ec)).
      rewrite (IH r s a c Ea Ec).
      destruct (decide (r = s)); lia.
    + destruct (hadamard_pow k !! r) as [a|] eqn:Ea; [|done].
      destruct (hadamard_pow k !! (s - 2 ^ k)) as [c|] eqn:Ec; [|done].
      simpl in Hr, Hs. injection Hr as <-. injection Hs as <-.
      rewrite dotZ_app by (by rewrite (Hlen _ a Ea), (Hlen _ c Ec)).
      rewrite dotZ_opp_r.
      destruct (decide (r = s)); lia.
    + destruct (hadamard_pow k !! (r - 2 ^ k)) as [a|] eqn:Ea; [|done].
      destruct (hadamard_pow k !! s) as [c|] eqn:Ec; [|done].
      simpl in Hr, Hs. injection Hr as <-. injection Hs as <-.
      rewrite dotZ_app by (by rewrite (Hlen _ a Ea), (Hlen _ c Ec)).
      rewrite dotZ_opp_l.
      destruct (decide (r = s)); lia.
    + destruct (hadamard_pow k !! (r - 2 ^ k)) as [a|] eqn:Ea; [|done].
      destruct (hadamard_pow k !! (s - 2 ^ k)) as [c|] eqn:Ec; [|done].
      simpl in Hr, Hs. injection Hr as <-. injection Hs as <-.
      rewrite dotZ_app by (by rewrite (Hlen _ a Ea), (Hlen _ c Ec)).
      rewrite dotZ_opp_l, dotZ_opp_r.
      rewrite (IH _ _ a c Ea Ec).
      destruct (decide (r - 2 ^ k = s - 2 ^ k)), (decide (r = s)); lia.
Qed.

(** Scattering on zeros at the True positions is [expand]. *)
Lemma scatter_expand (m : list bool) (vals pre : list Z) :
  length vals = sum_list (map (λ b : bool, if b then 1 else 0) m) →
  Np.scatter (pre ++ replicate (length m) 0%Z)
             (Np.where_from (length pre) m) vals
    = pre ++ expand m vals.
Proof.
  revert vals pre. induction m as [|b m IH]; intros vals pre Hlen.
  - simpl. by destruct vals.
  - destruct b; simpl in Hlen.
    + destruct vals as [|v vals]; [simpl in Hlen; lia|].
      simpl in Hlen. simpl.
      rewrite insert_app_r_alt by lia. rewrite Nat.sub_diag. simpl.
      rewrite (cons_middle v), app_assoc.
      replace (S (length pre)) with (length (pre ++ [v]))
        by (rewrite length_app; simpl; lia).
      rewrite IH by lia. by rewrite <- app_assoc.
    + simpl. rewrite (cons_middle 0%Z), app_assoc.
      replace (S (length pre)) with (length (pre ++ [0%Z]))
        by (rewrite length_app; simpl; lia).
      rewrite IH by lia. by rewrite <- app_assoc.
Qed.

Lemma dotZ_expand (m : list bool) (u v : list Z) :
  length u = sum_list (map (λ b : bool, if b then 1 else 0) m) →
  length v = sum_list (map (λ b : bool, if b then 1 else 0) m) →
  dotZ (expand m u) (expand m v) = dotZ u v.
Proof.
  revert u v. induction m as [|b m IH]; intros u v Hu Hv.
  - destruct u, v; simpl in *; done.
  - destruct b; simpl in Hu, Hv.
    + destruct u as [|x u]; [simpl in Hu; lia|].
      destruct v as [|y v]; [simpl in Hv; lia|].
      simpl in Hu, Hv. specialize (IH u v ltac:(lia) ltac:(lia)).
      unfold dotZ in *. simpl. lia.
    + specialize (IH u v Hu Hv). unfold dotZ in *. simpl. lia.
Qed.

(** X16. When the number of active actuators is a power of two,
    [Nacts = 2^k], the [2^k] Hadamard modes are mutually orthogonal and
    each has squared norm [Nacts]: the inner product of modes [r] and
    [s] is [Nacts] for [r = s] and 0 otherwise. *)
Theorem X16_get_hadamard_modes_orthogonal (dm_mask : list (list bool)) n k :
  Arr.square n dm_mask → Np.mask_sum dm_mask = 2 ^ k →
  ∃ modes,
    get_hadamard_modes dm_mask = Some modes ∧
    length modes = 2 ^ k ∧
    ∀ r s mr ms, modes !! r = Some mr → modes !! s = Some ms →
      dotZ mr ms = if decide (r = s) then Z.of_nat (2 ^ k) else 0%Z.
Proof.
  intros Hsq Hsum.
  assert (Hpos : 0 < Np.mask_sum dm_mask).
  { rewrite Hsum. pose proof (Nat.pow_nonzero 2 k). lia. }
  eexists. split; [by apply (get_hadamard_modes_Some _ n)|].
  rewrite Hsum, Nat.log2_up_pow2 by lia.
  pose proof (hadamard_pow_shape k) as [Hl Hrows].
  split; [by rewrite length_fmap|].
  intros r s mr ms Hr Hs. rewrite list_lookup_fmap in Hr, Hs.
  destruct (hadamard_pow k !! r) as [hr|] eqn:Er; [|done].
  destruct (hadamard_pow k !! s) as [hs|] eqn:Es; [|done].
  simpl in Hr, Hs. injection Hr as <-. injection Hs as <-.
  pose proof (proj1 (Forall_lookup _ _) Hrows r hr Er) as Hlr.
  pose proof (proj1 (Forall_lookup _ _) Hrows s hs Es) as Hls.
  simpl in Hlr, Hls.
  rewrite !take_ge by lia.
  pose proof (length_flatten n n dm_mask Hsq) as Hflat.
  assert (Hcount : sum_list (map (λ b : bool, if b then 1 else 0)
                                 (Arr.flatten dm_mask)) = 2 ^ k) by done.
  pose proof (scatter_expand (Arr.flatten dm_mask) hr [] ltac:(lia)) as Hsr.
  pose proof (scatter_expand (Arr.flatten dm_mask) hs [] ltac:(lia)) as Hss.
  simpl in Hsr, Hss. rewrite Hflat in Hsr, Hss.
  unfold Np.where_. rewrite Hsr, Hss.
  rewrite dotZ_expand by lia.
  by apply hadamard_pow_orthogonal.
Qed.
End HadamardOrthogonal.

Lemma X16_get_hadamard_modes_orthogonal_witness :
  Arr.square 2 mask_4_of_4 ∧ Np.mask_sum mask_4_of_4 = 2 ^ 2 ∧
  ∃ modes,
    get_hadamard_modes mask_4_of_4 = Some modes ∧ length modes = 2 ^ 2.
Proof.
  assert (Hsq : Arr.square 2 mask_4_of_4).
  { split; [reflexivity|]. repeat constructor. }
  split; [exact Hsq|]. split; [reflexivity|].
  destruct (X16_get_hadamard_modes_orthogonal mask_4_of_4 2 2 Hsq eq_refl)
    as (modes & Hm & Hl & _).
  exists modes. by split.
Defined.

(** ** Control matrices: errors and special cases *)

Section ControlMatrixMore.
Local Open Scope R_scope.
Variable inv : Mat.matrix → option Mat.matrix.
Variable svd : Mat.matrix → Mat.matrix * list R * Mat.matrix.

Lemma ncols_diag_of_vec w : Mat.ncols (Mat.diag_of_vec w) = length w.
Proof.
  unfold Mat.diag_of_vec. destruct w as [|x w]; [done|].
  simpl. by rewrite length_map, length_seq.
Qed.

Lemma dot_None (a b : Mat.matrix) :
  Mat.ncols a ≠ length b → Mat.dot a b = None.
Proof.
  intros H. unfold Mat.dot. by destruct (Nat.eqb_spec (Mat.ncols a) (length b)).
Qed.

(** X17. [WeightedLeastSquares] raises (the product [W.dot(A)] is not
    conformable) whenever the number of weights, the positive entries of
    [weight_map] taken [max(nprobes, 1)] times, differs from the number
    of rows of [A]: in particular when [weight_map] has no positive
    entry and [A] has a row. *)
Theorem X17_WeightedLeastSquares_mismatch A weight_map nprobes rcond :
  (length (positive_entries weight_map) * S (nprobes - 1))%nat ≠ length A →
  WeightedLeastSquares inv A weight_map nprobes rcond = None.
Proof.
  intros Hne. unfold WeightedLeastSquares.
  fold (positive_entries weight_map).
  rewrite (dot_None (Mat.diag_of_vec _) A); [reflexivity|].
  by rewrite ncols_diag_of_vec, length_replicated.
Qed.

(** X18. With [rcond = 0] and non-zero singular values the damping
    disappears: [TikhonovInverse(A, 0)] is the plain pseudo-inverse
    [Vt.T . diag(1/s) . U.T]. *)
Theorem X18_TikhonovInverse_rcond_0 A U s Vt :
  svd A = (U, s, Vt) → s ≠ [] → Forall (λ x, x ≠ 0) s →
  TikhonovInverse svd A 0 =
    Mat.dot (Mat.mul_rows (Mat.transpose Vt) (map Rinv s)) (Mat.transpose U).
Proof.
  intros Hsvd Hne Hnz. unfold TikhonovInverse. rewrite Hsvd.
  destruct (Mat.max s) as [smax|] eqn:Hmax; [|by destruct s].
  simpl. do 2 f_equal.
  apply map_ext_in. intros x Hx.
  pose proof (proj1 (Forall_forall _ _) Hnz x
                (proj2 (list_elem_of_In _ _) Hx)) as Hx0.
  simpl in Hx0. by field.
Qed.
End ControlMatrixMore.

Lemma positive_entries_0 : positive_entries [[0%R]] = [].
Proof.
  unfold positive_entries, Np.select. simpl.
  destruct (Rlt_dec 0 0) as [H|_]; [lra|done].
Qed.

Lemma X17_WeightedLeastSquares_mismatch_witness :
  WeightedLeastSquares inv1 [[2%R]] [[0%R]] 2 0 = None.
Proof.
  apply X17_WeightedLeastSquares_mismatch.
  rewrite positive_entries_0. simpl. lia.
Defined.

Lemma X18_TikhonovInverse_rcond_0_witness :
  TikhonovInverse svd1 [[2%R]] 0 =
    Mat.dot (Mat.mul_rows
               (Mat.transpose [[1%R]]) (map Rinv [Rabs 2]))
            (Mat.transpose [[if Rle_dec 0 2 then 1%R else (-1)%R]]).
Proof.
  apply (X18_TikhonovInverse_rcond_0 svd1 [[2%R]]
           [[if Rle_dec 0 2 then 1%R else (-1)%R]] [Rabs 2] [[1%R]]).
  - reflexivity.
  - done.
  - repeat constructor. apply Rabs_no_R0. lra.
Defined.

Section UnitWeights.
Local Open Scope R_scope.
Variable inv : Mat.matrix → option Mat.matrix.

Lemma matrix_ext {A} r c (a b : list (list A)) :
  Arr.is_matrix r c a → Arr.is_matrix r c b →
  (∀ i j, (i < r)%nat → (j < c)%nat → Arr.at2 a i j = Arr.at2 b i j) →
  a = b.
Proof.
  intros [Hla Hra] [Hlb Hrb] Hat. apply list_eq. intros i.
  destruct (decide (i < r)%nat) as [Hi|Hi].
  - destruct (lookup_lt_is_Some_2 a i) as [ra Ha]; [lia|].
    destruct (lookup_lt_is_Some_2 b i) as [rb Hb]; [lia|].
    rewrite Ha, Hb. f_equal. apply list_eq. intros j.
    pose proof (proj1 (Forall_lookup _ _) Hra i ra Ha) as Hlra.
    pose proof (proj1 (Forall_lookup _ _) Hrb i rb Hb) as Hlrb.
    simpl in *.
    destruct (decide (j < c)%nat) as [Hj|Hj].
    + specialize (Hat i j Hi Hj). unfold Arr.at2 in Hat.
      by rewrite Ha, Hb in Hat.
    + rewrite (proj2 (lookup_ge_None ra j)), (proj2 (lookup_ge_None rb j));
        (done || lia).
  - rewrite (proj2 (lookup_ge_None a i)), (proj2 (lookup_ge_None b i));
      (done || lia).
Qed.

Lemma at2_entry r c (a : Mat.matrix) i j :
  Arr.is_matrix r c a → (i < r)%nat → (j < c)%nat →
  Arr.at2 a i j = Some (Mat.entry a i j).
Proof.
  intros [Hl Hr] Hi Hj.
  destruct (lookup_lt_is_Some_2 a i) as [row Hrow]; [lia|].
  pose proof (proj1 (Forall_lookup _ _) Hr i row Hrow) as Hlen.
  simpl in Hlen.
  destruct (lookup_lt_is_Some_2 row j) as [x Hx]; [lia|].
  assert (Hat : Arr.at2 a i j = Some x)
    by (unfold Arr.at2; by rewrite Hrow).
  by rewrite Hat, (entry_at2 a i j x Hat).
Qed.

(** The identity matrix is neutral on the left ... *)
Lemma dot_eye_l M N (a : Mat.matrix) :
  Arr.is_matrix M N a → (0 < M)%nat → (0 < N)%nat →
  Mat.dot (Mat.eye M) a = Some a.
Proof.
  intros Ha HM HN. unfold Mat.dot.
  pose proof (is_matrix_eye M) as HI.
  rewrite (ncols_is_matrix M M _ HI HM), (ncols_is_matrix M N a Ha HM).
  destruct HI as [HIl _]. rewrite HIl.
  pose proof Ha as [Hl _]. rewrite Hl, Nat.eqb_refl. f_equal.
  apply (matrix_ext M N); [|done|].
  - apply (is_matrix_tabulate
             (λ i j, Mat.Rsum (map (λ k, Mat.entry (Mat.eye M) i k
                                         * Mat.entry a k j) (seq 0 M)))).
  - intros i j Hi Hj.
    rewrite (at2_tabulate
               (λ i j, Mat.Rsum (map (λ k, Mat.entry (Mat.eye M) i k
                                           * Mat.entry a k j) (seq 0 M))))
      by done.
    rewrite (at2_entry M N) by done. f_equal.
    rewrite (map_ext_in _
               (λ k, if (k =? i)%nat then Mat.entry a k j else 0)).
    + rewrite Rsum_single. simpl.
      by destruct (Nat.ltb_spec i M); [|lia].
    + intros k [_ Hk]%in_seq. unfold Mat.eye.
      rewrite (entry_tabulate (λ i j, if (i =? j)%nat then 1 else 0))
        by lia.
      rewrite (Nat.eqb_sym i k). destruct (k =? i)%nat; lra.
Qed.

Lemma diag_of_vec_ones M : Mat.diag_of_vec (replicate M 1) = Mat.eye M.
Proof.
  unfold Mat.diag_of_vec, Mat.eye. rewrite length_replicate.
  apply map_ext_in. intros i [_ Hi]%in_seq.
  apply map_ext_in. intros j _.
  destruct (i =? j)%nat; [|done].
  apply nth_lookup_Some, lookup_replicate_2. lia.
Qed.

(** ... and on the right. *)
Lemma dot_eye_r N M (b : Mat.matrix) :
  Arr.is_matrix N M b → (0 < N)%nat → (0 < M)%nat →
  Mat.dot b (Mat.eye M) = Some b.
Proof.
  intros Hb HN HM. rewrite <- diag_of_vec_ones.
  rewrite (dot_diag_of_vec N M) by (done || apply length_replicate).
  f_equal. unfold Mat.mul_rows. destruct Hb as [_ Hr].
  rewrite <- (map_id b) at 2. apply map_ext_in.
  intros row Hrow%list_elem_of_In.
  pose proof (proj1 (Forall_forall _ _) Hr row Hrow) as Hlen.
  simpl in Hlen. clear -Hlen. revert M Hlen.
  induction row as [|x row IH]; intros M Hlen; [done|].
  destruct M as [|M]; [done|]. simpl. f_equal; [lra|].
  apply IH. simpl in Hlen. lia.
Qed.

Lemma select1_all_ones (l : list R) :
  Forall (λ x, x = 1) l →
  Np.select1 l (map (λ x, if Rlt_dec 0 x then true else false) l)
    = replicate (length l) 1.
Proof.
  induction 1 as [|x l -> Hl IH]; [done|]. simpl.
  destruct (Rlt_dec 0 1) as [_|Hn]; [|exfalso; apply Hn; lra].
  by rewrite IH.
Qed.

(** X19. [beta_reg] is the unweighted case of [WeightedLeastSquares]:
    with every weight equal to 1 (as many as [S] has rows), one probe,
    and [rcond = 10^beta], the two routines compute the same matrix
    (and raise together). *)
Theorem X19_beta_reg_is_unit_WeightedLeastSquares S weight_map beta M N :
  Arr.is_matrix M N S → (0 < M)%nat → (0 < N)%nat →
  Forall (Forall (λ x, x = 1)) weight_map →
  length (Arr.flatten weight_map) = M →
  WeightedLeastSquares inv S weight_map 1 (Rpower 10 beta)
    = beta_reg inv S beta.
Proof.
  intros HS HM HN Hones Hlen.
  assert (Hw : positive_entries weight_map = replicate M 1).
  { unfold positive_entries, Np.select. rewrite flatten_map2d.
    rewrite select1_all_ones, Hlen; [done|].
    unfold Arr.flatten. clear Hlen.
    induction Hones as [|row a Hrow Ha IH]; simpl; [constructor|].
    by apply Forall_app. }
  unfold WeightedLeastSquares, beta_reg.
  fold (positive_entries weight_map). rewrite Hw. simpl Nat.iter.
  rewrite diag_of_vec_ones.
  pose proof (is_matrix_transpose M N S HS HM) as HST.
  rewrite (dot_eye_l M N S HS HM HN).
  rewrite (dot_eye_r N M _ HST HN HM).
  cbn [mbind option_bind].
  destruct (dot_shape N M N (Mat.transpose S) S HST HS HN HM)
    as (sts & -> & [Hl Hr]).
  cbn [mbind option_bind].
  destruct (Mat.max (Mat.diag_of_mat sts)) as [m|]; [|done].
  cbn [mbind option_bind].
  rewrite (ncols_is_matrix M N S HS HM), Hl.
  by rewrite (Rmult_comm (Rpower 10 beta) m).
Qed.
End UnitWeights.

Lemma X19_beta_reg_is_unit_WeightedLeastSquares_witness :
  WeightedLeastSquares inv1 [[2%R]] [[1%R]] 1 (Rpower 10 0)
    = beta_reg inv1 [[2%R]] 0.
Proof.
  apply (X19_beta_reg_is_unit_WeightedLeastSquares inv1 [[2%R]] [[1%R]]
           0%R 1 1).
  - apply is_matrix_1_1.
  - lia.
  - lia.
  - by repeat constructor.
  - reflexivity.
Defined.

(** ** get_radial_dist / get_radial_contrast: symmetry, errors, one bin *)

Section RadialMore.
Local Open Scope R_scope.

Lemma at2_get_radial_dist h w (scaleyx : R * R) i j :
  (i < h)%nat → (j < w)%nat →
  Arr.at2 (get_radial_dist (h, w) scaleyx None) i j =
    Some (sqrt ((scaleyx.1 * (INR i - (INR h - 1) / 2)) ^ 2
                + (scaleyx.2 * (INR j - (INR w - 1) / 2)) ^ 2)).
Proof.
  intros Hi Hj. unfold get_radial_dist.
  destruct (at2_indices h w i j Hi Hj) as [Hy Hx].
  by erewrite at2_zip2d; [|exact Hy|exact Hx].
Qed.

(** X20. With the default centre, [get_radial_dist] returns an [(h, w)]
    array of non-negative distances that is unchanged by flipping the
    rows, by flipping the columns, and so by the point reflection about
    the centre [((h-1)/2, (w-1)/2)]. *)
Theorem X20_get_radial_dist_symmetric h w scaleyx :
  Arr.is_matrix h w (get_radial_dist (h, w) scaleyx None) ∧
  Forall (Forall (λ r, 0 <= r)) (get_radial_dist (h, w) scaleyx None) ∧
  ∀ i j, (i < h)%nat → (j < w)%nat →
    Arr.at2 (get_radial_dist (h, w) scaleyx None) (h - 1 - i) j
      = Arr.at2 (get_radial_dist (h, w) scaleyx None) i j ∧
    Arr.at2 (get_radial_dist (h, w) scaleyx None) i (w - 1 - j)
      = Arr.at2 (get_radial_dist (h, w) scaleyx None) i j ∧
    Arr.at2 (get_radial_dist (h, w) scaleyx None) (h - 1 - i) (w - 1 - j)
      = Arr.at2 (get_radial_dist (h, w) scaleyx None) i j.
Proof.
  split; [apply is_matrix_get_radial_dist|]. split.
  - apply (Forall2d_at2 _ h w); [apply is_matrix_get_radial_dist|].
    intros i j v Hv. by eapply get_radial_dist_nonneg.
  - intros i j Hi Hj.
    assert (Hflip : ∀ n a, (a < n)%nat →
              INR (n - 1 - a) - (INR n - 1) / 2
                = - (INR a - (INR n - 1) / 2)).
    { intros n a Ha. rewrite !minus_INR by lia. simpl. lra. }
    rewrite !at2_get_radial_dist by lia.
    rewrite (Hflip h i Hi), (Hflip w j Hj).
    split; [|split]; do 2 f_equal; ring.
Qed.

Lemma at2_is_Some {A} r c (a : list (list A)) i j :
  Arr.is_matrix r c a → (i < r)%nat → (j < c)%nat →
  is_Some (Arr.at2 a i j).
Proof.
  intros [Hl Hr] Hi Hj. unfold Arr.at2.
  destruct (lookup_lt_is_Some_2 a i) as [row Hrow]; [lia|].
  rewrite Hrow. simpl. apply lookup_lt_is_Some_2.
  pose proof (proj1 (Forall_lookup _ _) Hr i row Hrow) as Hlen.
  simpl in Hlen. lia.
Qed.

Lemma first_row_length {A} r c (a : list (list A)) :
  Arr.is_matrix r c a → (0 < r)%nat →
  match a with [] => 0%nat | row :: _ => length row end = c.
Proof.
  intros [Hl Hr] Hpos. destruct a as [|row a]; simpl in *; [lia|].
  by inversion Hr.
Qed.

(** A mask of the image's shape is its own broadcast. *)
Lemma broadcast_mask_same h w mask :
  Arr.is_matrix h w mask → (0 < h)%nat → (0 < w)%nat →
  broadcast_mask h w mask = Some mask.
Proof.
  intros Hm Hh Hw. unfold broadcast_mask.
  rewrite (first_row_length h w mask Hm Hh).
  destruct Hm as [Hl Hr]. rewrite Hl, !Nat.eqb_refl. cbn [orb andb].
  f_equal. symmetry. apply (matrix_ext h w); [done| |].
  - apply (is_matrix_tabulate
             (λ i j, default false
                (Arr.at2 mask (if (h =? 1)%nat then 0%nat else i)
                              (if (w =? 1)%nat then 0%nat else j)))).
  - intros i j Hi Hj.
    rewrite (at2_tabulate
               (λ i j, default false
                  (Arr.at2 mask (if (h =? 1)%nat then 0%nat else i)
                                (if (w =? 1)%nat then 0%nat else j))))
      by done.
    replace (if (h =? 1)%nat then 0%nat else i) with i
      by (destruct (Nat.eqb_spec h 1); lia).
    replace (if (w =? 1)%nat then 0%nat else j) with j
      by (destruct (Nat.eqb_spec w 1); lia).
    by destruct (at2_is_Some h w mask i j (conj Hl Hr) Hi Hj) as [b ->].
Qed.

(** The broadcast fails exactly when a dimension of the mask is neither
    that of the image nor 1. *)
Lemma broadcast_mask_None h w mh mw mask :
  Arr.is_matrix mh mw mask → (0 < h)%nat → (0 < w)%nat →
  (broadcast_mask h w mask = None ↔
   ¬ ((mh = h ∨ mh = 1%nat) ∧ (mw = w ∨ mw = 1%nat))).
Proof.
  intros Hm Hh Hw. unfold broadcast_mask.
  destruct (decide (mh = 0%nat)) as [->|Hmh].
  - destruct Hm as [Hl _]. destruct mask; [|done].
    destruct h as [|h']; [lia|]. simpl. split; [|done].
    intros _ [[?|?] _]; lia.
  - rewrite (first_row_length mh mw mask Hm) by lia.
    destruct Hm as [Hl _]. rewrite Hl.
    destruct (Nat.eqb_spec mh h), (Nat.eqb_spec mh 1),
      (Nat.eqb_spec mw w), (Nat.eqb_spec mw 1); cbn [orb andb];
      (split; [try done; intros _ [[?|?] [?|?]]; lia
              |try done; intros H; exfalso; apply H; split; auto]).
Qed.

Lemma unique_nonempty (l : list nat) : l ≠ [] → NpBins.unique l ≠ [].
Proof.
  destruct l as [|x l]; [done|]. intros _ Hu.
  assert (Hx : x ∈ NpBins.unique (x :: l))
    by (apply elem_of_unique, elem_of_cons; by left).
  rewrite Hu in Hx. by apply elem_of_nil in Hx.
Qed.

Lemma mapM_all_None {A B} (f : A → option B) l :
  l ≠ [] → (∀ x, f x = None) → mapM f l = None.
Proof.
  destruct l as [|x l]; [done|]. intros _ H. cbn [mapM]. by rewrite H.
Qed.

(** X21. For an image of shape [(h, w)] and a boolean mask of shape
    [(mh, mw)], [get_radial_contrast] raises exactly when the image has
    no pixel ([radial.max()] has nothing to reduce) or the mask cannot
    be broadcast to the image (a dimension of the mask is neither that
    of the image nor 1). *)
Theorem X21_get_radial_contrast_error im mask nbins cenyx h w mh mw :
  Arr.is_matrix h w im → Arr.is_matrix mh mw mask →
  (get_radial_contrast im mask nbins cenyx = None ↔
   h = 0%nat ∨ w = 0%nat ∨
   ¬ ((mh = h ∨ mh = 1%nat) ∧ (mw = w ∨ mw = 1%nat))).
Proof.
  intros Him Hmask. unfold get_radial_contrast, bin_values.
  destruct (decide (h = 0%nat)) as [->|Hh].
  { destruct Him as [Hl _]. destruct im; [|done]. simpl.
    split; [by left|done]. }
  rewrite (ncols_is_matrix h w im Him) by lia.
  replace (length im) with h by (by destruct Him).
  pose proof (is_matrix_get_radial_dist h w (1, 1) cenyx) as Hrad.
  set (radial := get_radial_dist (h, w) (1, 1) cenyx) in *.
  pose proof (length_flatten h w _ Hrad) as Hlen.
  destruct (decide (w = 0%nat)) as [->|Hw].
  { destruct (Arr.flatten radial) as [|x l]; [|simpl in Hlen; lia].
    simpl. split; [by right; left|done]. }
  destruct (max_is_Some (Arr.flatten radial)) as [rmax Hmax];
    [rewrite Hlen; nia|].
  rewrite Hmax. cbn [mbind option_bind].
  set (digrad := digitize2d radial (NpR.linspace 0 rmax nbins)).
  assert (Hocc : NpBins.unique (Arr.flatten digrad) ≠ []).
  { apply unique_nonempty. intros Hnil.
    assert (Hd : length (Arr.flatten digrad) = (h * w)%nat).
    { apply length_flatten. unfold digrad, digitize2d.
      by apply is_matrix_map2d. }
    rewrite Hnil in Hd. simpl in Hd. nia. }
  pose proof (broadcast_mask_None h w mh mw mask Hmask
                ltac:(lia) ltac:(lia)) as Hb.
  destruct (broadcast_mask h w mask) as [m|] eqn:Em.
  - erewrite (mapM_Some_map _
               (λ i, NpBins.mean
                       (Np.select im
                          (NpR.zip2d (λ d (b : bool), (d =? i)%nat && b)
                                     digrad m))));
      [|intros i; reflexivity].
    cbn [mbind option_bind]. split; [done|].
    intros [?|[?|Hn]]; [lia|lia|]. by apply Hb in Hn.
  - rewrite mapM_all_None; [|done|intros i; reflexivity].
    split; [|done]. intros _. right. right. by apply Hb.
Qed.

Lemma digitize_single_0 r : 0 <= r → NpBins.digitize r [0] = 1%nat.
Proof. intros Hr. simpl. by destruct (Rle_dec 0 r). Qed.

Lemma unique_replicate n (d : nat) :
  NpBins.unique (replicate (S n) d) = [d].
Proof.
  induction n as [|n IH]; [done|].
  change (NpBins.unique (replicate (S (S n)) d))
    with (NpBins.insert_unique d (NpBins.unique (replicate (S n) d))).
  rewrite IH. simpl. by rewrite Nat.ltb_irrefl, Nat.eqb_refl.
Qed.

(** X22. With a single edge ([nbins = 1]) every pixel falls in bin 1:
    the routine returns the edge [0] and one value, the mean of the
    image over the mask. *)
Theorem X22_get_radial_contrast_one_bin im mask cenyx h w :
  Arr.is_matrix h w im → Arr.is_matrix h w mask →
  (0 < h)%nat → (0 < w)%nat →
  get_radial_contrast im mask 1 cenyx
    = Some ([0], [NpBins.mean (Np.select im mask)]).
Proof.
  intros Him Hmask Hh Hw.
  set (radial := get_radial_dist (h, w) (1, 1) cenyx).
  pose proof (is_matrix_get_radial_dist h w (1, 1) cenyx) as Hrad.
  fold radial in Hrad.
  destruct (max_is_Some (Arr.flatten radial)) as [rmax Hmax].
  { rewrite (length_flatten h w) by done. nia. }
  assert (Hdig : digitize2d radial [0] = NpR.map2d (λ _, 1%nat) radial).
  { apply (matrix_ext h w);
      [by apply is_matrix_map2d|by apply is_matrix_map2d|].
    intros i j Hi Hj. unfold digitize2d. rewrite !at2_map2d.
    destruct (Arr.at2 radial i j) as [r|] eqn:Hr; [|done]. simpl.
    f_equal. apply digitize_single_0. by eapply get_radial_dist_nonneg. }
  assert (Hflat : Arr.flatten (NpR.map2d (λ _ : R, 1%nat) radial)
                  = replicate (h * w) 1%nat).
  { rewrite flatten_map2d. rewrite <- (length_flatten h w radial Hrad).
    generalize (Arr.flatten radial). intros l.
    induction l as [|x l IH]; [done|]. simpl. by rewrite IH. }
  assert (Hsel : NpR.zip2d (λ (d : nat) (b : bool), (d =? 1)%nat && b)
                           (NpR.map2d (λ _ : R, 1%nat) radial) mask = mask).
  { apply (matrix_ext h w); [|done|].
    - apply is_matrix_zip2d; [by apply is_matrix_map2d|done].
    - intros i j Hi Hj.
      destruct Hmask as [Hl Hr].
      destruct (lookup_lt_is_Some_2 mask i) as [row Hrow]; [lia|].
      pose proof (proj1 (Forall_lookup _ _) Hr i row Hrow) as Hlen.
      simpl in Hlen.
      destruct (lookup_lt_is_Some_2 row j) as [b Hb]; [lia|].
      assert (Hat : Arr.at2 mask i j = Some b)
        by (unfold Arr.at2; by rewrite Hrow).
      destruct Hrad as [Hlr Hrr].
      destruct (lookup_lt_is_Some_2 radial i) as [rrow Hrrow]; [lia|].
      pose proof (proj1 (Forall_lookup _ _) Hrr i rrow Hrrow) as Hlen'.
      simpl in Hlen'.
      destruct (lookup_lt_is_Some_2 rrow j) as [r Hrj]; [lia|].
      assert (Hat1 : Arr.at2 (NpR.map2d (λ _ : R, 1%nat) radial) i j
                     = Some 1%nat).
      { rewrite at2_map2d. unfold Arr.at2. rewrite Hrrow. simpl.
        by rewrite Hrj. }
      by erewrite at2_zip2d; [|exact Hat1|exact Hat]. }
  assert (Hshape : get_radial_dist (length im, Mat.ncols im) (1, 1) cenyx
                   = radial).
  { rewrite (ncols_is_matrix h w im) by done. by destruct Him as [-> _]. }
  assert (Hb : broadcast_mask (length im) (Mat.ncols im) mask = Some mask).
  { rewrite (ncols_is_matrix h w im) by done. destruct Him as [-> _].
    by apply broadcast_mask_same. }
  rewrite (get_radial_contrast_steps im mask 1 cenyx radial rmax [0]
             (NpR.map2d (λ _, 1%nat) radial) mask
             Hshape Hmax eq_refl Hdig Hb).
  rewrite Hflat.
  destruct (h * w)%nat as [|n] eqn:E; [nia|].
  rewrite unique_replicate. cbn [map]. by rewrite Hsel.
Qed.
End RadialMore.

Lemma X21_get_radial_contrast_error_witness :
  Arr.is_matrix 1 3 im13 ∧ Arr.is_matrix 2 2 mask22 ∧
  (get_radial_contrast im13 mask22 3 None = None ↔
   1 = 0 ∨ 3 = 0 ∨ ¬ ((2 = 1 ∨ 2 = 1) ∧ (2 = 3 ∨ 2 = 1))).
Proof.
  assert (Him : Arr.is_matrix 1 3 im13).
  { split; [reflexivity|]. repeat constructor. }
  assert (Hmask : Arr.is_matrix 2 2 mask22).
  { split; [reflexivity|]. repeat constructor. }
  split; [exact Him|]. split; [exact Hmask|].
  exact (X21_get_radial_contrast_error im13 mask22 3 None 1 3 2 2
           Him Hmask).
Defined.

Lemma X22_get_radial_contrast_one_bin_witness :
  get_radial_contrast im13 mask13 1 None
    = Some ([0%R], [NpBins.mean (Np.select im13 mask13)]).
Proof.
  apply (X22_get_radial_contrast_one_bin im13 mask13 None 1 3).
  - split; [reflexivity|]. repeat constructor.
  - split; [reflexivity|]. repeat constructor.
  - lia.
  - lia.
Defined.


(** ** create_fourier_probes *)

Section FourierProbesProps.
Local Open Scope R_scope.

Lemma length_sum_axis0 c rows :
  Forall (λ row, length row = c) rows → length (sum_axis0 c rows) = c.
Proof.
  induction 1 as [|row rows Hrow Hrows IH]; simpl.
  - apply length_replicate.
  - rewrite length_zip_with, IH, Hrow. lia.
Qed.

Lemma sum_axis0_nil c : sum_axis0 c [] = replicate c 0.
Proof. done. Qed.

Lemma div_by_max_is_Some r c probe :
  Arr.is_matrix r c probe → (0 < r)%nat → (0 < c)%nat →
  is_Some (div_by_max probe).
Proof.
  intros Hp Hr Hc. unfold div_by_max.
  destruct (max_is_Some (Arr.flatten probe)) as [m ->]; [|by eexists].
  rewrite (length_flatten r c) by done. nia.
Qed.

Lemma is_matrix_div_by_max r c probe q :
  Arr.is_matrix r c probe → div_by_max probe = Some q →
  Arr.is_matrix r c q.
Proof.
  unfold div_by_max. intros Hp Hq.
  destruct (Mat.max (Arr.flatten probe)) as [m|]; [|done].
  simpl in Hq. injection Hq as <-. by apply is_matrix_map2d.
Qed.

Lemma map2d_Forall {A B} (P : B → Prop) (f : A → B) a :
  (∀ v, v ∈ Arr.flatten a → P (f v)) →
  Forall (Forall P) (NpR.map2d f a).
Proof.
  intros H. unfold NpR.map2d.
  apply Forall_lookup. intros i row' Hi.
  change (map (map f) a) with (map f <$> a) in Hi.
  rewrite list_lookup_fmap in Hi.
  destruct (a !! i) as [row|] eqn:Hrow; [|done].
  simpl in Hi. injection Hi as <-.
  apply Forall_lookup. intros j e Hj.
  change (map f row) with (f <$> row) in Hj.
  rewrite list_lookup_fmap in Hj.
  destruct (row !! j) as [v|] eqn:Hv; [|done].
  simpl in Hj. injection Hj as <-.
  apply H, elem_of_flatten. exists i, j. unfold Arr.at2.
  by rewrite Hrow.
Qed.

(** What the division by the peak leaves: nothing finite for a peak of
    zero, and otherwise a probe with an entry [1] that bounds the others
    from above (positive peak) or from below (negative peak). *)
Lemma div_by_max_spec probe q :
  div_by_max probe = Some q →
  ∃ m, Mat.max (Arr.flatten probe) = Some m ∧
    (m = 0 → non_finite q) ∧
    (m ≠ 0 → peak_normalised q) ∧
    (0 < m → Forall (Forall (λ e, ∃ v, e = Some v ∧ v <= 1)) q) ∧
    (m < 0 → Forall (Forall (λ e, ∃ v, e = Some v ∧ 1 <= v)) q).
Proof.
  unfold div_by_max. intros Hq.
  destruct (Mat.max (Arr.flatten probe)) as [m|] eqn:Hmax; [|done].
  simpl in Hq. injection Hq as <-. exists m. split; [done|].
  destruct (max_spec _ _ Hmax) as [Hin Hle].
  assert (Hpos : 0 < m →
    Forall (Forall (λ e, ∃ v, e = Some v ∧ v <= 1))
      (NpR.map2d (λ v, if Req_dec_T m 0 then None else Some (v / m))
         probe)).
  { intros Hm. apply map2d_Forall. intros v Hv.
    destruct (Req_dec_T m 0) as [->|_]; [lra|].
    eexists. split; [done|].
    pose proof (proj1 (Forall_forall _ _) Hle v Hv) as Hvm. simpl in Hvm.
    apply (Rmult_le_reg_r m); [done|]. field_simplify; lra. }
  assert (Hneg : m < 0 →
    Forall (Forall (λ e, ∃ v, e = Some v ∧ 1 <= v))
      (NpR.map2d (λ v, if Req_dec_T m 0 then None else Some (v / m))
         probe)).
  { intros Hm. apply map2d_Forall. intros v Hv.
    destruct (Req_dec_T m 0) as [->|_]; [lra|].
    eexists. split; [done|].
    pose proof (proj1 (Forall_forall _ _) Hle v Hv) as Hvm. simpl in Hvm.
    replace (v / m) with ((- v) / (- m)) by (field; lra).
    apply (Rmult_le_reg_r (- m)); [lra|]. field_simplify; lra. }
  split; [|split; [|by split]].
  - intros ->. apply map2d_Forall. intros v _.
    by destruct (Req_dec_T 0 0).
  - intros Hm. split.
    + apply elem_of_flatten in Hin as (i & j & Hij).
      exists i, j. rewrite at2_map2d, Hij. simpl.
      destruct (Req_dec_T m 0) as [->|_]; [done|].
      do 2 f_equal. by field.
    + destruct (Rtotal_order m 0) as [Hlt|[->|Hgt]]; [|done|].
      * right. by apply Hneg.
      * left. by apply Hpos.
Qed.

Lemma Forall_rows_slice {A} (P : list A → Prop) x1 x2 (a : list (list A)) :
  Forall P a → Forall P (Arr.slice x1 x2 a).
Proof. intros H. unfold Arr.slice. by apply Forall_take, Forall_drop. Qed.

(** X23. On a non-empty [fourier_modes] with rows of one length [c],
    [create_fourier_probes] raises exactly when [c] is not [Nact * Nact]
    or [Nact] is 0; otherwise it returns two [Nact]-by-[Nact] probes. *)
Theorem X23_create_fourier_probes_shape n c fourier_modes Nact :
  Arr.is_matrix n c fourier_modes → (0 < n)%nat →
  (create_fourier_probes fourier_modes Nact = None
     ↔ c ≠ (Nact * Nact)%nat ∨ Nact = 0%nat) ∧
  ∀ probes, create_fourier_probes fourier_modes Nact = Some probes →
    ∃ probe1 probe2, probes = [probe1; probe2] ∧
      Arr.is_matrix Nact Nact probe1 ∧ Arr.is_matrix Nact Nact probe2.
Proof.
  intros Hfm Hn. unfold create_fourier_probes.
  rewrite (ncols_is_matrix n c fourier_modes Hfm) by lia.
  destruct Hfm as [Hl Hrows].
  set (s1 := sum_axis0 c (Arr.slice 0 (length fourier_modes / 2)
                            fourier_modes)).
  set (s2 := sum_axis0 c (drop (length fourier_modes / 2) fourier_modes)).
  assert (H1 : length s1 = c)
    by (apply length_sum_axis0; by apply Forall_rows_slice).
  assert (H2 : length s2 = c)
    by (apply length_sum_axis0; by apply Forall_drop).
  destruct (Nat.eqb_spec c (Nact * Nact)) as [Hc|Hc]; simpl.
  - pose proof (is_matrix_reshape2 Nact Nact s1 ltac:(lia)) as M1.
    pose proof (is_matrix_reshape2 Nact Nact s2 ltac:(lia)) as M2.
    destruct (decide (Nact = 0%nat)) as [->|HN].
    + split; [|done]. split; [by right|done].
    + destruct (div_by_max_is_Some _ _ _ M1) as [q1 Hq1]; [lia|lia|].
      destruct (div_by_max_is_Some _ _ _ M2) as [q2 Hq2]; [lia|lia|].
      rewrite Hq1, Hq2. simpl. split.
      * split; [done|]. intros [?|?]; done.
      * intros probes [= <-]. exists q1, q2. split; [done|].
        split; [exact (is_matrix_div_by_max _ _ _ _ M1 Hq1)|].
        exact (is_matrix_div_by_max _ _ _ _ M2 Hq2).
  - split; [|done]. split; [by left|done].
Qed.

(** X24. Each probe returned by [create_fourier_probes] is normalised by
    its peak: either it holds no finite number at all (the summed modes
    peak at 0, and the division leaves nan or infinities), or one of its
    entries is exactly 1 and the others all lie on one side of 1 (at
    most 1 for a positive peak, at least 1 for a negative one). *)
Theorem X24_create_fourier_probes_peak fourier_modes Nact probes :
  create_fourier_probes fourier_modes Nact = Some probes →
  Forall (λ p, non_finite p ∨ peak_normalised p) probes.
Proof.
  unfold create_fourier_probes.
  destruct (negb _); [done|]. cbv zeta.
  match goal with
  | |- div_by_max ?p1 ≫= _ = _ → _ =>
      destruct (div_by_max p1) as [q1|] eqn:Hq1; simpl; [|done]
  end.
  match goal with
  | |- div_by_max ?p2 ≫= _ = _ → _ =>
      destruct (div_by_max p2) as [q2|] eqn:Hq2; simpl; [|done]
  end.
  intros [= <-].
  assert (Hone : ∀ p q, div_by_max p = Some q →
                   non_finite q ∨ peak_normalised q).
  { intros p q (m & _ & H0 & H1 & _)%div_by_max_spec.
    destruct (Req_dec_T m 0); [left|right]; auto. }
  constructor; [by eapply Hone|].
  constructor; [by eapply Hone|constructor].
Qed.

(** X25. With fewer than two modes the first half is empty, so the first
    probe is a sum of nothing divided by its peak 0: it holds no finite
    number. *)
Theorem X25_create_fourier_probes_single_mode fourier_modes Nact probes :
  (length fourier_modes < 2)%nat →
  create_fourier_probes fourier_modes Nact = Some probes →
  ∃ probe1, probes !! 0%nat = Some probe1 ∧
    Arr.is_matrix Nact Nact probe1 ∧ non_finite probe1.
Proof.
  intros Hlen. unfold create_fourier_probes.
  replace (length fourier_modes / 2)%nat with 0%nat
    by (symmetry; apply Nat.div_small; lia).
  change (Arr.slice 0 0 fourier_modes) with (@nil (list R)).
  rewrite sum_axis0_nil.
  destruct (Nat.eqb_spec (Mat.ncols fourier_modes) (Nact * Nact))
    as [Hc|Hc]; cbn [negb]; [|done]. cbv zeta.
  pose proof (is_matrix_reshape2 Nact Nact
                (replicate (Mat.ncols fourier_modes) 0)
                ltac:(by rewrite length_replicate)) as M1.
  match goal with
  | |- div_by_max ?p1 ≫= _ = _ → _ =>
      destruct (div_by_max p1) as [q1|] eqn:Hq1; simpl; [|done]
  end.
  match goal with
  | |- div_by_max ?p2 ≫= _ = _ → _ =>
      destruct (div_by_max p2) as [q2|] eqn:Hq2; simpl; [|done]
  end.
  intros [= <-]. exists q1. split; [done|].
  split; [exact (is_matrix_div_by_max _ _ _ _ M1 Hq1)|].
  destruct (div_by_max_spec _ _ Hq1) as (m & Hmax & H0 & _).
  apply H0. destruct (max_spec _ _ Hmax) as [Hin _].
  rewrite flatten_reshape2 in Hin by (by rewrite length_replicate).
  by apply elem_of_replicate in Hin as [-> _].
Qed.
End FourierProbesProps.

Lemma is_matrix_modes24 : Arr.is_matrix 2 4 modes24.
Proof. split; [reflexivity|]. repeat constructor. Qed.

Lemma X23_create_fourier_probes_shape_witness :
  (create_fourier_probes modes24 2 = None ↔ 4 ≠ 2 * 2 ∨ 2 = 0) ∧
  ∀ probes, create_fourier_probes modes24 2 = Some probes →
    ∃ probe1 probe2, probes = [probe1; probe2] ∧
      Arr.is_matrix 2 2 probe1 ∧ Arr.is_matrix 2 2 probe2.
Proof.
  apply (X23_create_fourier_probes_shape 2 4 modes24 2).
  - exact is_matrix_modes24.
  - lia.
Defined.


Section FourierProbesExamples.
Local Open Scope R_scope.

Lemma create_fourier_probes_two_modes :
  create_fourier_probes [[2]; [-4]] 1%nat
    = Some [[[Some ((2 + 0) / (2 + 0))]];
            [[Some ((-4 + 0) / (-4 + 0))]]].
Proof.
  unfold create_fourier_probes, div_by_max. simpl.
  destruct (Req_dec_T (2 + 0) 0) as [E|_]; [lra|].
  destruct (Req_dec_T (-4 + 0) 0) as [E|_]; [lra|]. reflexivity.
Qed.

Lemma create_fourier_probes_one_mode :
  create_fourier_probes [[2]] 1%nat
    = Some [[[None]]; [[Some ((2 + 0) / (2 + 0))]]].
Proof.
  unfold create_fourier_probes, div_by_max. simpl.
  destruct (Req_dec_T 0 0) as [_|E]; [|done].
  destruct (Req_dec_T (2 + 0) 0) as [E|_]; [lra|]. reflexivity.
Qed.

Lemma X24_create_fourier_probes_peak_witness :
  Forall (λ p, non_finite p ∨ peak_normalised p)
    [[[Some ((2 + 0) / (2 + 0))]]; [[Some ((-4 + 0) / (-4 + 0))]]].
Proof.
  exact (X24_create_fourier_probes_peak [[2]; [-4]] 1%nat _
           create_fourier_probes_two_modes).
Defined.

Lemma X25_create_fourier_probes_single_mode_witness :
  ∃ probe1,
    [[[None]]; [[Some ((2 + 0) / (2 + 0))]]] !! 0%nat = Some probe1 ∧
    Arr.is_matrix 1%nat 1%nat probe1 ∧ non_finite probe1.
Proof.
  apply (X25_create_fourier_probes_single_mode [[2]] 1%nat).
  - simpl. apply Nat.lt_succ_diag_r.
  - exact create_fourier_probes_one_mode.
Defined.
End FourierProbesExamples.


(** ** Focal-plane masks *)

Section FocalPlaneMaskProps.
Local Open Scope R_scope.
Variable rotate : list (list bool) → R → option (list (list bool)).
Variable shift : list (list bool) → R * R → option (list (list bool)).

Lemma all_false_at2 (mask : list (list bool)) :
  (∀ i j b, Arr.at2 mask i j = Some b → b = false) → all_false mask.
Proof.
  intros H. apply Forall_lookup. intros i row Hrow.
  apply Forall_lookup. intros j b Hb. apply (H i j).
  unfold Arr.at2. by rewrite Hrow.
Qed.

Lemma gt0_b2z (b : bool) : (0 <? Z.b2z b)%Z = b.
Proof. by destruct b. Qed.

Lemma map2d_id_ext {A} (f : A → A) (a : list (list A)) :
  (∀ v, f v = v) → NpR.map2d f a = a.
Proof.
  intros H. unfold NpR.map2d.
  induction a as [|row a IH]; simpl; [done|]. f_equal; [|done].
  induction row as [|v row IHr]; simpl; [done|]. by rewrite H, IHr.
Qed.

Lemma is_matrix_annulus h w x y outer inner edge :
  Arr.is_matrix h w x → Arr.is_matrix h w y →
  Arr.is_matrix h w (annulus x y outer inner edge).
Proof.
  intros Hx Hy. unfold annulus.
  assert (Arr.is_matrix h w
            (NpR.map2d (λ v, Rltb v outer && Rltb inner v)
               (NpR.zip2d (λ a b, sqrt (a ^ 2 + b ^ 2)) x y)))
    by (by apply is_matrix_map2d, is_matrix_zip2d).
  destruct edge; [by apply is_matrix_zip2d|done].
Qed.

Lemma at2_annulus x y outer inner edge i j xv yv :
  Arr.at2 x i j = Some xv → Arr.at2 y i j = Some yv →
  (Arr.at2 (annulus x y outer inner edge) i j = Some true ↔
     inner < sqrt (xv ^ 2 + yv ^ 2) < outer ∧
     ∀ e, edge = Some e → e < xv) ∧
  is_Some (Arr.at2 (annulus x y outer inner edge) i j).
Proof.
  intros Hx Hy. unfold annulus.
  assert (Hb : Arr.at2
            (NpR.map2d (λ v, Rltb v outer && Rltb inner v)
               (NpR.zip2d (λ a b, sqrt (a ^ 2 + b ^ 2)) x y)) i j
            = Some (Rltb (sqrt (xv ^ 2 + yv ^ 2)) outer
                    && Rltb inner (sqrt (xv ^ 2 + yv ^ 2)))).
  { rewrite at2_map2d.
    by erewrite at2_zip2d; [|exact Hx|exact Hy]. }
  destruct edge as [e|].
  - erewrite at2_zip2d; [|exact Hb|exact Hx]. split; [|by eexists].
    split.
    + intros [= [[H1%Rltb_true H2%Rltb_true]%andb_true_iff
                   H3%Rltb_true]%andb_true_iff].
      split; [done|]. by intros ? [= <-].
    + intros [[H1 H2] H3]. f_equal.
      rewrite !andb_true_iff, !Rltb_true. by auto.
  - rewrite Hb. split; [|by eexists]. split.
    + intros [= [H1%Rltb_true H2%Rltb_true]%andb_true_iff].
      by split.
    + intros [[H1 H2] _]. f_equal.
      rewrite !andb_true_iff, !Rltb_true. by auto.
Qed.

Lemma create_annular_focal_plane_mask_plain x y params :
  params !! "rotation" = None → params !! "x_shift" = None →
  params !! "y_shift" = None →
  create_annular_focal_plane_mask rotate shift x y params
    = outer ← params !! "outer_radius";
      inner ← params !! "inner_radius";
      Some (annulus x y outer inner (params !! "edge")).
Proof.
  intros Hr Hxs Hys. unfold create_annular_focal_plane_mask, if_in.
  rewrite Hr, Hxs, Hys.
  destruct (params !! "outer_radius") as [outer|]; [|done].
  destruct (params !! "inner_radius") as [inner|]; [|done].
  simpl. unfold annulus. by destruct (params !! "edge").
Qed.

(** X26. Without rotation or shift, [create_annular_focal_plane_mask]
    raises exactly when a radius is missing from [params]; otherwise the
    mask has the shape of the grids, selects a pixel exactly when its
    distance lies strictly between the radii and (if an edge is given)
    its [x] exceeds the edge, and selects nothing when the outer radius
    does not exceed the inner one. *)
Theorem X26_create_annular_focal_plane_mask h w x y params :
  Arr.is_matrix h w x → Arr.is_matrix h w y →
  params !! "rotation" = None → params !! "x_shift" = None →
  params !! "y_shift" = None →
  (create_annular_focal_plane_mask rotate shift x y params = None
     ↔ params !! "outer_radius" = None ∨ params !! "inner_radius" = None) ∧
  ∀ mask outer inner,
    create_annular_focal_plane_mask rotate shift x y params = Some mask →
    params !! "outer_radius" = Some outer →
    params !! "inner_radius" = Some inner →
    Arr.is_matrix h w mask ∧
    (∀ i j xv yv, Arr.at2 x i j = Some xv → Arr.at2 y i j = Some yv →
       (Arr.at2 mask i j = Some true ↔
          inner < sqrt (xv ^ 2 + yv ^ 2) < outer ∧
          ∀ edge, params !! "edge" = Some edge → edge < xv)) ∧
    (outer <= inner → all_false mask).
Proof.
  intros Hx Hy Hr Hxs Hys.
  rewrite (create_annular_focal_plane_mask_plain x y params Hr Hxs Hys).
  split.
  - destruct (params !! "outer_radius") as [outer|]; simpl;
      [|split; [by left|done]].
    destruct (params !! "inner_radius") as [inner|]; simpl;
      [|split; [by right|done]].
    split; [done|]. by intros [?|?].
  - intros mask outer inner Hm Hout Hinn. rewrite Hout, Hinn in Hm.
    simpl in Hm. injection Hm as <-.
    split; [by apply is_matrix_annulus|]. split.
    + intros i j xv yv Hxv Hyv.
      by apply (at2_annulus x y outer inner (params !! "edge") i j xv yv).
    + intros Hle. apply all_false_at2. intros i j b Hb.
      destruct b; [|done]. exfalso.
      destruct (at2_in_range h w _ i j true
                  (is_matrix_annulus h w x y outer inner _ Hx Hy) Hb)
        as [Hi Hj].
      destruct (at2_is_Some h w x i j Hx Hi Hj) as [xv Hxv].
      destruct (at2_is_Some h w y i j Hy Hi Hj) as [yv Hyv].
      apply (at2_annulus x y outer inner (params !! "edge") i j xv yv
               Hxv Hyv) in Hb as [[? ?] _]. lra.
Qed.

Lemma at2_box x y xi yi xo yo i j xv yv :
  Arr.at2 x i j = Some xv → Arr.at2 y i j = Some yv →
  (Arr.at2 (box x y xi yi xo yo) i j = Some true ↔
     xi < xv < xo ∧ yi < yv < yo).
Proof.
  intros Hx Hy. unfold box.
  erewrite at2_zip2d; [|exact Hx|exact Hy]. split.
  - intros [= H]. rewrite !andb_true_iff, !Rltb_true in H. tauto.
  - intros H. f_equal. rewrite !andb_true_iff, !Rltb_true. tauto.
Qed.

Lemma create_box_focal_plane_mask_plain x y params :
  params !! "x_shift" = None → params !! "y_shift" = None →
  create_box_focal_plane_mask shift x y params
    = xi ← params !! "xi"; yi ← params !! "yi";
      xo ← params !! "xo"; yo ← params !! "yo";
      Some (box x y xi yi xo yo).
Proof.
  intros Hxs Hys. unfold create_box_focal_plane_mask, if_in.
  rewrite Hxs, Hys.
  destruct (params !! "xi") as [xi|]; [|done].
  destruct (params !! "yi") as [yi|]; [|done].
  destruct (params !! "xo") as [xo|]; [|done].
  destruct (params !! "yo") as [yo|]; [|done].
  simpl. f_equal. apply map2d_id_ext, gt0_b2z.
Qed.

(** X27. Without shift, [create_box_focal_plane_mask] raises exactly
    when one of the four corners is missing from [params]; otherwise the
    closing [> 0] changes nothing and the mask, of the shape of the
    grids, selects exactly the pixels strictly inside the box, so none
    when the box is empty ([xo <= xi] or [yo <= yi]). *)
Theorem X27_create_box_focal_plane_mask h w x y params :
  Arr.is_matrix h w x → Arr.is_matrix h w y →
  params !! "x_shift" = None → params !! "y_shift" = None →
  (create_box_focal_plane_mask shift x y params = None
     ↔ params !! "xi" = None ∨ params !! "yi" = None
       ∨ params !! "xo" = None ∨ params !! "yo" = None) ∧
  ∀ mask xi yi xo yo,
    create_box_focal_plane_mask shift x y params = Some mask →
    params !! "xi" = Some xi → params !! "yi" = Some yi →
    params !! "xo" = Some xo → params !! "yo" = Some yo →
    Arr.is_matrix h w mask ∧
    (∀ i j xv yv, Arr.at2 x i j = Some xv → Arr.at2 y i j = Some yv →
       (Arr.at2 mask i j = Some true ↔ xi < xv < xo ∧ yi < yv < yo)) ∧
    (xo <= xi ∨ yo <= yi → all_false mask).
Proof.
  intros Hx Hy Hxs Hys.
  rewrite (create_box_focal_plane_mask_plain x y params Hxs Hys).
  split.
  - destruct (params !! "xi"); simpl; [|split; [by left|done]].
    destruct (params !! "yi"); simpl; [|split; [by right; left|done]].
    destruct (params !! "xo"); simpl;
      [|split; [by right; right; left|done]].
    destruct (params !! "yo"); simpl;
      [|split; [by right; right; right|done]].
    split; [done|]. by intros [?|[?|[?|?]]].
  - intros mask xi yi xo yo Hm H1 H2 H3 H4.
    rewrite H1, H2, H3, H4 in Hm. simpl in Hm. injection Hm as <-.
    assert (Hbox : Arr.is_matrix h w (box x y xi yi xo yo))
      by (by apply is_matrix_zip2d).
    split; [done|]. split.
    + intros i j xv yv Hxv Hyv. by apply at2_box.
    + intros Hle. apply all_false_at2. intros i j b Hb.
      destruct b; [|done]. exfalso.
      destruct (at2_in_range h w _ i j true Hbox Hb) as [Hi Hj].
      destruct (at2_is_Some h w x i j Hx Hi Hj) as [xv Hxv].
      destruct (at2_is_Some h w y i j Hy Hi Hj) as [yv Hyv].
      apply (at2_box x y xi yi xo yo i j xv yv Hxv Hyv) in Hb. lra.
Qed.
End FocalPlaneMaskProps.


Section FocalPlaneMaskExamples.
Local Open Scope R_scope.

Lemma is_matrix_grid_x12 : Arr.is_matrix 1 2 grid_x12.
Proof. split; [reflexivity|]. repeat constructor. Qed.

Lemma is_matrix_grid_y12 : Arr.is_matrix 1 2 grid_y12.
Proof. split; [reflexivity|]. repeat constructor. Qed.

Lemma X26_create_annular_focal_plane_mask_witness :
  (create_annular_focal_plane_mask (λ m _, Some m) (λ m _, Some m)
     grid_x12 grid_y12 annulus_params = None
     ↔ annulus_params !! "outer_radius" = None
       ∨ annulus_params !! "inner_radius" = None) ∧
  ∀ mask outer inner,
    create_annular_focal_plane_mask (λ m _, Some m) (λ m _, Some m)
      grid_x12 grid_y12 annulus_params = Some mask →
    annulus_params !! "outer_radius" = Some outer →
    annulus_params !! "inner_radius" = Some inner →
    Arr.is_matrix 1 2 mask ∧
    (∀ i j xv yv, Arr.at2 grid_x12 i j = Some xv →
       Arr.at2 grid_y12 i j = Some yv →
       (Arr.at2 mask i j = Some true ↔
          inner < sqrt (xv ^ 2 + yv ^ 2) < outer ∧
          ∀ edge, annulus_params !! "edge" = Some edge → edge < xv)) ∧
    (outer <= inner → all_false mask).
Proof.
  apply (X26_create_annular_focal_plane_mask
           (λ m _, Some m) (λ m _, Some m) 1 2 grid_x12 grid_y12
           annulus_params).
  - exact is_matrix_grid_x12.
  - exact is_matrix_grid_y12.
  - reflexivity.
  - reflexivity.
  - reflexivity.
Defined.

Lemma X27_create_box_focal_plane_mask_witness :
  (create_box_focal_plane_mask (λ m _, Some m) grid_x12 grid_y12
     box_params = None
     ↔ box_params !! "xi" = None ∨ box_params !! "yi" = None
       ∨ box_params !! "xo" = None ∨ box_params !! "yo" = None) ∧
  ∀ mask xi yi xo yo,
    create_box_focal_plane_mask (λ m _, Some m) grid_x12 grid_y12
      box_params = Some mask →
    box_params !! "xi" = Some xi → box_params !! "yi" = Some yi →
    box_params !! "xo" = Some xo → box_params !! "yo" = Some yo →
    Arr.is_matrix 1 2 mask ∧
    (∀ i j xv yv, Arr.at2 grid_x12 i j = Some xv →
       Arr.at2 grid_y12 i j = Some yv →
       (Arr.at2 mask i j = Some true ↔ xi < xv < xo ∧ yi < yv < yo)) ∧
    (xo <= xi ∨ yo <= yi → all_false mask).
Proof.
  apply (X27_create_box_focal_plane_mask
           (λ m _, Some m) 1 2 grid_x12 grid_y12 box_params).
  - exact is_matrix_grid_x12.
  - exact is_matrix_grid_y12.
  - reflexivity.
  - reflexivity.
Defined.
End FocalPlaneMaskExamples.

(** ** create_sinc_probes, probe by probe *)

Section SincProbesPointwise.
Local Open Scope R_scope.

(** C7. For [Npairs >= 1] and a mask of shape [(Nact, Nact)],
    [create_sinc_probes] returns exactly [Npairs] probes.  Probe [i] has
    shape [(Nact, Nact)]; at every position it is the entry of
    [create_sinc_probe] at phase [i*pi/Npairs], with bad axis ['x'] for
    even [i] and ['y'] for odd [i], where the mask is True, and 0 where
    the mask is False. *)
Theorem C7_create_sinc_probes Npairs Nact dm_mask amp probe_radius offset :
  (1 ≤ Npairs)%nat → Arr.square Nact dm_mask →
  ∃ probes,
    create_sinc_probes Npairs Nact dm_mask amp probe_radius offset
      = Some probes ∧
    length probes = Npairs ∧
    ∀ i, (i < Npairs)%nat →
      ∃ raw probe,
        create_sinc_probe Nact amp probe_radius (INR i * PI / INR Npairs)
                          offset
                          (if Nat.even i then "x"%string else "y"%string)
          = Some raw ∧
        probes !! i = Some probe ∧
        Arr.square Nact probe ∧
        ∀ r c, (r < Nact)%nat → (c < Nact)%nat →
          ∃ v b, Arr.at2 raw r c = Some v ∧
                 Arr.at2 dm_mask r c = Some b ∧
                 Arr.at2 probe r c = Some (if b then v else 0).
Proof.
  intros Hpos Hmask.
  rewrite (create_sinc_probes_loop Npairs Nact dm_mask amp probe_radius
             offset Hpos).
  set (body := λ i : nat,
         probe ← create_sinc_probe Nact amp probe_radius
                    (INR i * PI / INR Npairs) offset
                    (if Nat.even i then "x"%string else "y"%string);
         Some (mul_mask probe dm_mask)).
  assert (Hsome : ∀ i, is_Some (body i)).
  { intros i. unfold body.
    destruct (create_sinc_probe_xy_Some Nact amp probe_radius
                (INR i * PI / INR Npairs) offset (Nat.even i)) as [p ->].
    by eexists. }
  destruct (mapM_is_Some_2 body (seq 0 Npairs)) as [probes Hprobes].
  { apply Forall_forall. intros i _. apply Hsome. }
  exists probes. split; [done|].
  pose proof (length_mapM _ _ _ Hprobes) as Hlen.
  rewrite length_seq in Hlen. split; [done|].
  intros i Hi.
  apply mapM_Some_1 in Hprobes.
  destruct (Forall2_lookup_l _ _ _ i i Hprobes) as (probe & Hy & Hb).
  { by apply lookup_seq_lt. }
  unfold body in Hb.
  destruct (create_sinc_probe Nact amp probe_radius
              (INR i * PI / INR Npairs) offset
              (if Nat.even i then "x"%string else "y"%string))
    as [raw|] eqn:Hraw; [|done].
  simpl in Hb. injection Hb as <-.
  pose proof (create_sinc_probe_square _ _ _ _ _ _ _ Hraw) as Hsq.
  exists raw, (mul_mask raw dm_mask).
  split; [done|]. split; [done|]. split.
  - unfold mul_mask. by apply is_matrix_zip2d.
  - intros r c Hr Hc.
    destruct (at2_is_Some Nact Nact dm_mask r c Hmask Hr Hc) as [b Hbm].
    destruct (at2_mul_mask Nact raw dm_mask r c b Hsq Hr Hc Hbm)
      as (v & Hv & Hm).
    exists v, b. split; [done|]. split; [done|].
    rewrite Hm. f_equal. destruct b; ring.
Qed.
End SincProbesPointwise.

Lemma C7_create_sinc_probes_witness :
  1 ≤ 2 ∧ Arr.square 2 mask22 ∧
  ∃ probes,
    create_sinc_probes 2 2 mask22 1 10 (0%R, 0%R) = Some probes ∧
    length probes = 2 ∧
    ∃ probe, probes !! 1 = Some probe ∧
      Arr.at2 probe 1 0 = Some 0%R ∧ Arr.at2 probe 1 1 = Some 0%R.
Proof.
  assert (Hsq : Arr.square 2 mask22).
  { split; [reflexivity|]. repeat constructor. }
  split; [lia|]. split; [exact Hsq|].
  destruct (C7_create_sinc_probes 2 2 mask22 1 10 (0%R, 0%R) ltac:(lia) Hsq)
    as (probes & Hp & Hl & Hall).
  exists probes. split; [exact Hp|]. split; [exact Hl|].
  destruct (Hall 1 ltac:(lia)) as (raw & probe & _ & Hi & _ & Hent).
  exists probe. split; [exact Hi|]. split.
  - destruct (Hent 1 0 ltac:(lia) ltac:(lia)) as (v & b & _ & Hb & Hv).
    injection Hb as <-. exact Hv.
  - destruct (Hent 1 1 ltac:(lia) ltac:(lia)) as (v & b & _ & Hb & Hv).
    injection Hb as <-. exact Hv.
Defined.

(** ** get_radial_contrast, bin by bin *)

Section RadialContrastBins.
Local Open Scope R_scope.








End RadialContrastBins.

